(** * Search and constraint-satisfaction notebooks: a shallow embedding

    The development follows the two algorithmic notebooks of the
    repository.

    - [8-puzzle-problem.ipynb]: the [Problem] class of the 8-puzzle, the
      search-tree [Node], and the three solvers [breadth_first_search],
      [iterative_deepening_search] and [astar_search].
    - the N-Queens notebook: the [NQueens] class with its min-conflicts
      solver and the helpers of the backtracking solver.

    Python integers are modelled by [Z] (and by [nat] where the source only
    counts: node depths, depth limits, loop budgets), tuples and lists by
    [list], [dict] by [gmap], [set] by [gset].  Fallible operations
    ([tuple.index], item access, [list.remove] on a missing item) return
    [option].  Loops of unknown length take a fuel argument; running out of
    fuel is [None] and is never confused with a result of the program. *)

From stdpp Require Import list list_numbers gmap sorting.

#[local] Set Warnings "-register-all".
#[local] Open Scope Z_scope.

(** ** Python list primitives *)

(** [seq.index(x)]: position of the first occurrence, [None] for the
    [ValueError] raised when [x] does not occur. *)
Fixpoint index (x : Z) (l : list Z) : option Z :=
  match l with
  | [] => None
  | y :: l' => if bool_decide (y = x) then Some 0 else Z.succ <$> index x l'
  end.

(** Resolution of a Python subscript against a sequence of length [len]:
    negative subscripts count from the end, anything outside
    [-len, len) is an [IndexError]. *)
Definition py_subscript (len : nat) (i : Z) : option nat :=
  if bool_decide (0 ≤ i < Z.of_nat len) then Some (Z.to_nat i)
  else if bool_decide (- Z.of_nat len ≤ i < 0) then Some (Z.to_nat (Z.of_nat len + i))
  else None.

Definition py_getitem {A} (l : list A) (i : Z) : option A :=
  k ← py_subscript (length l) i; l !! k.

Definition py_setitem {A} (l : list A) (i : Z) (x : A) : option (list A) :=
  k ← py_subscript (length l) i; Some (<[k:=x]> l).

(** [list.remove(x)]: drops the first item equal to [x]; [None] when there
    is none ([ValueError]). *)
Fixpoint py_remove {A} (eqb : A → A → bool) (x : A) (l : list A) : option (list A) :=
  match l with
  | [] => None
  | y :: l' => if eqb y x then Some l' else (y ::.) <$> py_remove eqb x l'
  end.

(** ** The 8-puzzle: class [Problem] *)

Inductive Action := left | right | up | down.

#[global] Instance Action_eq_dec : EqDecision Action.
Proof. solve_decision. Defined.

Abbreviation State := (list Z) (only parsing).

Module Problem.

Definition change (action : Action) : Z :=
  match action with left => -1 | right => 1 | up => -3 | down => 3 end.

Definition actions (state : State) : option (list Action) :=
  ix ← index 0 state;
  let actions := [left; right; up; down] in
  actions ← (if bool_decide (ix `mod` 3 = 0)
             then py_remove (λ a b, bool_decide (a = b)) left actions
             else Some actions);
  actions ← (if bool_decide (ix < 3)
             then py_remove (λ a b, bool_decide (a = b)) up actions
             else Some actions);
  actions ← (if bool_decide (ix `mod` 3 = 2)
             then py_remove (λ a b, bool_decide (a = b)) right actions
             else Some actions);
  actions ← (if bool_decide (ix > 5)
             then py_remove (λ a b, bool_decide (a = b)) down actions
             else Some actions);
  Some actions.

Definition is_goal_state (goal state : State) : bool :=
  bool_decide (goal = state).

(** The index that [result] swaps the blank with. *)
Definition adjacent_ix (state : State) (action : Action) : option Z :=
  blank_ix ← index 0 state; Some (blank_ix + change action).

Definition result (state : State) (action : Action) : option State :=
  blank_ix ← index 0 state;
  let adjacent_ix := blank_ix + change action in
  let new_state := state in
  (* the right-hand side of the swap is read before anything is written *)
  x ← py_getitem new_state adjacent_ix;
  y ← py_getitem new_state blank_ix;
  new_state ← py_setitem new_state blank_ix x;
  py_setitem new_state adjacent_ix y.

(** The default heuristic: number of positions that differ from the
    goal. *)
Fixpoint misplaced (goal state : State) (i : nat) (n : nat) : option Z :=
  match n with
  | O => Some 0
  | S n' =>
      x ← state !! i;
      y ← goal !! i;
      r ← misplaced goal state (S i) n';
      Some ((if bool_decide (x ≠ y) then 1 else 0) + r)
  end.

Definition h (goal state : State) (func : option (State → State → option Z)) : option Z :=
  match func with
  | None => misplaced goal state 0 (length state)
  | Some func => func state goal
  end.

End Problem.

Definition get_2d_index (i : Z) : Z * Z :=
  if bool_decide (i ≤ 2) then (0, i)
  else if bool_decide (i ≤ 5) then (1, i - 3)
  else (2, i - 6).

Definition dist (ix1 ix2 : Z) : Z :=
  let '(i1, j1) := get_2d_index ix1 in
  let '(i2, j2) := get_2d_index ix2 in
  Z.abs (i2 - i1) + Z.abs (j2 - j1).

Fixpoint manhattan_from (ix1 : Z) (state goal : State) : option Z :=
  match state with
  | [] => Some 0
  | el :: state' =>
      ix2 ← index el goal;
      r ← manhattan_from (ix1 + 1) state' goal;
      Some (dist ix1 ix2 + r)
  end.

Definition manhattan_distance (state goal : State) : option Z :=
  manhattan_from 0 state goal.

(** A valid 8-puzzle state: the tiles 0..8, each once. *)
Definition valid_state (state : State) : Prop := state ≡ₚ seqZ 0 9.

(** ** The interface the solvers use

    The solvers are written against any object with [start], [actions],
    [result], [is_goal_state] and [h]; a solver run assumes these never
    raise. *)

Record SearchProblem (St Act Heur : Type) := {
  start : St;
  actions : St → list Act;
  result : St → Act → St;
  is_goal_state : St → bool;
  h : St → option Heur → Z
}.
Arguments start {St Act Heur}.
Arguments actions {St Act Heur}.
Arguments result {St Act Heur}.
Arguments is_goal_state {St Act Heur}.
Arguments h {St Act Heur}.

(** [Problem(start, goal)] seen through that interface.  An exception of a
    method shows as the empty action list, the unchanged state or the
    estimate 0; [actions] and [result] raise nothing on a valid board, as
    is proved below. *)
Definition puzzle_problem (start goal : State)
  : SearchProblem State Action (State → State → option Z) :=
  {| start := start;
     actions state := default [] (Problem.actions state);
     result state action := default state (Problem.result state action);
     is_goal_state := Problem.is_goal_state goal;
     h state func := default 0 (Problem.h goal state func) |}.

(** ** [heapq] on a Python list

    [heappush] and [heappop] as CPython's [heapq] module runs them, on
    whatever list they are given: nothing here assumes that the list is a
    heap.  [lt] is the item's [__lt__], the only comparison [heapq] uses.
    A lookup that gives [None] below is a subscript out of range; the
    callers never make one. *)

Section Heapq.

Context {A : Type} (lt : A → A → bool).

(** [_siftdown(heap, startpos, pos)] after [newitem = heap[pos]]: the
    item moves up towards [startpos] while it is smaller than its
    parent.  [pos] decreases at each round, so [pos] rounds suffice. *)
Fixpoint siftdown_loop (fuel : nat) (heap : list A) (startpos pos : nat)
    (newitem : A) : list A :=
  match fuel with
  | O => <[pos:=newitem]> heap
  | S fuel' =>
      if bool_decide (startpos < pos)%nat then
        let parentpos := ((pos - 1) / 2)%nat in
        match heap !! parentpos with
        | Some parent =>
            if lt newitem parent
            then siftdown_loop fuel' (<[pos:=parent]> heap) startpos parentpos newitem
            else <[pos:=newitem]> heap
        | None => <[pos:=newitem]> heap
        end
      else <[pos:=newitem]> heap
  end.

Definition siftdown (heap : list A) (startpos pos : nat) : list A :=
  match heap !! pos with
  | Some newitem => siftdown_loop pos heap startpos pos newitem
  | None => heap
  end.

(** The [while childpos < endpos] loop of [_siftup]: the smaller child
    is bubbled up until a leaf is hit; returns the heap and the leaf
    position. *)
Fixpoint siftup_loop (fuel : nat) (heap : list A) (pos : nat) : list A * nat :=
  match fuel with
  | O => (heap, pos)
  | S fuel' =>
      let endpos := length heap in
      let childpos := (2 * pos + 1)%nat in
      if bool_decide (childpos < endpos)%nat then
        let rightpos := (childpos + 1)%nat in
        let childpos :=
          match heap !! childpos, heap !! rightpos with
          | Some c, Some r => if negb (lt c r) then rightpos else childpos
          | _, _ => childpos
          end in
        match heap !! childpos with
        | Some c => siftup_loop fuel' (<[pos:=c]> heap) childpos
        | None => (heap, pos)
        end
      else (heap, pos)
  end.

Definition siftup (heap : list A) (pos : nat) : list A :=
  match heap !! pos with
  | Some newitem =>
      let '(heap, leaf) := siftup_loop (length heap) heap pos in
      siftdown (<[leaf:=newitem]> heap) pos leaf
  | None => heap
  end.

Definition heappush (heap : list A) (item : A) : list A :=
  let heap := heap ++ [item] in
  siftdown heap 0 (length heap - 1).

(** [None] is the [IndexError] of popping from an empty list. *)
Definition heappop (heap : list A) : option (A * list A) :=
  match last heap with
  | None => None
  | Some lastelt =>
      let heap := removelast heap in
      match heap with
      | [] => Some (lastelt, heap)
      | returnitem :: _ => Some (returnitem, siftup (<[0%nat:=lastelt]> heap) 0)
      end
  end.

End Heapq.

(** What a heap is: with [key] the number that the items are compared
    by, no item is smaller than its parent, the item at [(i - 1) // 2].
    A list with a hole at [pos] is ordered apart from the item at [pos],
    and across it: no child of [pos] is smaller than the parent of
    [pos]. *)

Section HeapqSpec.

Context {A : Type} (key : A → Z).

Definition heap_ordered (heap : list A) : Prop :=
  ∀ i x y, (0 < i)%nat →
    heap !! i = Some x → heap !! ((i - 1) / 2)%nat = Some y → key y ≤ key x.

Record heap_hole (heap : list A) (pos : nat) : Prop := {
  hole_apart : ∀ i x y, (0 < i)%nat → i ≠ pos → ((i - 1) / 2)%nat ≠ pos →
    heap !! i = Some x → heap !! ((i - 1) / 2)%nat = Some y → key y ≤ key x;
  hole_across : ∀ c x y, (0 < c)%nat → ((c - 1) / 2)%nat = pos → (0 < pos)%nat →
    heap !! c = Some x → heap !! ((pos - 1) / 2)%nat = Some y → key y ≤ key x
}.

End HeapqSpec.

(** ** Search nodes and the solvers *)

Section Search.

Context {St Act Heur : Type} `{Countable St}.
Variable problem : SearchProblem St Act Heur.

Inductive Node : Type := mkNode {
  state : St;
  parent : option Node;
  action : option Act;
  path_cost : Z;
  depth : nat;
  f : Z
}.

(** [Node.__init__]: a node object is always truthy, so [if parent]
    tests for [None]. *)
Definition Node_init (state : St) (parent : option Node)
    (action : option Act) (path_cost : Z) : Node :=
  {| state := state; parent := parent; action := action;
     path_cost := path_cost;
     depth := match parent with Some p => (depth p + 1)%nat | None => 0%nat end;
     f := path_cost |}.

Definition child_node (self : Node) (action : Act) : Node :=
  let new_state := result problem (state self) action in
  let path_cost := path_cost self + 1 in
  Node_init new_state (Some self) (Some action) path_cost.

(** [Node.__eq__] compares states, [Node.__lt__] compares [f]. *)
Definition Node_eq (self other : Node) : bool :=
  bool_decide (state self = state other).

Definition Node_lt (self other : Node) : bool :=
  bool_decide (f self < f other).

(** [node in frontier] *)
Definition node_in (node : Node) (frontier : list Node) : bool :=
  existsb (λ el, Node_eq el node) frontier.

Fixpoint solution_walk (node : Node) : list Node :=
  match parent node with
  | Some p => node :: solution_walk p
  | None => [node]
  end.

Definition solution (node : Node) : list Node :=
  reverse (solution_walk node).

(** What a solver hands back: the list of nodes, or one of the strings
    ['failure'] and ['cutoff']. *)
Inductive SearchResult :=
| Path (nodes : list Node)
| Failure
| Cutoff.

(** *** Breadth-first search *)

(** The [for action in problem.actions(node.state)] loop of
    [breadth_first_search]: [inl child] when the loop returns from the
    function with a goal child, [inr frontier] when it runs to its end. *)
Fixpoint bfs_expand (node : Node) (explored : gset St)
    (acts : list Act) (frontier : list Node) : Node + list Node :=
  match acts with
  | [] => inr frontier
  | action :: acts' =>
      let child := child_node node action in
      if bool_decide (state child ∉ explored) && negb (node_in child frontier)
      then
        if is_goal_state problem (state child) then inl child
        else bfs_expand node explored acts' (frontier ++ [child])
      else bfs_expand node explored acts' frontier
  end.

(** The [while frontier] loop.  (The [print] of [len(explored)] before
    a path is returned is not modelled.) *)
Fixpoint bfs_loop (fuel : nat) (frontier : list Node) (explored : gset St)
    : option SearchResult :=
  match fuel with
  | O => None
  | S fuel' =>
      match frontier with
      | [] => Some Failure
      | node :: frontier =>
          let explored := explored ∪ {[state node]} in
          if bool_decide (depth node ≤ 10)%nat then
            match bfs_expand node explored (actions problem (state node)) frontier with
            | inl child => Some (Path (solution child))
            | inr frontier => bfs_loop fuel' frontier explored
            end
          else bfs_loop fuel' frontier explored
      end
  end.

Definition breadth_first_search (fuel : nat) : option SearchResult :=
  let node := Node_init (start problem) None None 0 in
  if is_goal_state problem (state node) then Some (Path (solution node))
  else bfs_loop fuel [node] ∅.

(** *** Iterative deepening *)

(** The loop over the actions inside [recursive_dls]; [rec] is the
    recursive call at [limit - 1]. *)
Fixpoint dls_actions (rec : Node → SearchResult) (node : Node)
    (acts : list Act) (cutoff_occured : bool) : SearchResult :=
  match acts with
  | [] => if cutoff_occured then Cutoff else Failure
  | action :: acts' =>
      let child := child_node node action in
      match rec child with
      | Cutoff => dls_actions rec node acts' true
      | Failure => dls_actions rec node acts' cutoff_occured
      | Path nodes => Path nodes
      end
  end.

Fixpoint recursive_dls (limit : nat) (node : Node) : SearchResult :=
  if is_goal_state problem (state node) then Path (solution node)
  else
    match limit with
    | O => Cutoff
    | S limit' =>
        dls_actions (recursive_dls limit') node (actions problem (state node)) false
    end.

Definition depth_limited_search (limit : nat) : SearchResult :=
  let node := Node_init (start problem) None None 0 in
  recursive_dls limit node.

(** The [for depth in range(10)] loop; falling off its end is Python's
    implicit [return None], modelled by [None]. *)
Fixpoint ids_loop (depths : list nat) : option SearchResult :=
  match depths with
  | [] => None
  | depth :: depths' =>
      match depth_limited_search depth with
      | Cutoff => ids_loop depths'
      | result => Some result
      end
  end.

Definition iterative_deepening_search : option SearchResult :=
  ids_loop (seq 0 10).

(** *** A* *)

Variable heuristic : option Heur.

Definition set_path_cost (node : Node) (c : Z) : Node :=
  {| state := state node; parent := parent node; action := action node;
     path_cost := c; depth := depth node; f := f node |}.

Definition set_f (node : Node) (v : Z) : Node :=
  {| state := state node; parent := parent node; action := action node;
     path_cost := path_cost node; depth := depth node; f := v |}.

(** The [for el in frontier] loop that replaces a frontier entry by a
    cheaper [child].  The list is changed while it is walked: the
    iterator keeps a position [i] and stops when [i] reaches the current
    length; [remove] then [heappush] keep that length, so
    [length frontier] rounds suffice.  [frontier.remove(el)] cannot
    raise, [el] being in the list. *)
Fixpoint astar_replace (fuel : nat) (i : nat) (frontier : list Node)
    (child : Node) : list Node :=
  match fuel with
  | O => frontier
  | S fuel' =>
      match frontier !! i with
      | None => frontier
      | Some el =>
          if Node_eq el child && bool_decide (f child < f el) then
            let frontier := default frontier (py_remove Node_eq el frontier) in
            let frontier := heappush Node_lt frontier child in
            astar_replace fuel' (S i) frontier child
          else astar_replace fuel' (S i) frontier child
      end
  end.

Fixpoint astar_expand (node : Node) (explored : gset St)
    (acts : list Act) (frontier : list Node) : list Node :=
  match acts with
  | [] => frontier
  | action :: acts' =>
      let child := child_node node action in
      let child := set_f child (path_cost child + h problem (state child) heuristic) in
      if bool_decide (state child ∉ explored) && negb (node_in child frontier)
      then astar_expand node explored acts' (heappush Node_lt frontier child)
      else if node_in child frontier
      then astar_expand node explored acts'
             (astar_replace (length frontier) 0 frontier child)
      else astar_expand node explored acts' frontier
  end.

(** The [while frontier] loop; an empty list ends it, which is the case
    in which [heappop] would raise.  (The [print] of [len(explored)]
    before a path is returned is not modelled.) *)
Fixpoint astar_loop (fuel : nat) (frontier : list Node) (explored : gset St)
    : option SearchResult :=
  match fuel with
  | O => None
  | S fuel' =>
      match heappop Node_lt frontier with
      | None => Some Failure
      | Some (node, frontier) =>
          if is_goal_state problem (state node) then Some (Path (solution node))
          else
            let explored := explored ∪ {[state node]} in
            if bool_decide (depth node ≤ 10)%nat then
              astar_loop fuel'
                (astar_expand node explored (actions problem (state node)) frontier)
                explored
            else astar_loop fuel' frontier explored
      end
  end.

Definition astar_root : Node :=
  let node := Node_init (start problem) None None 0 in
  set_path_cost node (0 + h problem (state node) heuristic).

Definition astar_search (fuel : nat) : option SearchResult :=
  let node := astar_root in
  if is_goal_state problem (state node) then Some (Path (solution node))
  else astar_loop fuel (heappush Node_lt [] node) ∅.

(** How often a run replaces a frontier entry by a cheaper node.  The
    source keeps no such count: the functions below walk beside
    [astar_replace], [astar_expand], [astar_loop] and [astar_search]
    and count the rounds in which [frontier.remove(el)] is reached. *)
Fixpoint astar_replace_count (fuel : nat) (i : nat) (frontier : list Node)
    (child : Node) : nat :=
  match fuel with
  | O => O
  | S fuel' =>
      match frontier !! i with
      | None => O
      | Some el =>
          if Node_eq el child && bool_decide (f child < f el) then
            let frontier := default frontier (py_remove Node_eq el frontier) in
            let frontier := heappush Node_lt frontier child in
            S (astar_replace_count fuel' (S i) frontier child)
          else astar_replace_count fuel' (S i) frontier child
      end
  end.

Fixpoint astar_expand_count (node : Node) (explored : gset St)
    (acts : list Act) (frontier : list Node) : nat :=
  match acts with
  | [] => O
  | action :: acts' =>
      let child := child_node node action in
      let child := set_f child (path_cost child + h problem (state child) heuristic) in
      if bool_decide (state child ∉ explored) && negb (node_in child frontier)
      then astar_expand_count node explored acts' (heappush Node_lt frontier child)
      else if node_in child frontier
      then (astar_replace_count (length frontier) 0 frontier child
            + astar_expand_count node explored acts'
                (astar_replace (length frontier) 0 frontier child))%nat
      else astar_expand_count node explored acts' frontier
  end.

Fixpoint astar_loop_count (fuel : nat) (frontier : list Node) (explored : gset St)
    : nat :=
  match fuel with
  | O => O
  | S fuel' =>
      match heappop Node_lt frontier with
      | None => O
      | Some (node, frontier) =>
          if is_goal_state problem (state node) then O
          else
            let explored := explored ∪ {[state node]} in
            if bool_decide (depth node ≤ 10)%nat then
              let acts := actions problem (state node) in
              (astar_expand_count node explored acts frontier
               + astar_loop_count fuel' (astar_expand node explored acts frontier)
                   explored)%nat
            else astar_loop_count fuel' frontier explored
      end
  end.

Definition astar_replacements (fuel : nat) : nat :=
  let node := astar_root in
  if is_goal_state problem (state node) then O
  else astar_loop_count fuel (heappush Node_lt [] node) ∅.

End Search.

(** ** Vocabulary of the statements about the solvers *)

Section SearchSpec.

Context {St Act Heur : Type}.
Variable problem : SearchProblem St Act Heur.

(** Re-applying a sequence of actions from a state. *)
Definition run (s : St) (acts : list Act) : St := foldl (result problem) s acts.

(** Every action is one that [actions] offers in the state it is
    applied to. *)
Fixpoint legal (s : St) (acts : list Act) : Prop :=
  match acts with
  | [] => True
  | a :: acts' => a ∈ actions problem s ∧ legal (result problem s a) acts'
  end.

(** An action sequence leading from the start state to a goal state. *)
Definition solves (acts : list Act) : Prop :=
  legal (start problem) acts ∧
  is_goal_state problem (run (start problem) acts) = true.

(** The actions of the non-root nodes of a path. *)
Definition path_actions (nodes : list (@Node St Act)) : list Act :=
  omap action (tail nodes).

(** [Node(problem.start)] *)
Definition root_node : @Node St Act := Node_init (start problem) None None 0.

(** The nodes obtained from the root by [child_node]. *)
Inductive tree_node : @Node St Act → Prop :=
| tree_root : tree_node root_node
| tree_child node a : tree_node node → tree_node (child_node problem node a).

(** A node whose parent chain records a legal walk from the start state:
    each node's state is the result of its action, an action offered in
    the parent's state, and depths count the steps.  The cost fields
    play no part. *)
Inductive valid_node : @Node St Act → Prop :=
| valid_root node :
    parent node = None → action node = None →
    state node = start problem → depth node = 0%nat →
    valid_node node
| valid_child node p a :
    parent node = Some p → action node = Some a →
    a ∈ actions problem (state p) →
    state node = result problem (state p) a →
    depth node = S (depth p) →
    valid_node p →
    valid_node node.

(** The state can be reached from the start state by [k] legal
    actions. *)
Definition reach (k : nat) (s : St) : Prop :=
  ∃ acts, length acts = k ∧ legal (start problem) acts ∧ run (start problem) acts = s.

(** The estimate never exceeds the number of steps of any legal walk
    from the state to a goal state. *)
Definition admissible (heuristic : option Heur) : Prop :=
  ∀ s acts,
    legal s acts → is_goal_state problem (run s acts) = true →
    h problem s heuristic ≤ Z.of_nat (length acts).

(** What holds at the head of the [while frontier] loop of
    [breadth_first_search] while the search works on depth [D]: the
    frontier [F1 ++ F2] holds valid nodes, those of depth [D] before
    those of depth [D + 1]; every state within [D] steps of the start is
    explored or waits in [F1]; the successors of an explored state are
    explored or in the frontier; no goal state is explored or in the
    frontier. *)
Record bfs_inv `{Countable St} (D : nat) (F1 F2 : list (@Node St Act))
    (E : gset St) : Prop := {
  inv_valid : Forall valid_node (F1 ++ F2);
  inv_level : Forall (λ n, depth n = D) F1;
  inv_next : Forall (λ n, depth n = S D) F2;
  inv_below : ∀ j s, (j < D)%nat → reach j s → s ∈ E;
  inv_level_seen : ∀ s, reach D s → s ∈ E ∨ ∃ n, n ∈ F1 ∧ state n = s;
  inv_closed : ∀ s a, s ∈ E → a ∈ actions problem s →
    result problem s a ∈ E ∨ ∃ n, n ∈ F1 ++ F2 ∧ state n = result problem s a;
  inv_explored_not_goal : ∀ s, s ∈ E → is_goal_state problem s = false;
  inv_frontier_not_goal :
    Forall (λ n, is_goal_state problem (state n) = false) (F1 ++ F2)
}.

(** The number of nodes of the search tree below a state, [k] levels
    deep; the weight of a node counts the tree down to depth 11, the
    deepest that a solver generates. *)
Fixpoint subtree_size (k : nat) (s : St) : nat :=
  match k with
  | O => 1
  | S k' => S (sum_list_with (λ a, subtree_size k' (result problem s a)) (actions problem s))
  end.

Definition node_weight (node : @Node St Act) : nat :=
  subtree_size (11 - depth node) (state node).

Definition frontier_weight (frontier : list (@Node St Act)) : nat :=
  sum_list_with node_weight frontier.

(** The states that [k] legal steps lead to, with repetitions, and those
    within [k] steps of the start state. *)
Fixpoint layer (k : nat) : list St :=
  match k with
  | O => [start problem]
  | S k' => s ← layer k'; result problem s <$> actions problem s
  end.

Definition within (k : nat) : list St := j ← seq 0 (S k); layer j.

(** What holds at the head of the [while frontier] loop of
    [astar_search]: the frontier holds valid nodes of depth 11 at most,
    no two of them with the same state, and none with an explored
    state; the explored states lie within 11 steps of the start. *)
Record astar_inv `{Countable St} (frontier : list (@Node St Act))
    (explored : gset St) : Prop := {
  astar_valid : Forall (λ n, valid_node n ∧ (depth n ≤ 11)%nat) frontier;
  astar_distinct : NoDup (state <$> frontier);
  astar_fresh : ∀ n, n ∈ frontier → state n ∉ explored;
  astar_bounded : ∀ s, s ∈ explored → s ∈ within 11
}.

(** The estimate is 0 in a goal state and drops by 1 at most along a
    legal step. *)
Definition consistent (heuristic : option Heur) : Prop :=
  (∀ s, is_goal_state problem s = true → h problem s heuristic = 0) ∧
  ∀ s a, a ∈ actions problem s →
    h problem s heuristic ≤ 1 + h problem (result problem s a) heuristic.

(** The cost fields as [astar_search] fills them in: [path_cost] is the
    depth plus the estimate of the start state, which the root's
    [path_cost] starts from, and below the root [f] is [path_cost] plus
    the estimate. *)
Definition node_costs (heuristic : option Heur) (n : @Node St Act) : Prop :=
  path_cost n = h problem (start problem) heuristic + Z.of_nat (depth n) ∧
  ((0 < depth n)%nat → f n = path_cost n + h problem (state n) heuristic).

(** What holds besides at the head of the [while frontier] loop as long
    as no frontier entry has been replaced: the frontier is a heap on
    [f]; the start state is explored, or the frontier still holds the
    root only; no goal state is explored; and a legal walk of [acts]
    from an explored state that [k] steps reach, [k + len(acts)] being
    11 at most, ends in an explored state or passes, after a prefix [q],
    through the state of a frontier node of depth [k + len(q)] at
    most. *)
Record astar_min_inv `{Countable St} (heuristic : option Heur)
    (frontier : list (@Node St Act)) (explored : gset St) : Prop := {
  min_base : astar_inv frontier explored;
  min_heap : heap_ordered f frontier;
  min_costs : Forall (node_costs heuristic) frontier;
  min_start : start problem ∈ explored ∨ Forall (λ n, depth n = 0%nat) frontier;
  min_not_goal : ∀ s, s ∈ explored → is_goal_state problem s = false;
  min_closed : ∀ s k acts,
    s ∈ explored → reach k s → legal s acts → (k + length acts ≤ 11)%nat →
    run s acts ∈ explored ∨
    ∃ q rest m, acts = q ++ rest ∧ m ∈ frontier ∧
                state m = run s q ∧ (depth m ≤ k + length q)%nat
}.

(** The nodes of a result, none for a result that is not a path. *)
Definition path_of (r : option (@SearchResult St Act)) : list (@Node St Act) :=
  match r with
  | Some (Path nodes) => nodes
  | _ => []
  end.

End SearchSpec.

(** ** N-Queens: class [NQueens] *)

(** [sum] of a list of integers. *)
Definition py_sum (l : list Z) : Z := foldr Z.add 0 l.

(** [range(n)] *)
Definition range (n : Z) : list Z := seqZ 0 n.

(** [sorted(l, key=key)]: Python's sort is stable, which fixes its result;
    insertion after the last item whose key is not larger gives that
    result. *)
Fixpoint insert_by_key {A} (key : A → Z) (x : A) (l : list A) : list A :=
  match l with
  | [] => [x]
  | y :: l' => if bool_decide (key x < key y) then x :: y :: l'
               else y :: insert_by_key key x l'
  end.

Definition sorted {A} (key : A → Z) (l : list A) : list A :=
  foldl (λ acc x, insert_by_key key x acc) [] l.

Module NQueens.

(** The object: [self.N], [self.assignment], [self.cache].  A missing
    key of the [defaultdict] [cache] is a missing key of the [gmap].
    The order in which a [dict] hands out its items is not modelled:
    the loops over [assignment.items()] add up, test every item, or
    collect the list that a random draw is made from. *)
Record t := mk {
  N : Z;
  assignment : gmap Z Z;
  cache : gmap Z (list Z)
}.

(** [__init__]: [rand i] stands for the draw [np.random.randint(0, N)]
    made for variable [i]. *)
Definition init (N : Z) (rand : Z → Z) : t :=
  let assignment : gmap Z Z := list_to_map ((λ i, (i, rand i)) <$> range N) in
  {| N := N; assignment := assignment; cache := (λ v, [v]) <$> assignment |}.

Section Methods.

Variable self : t.

Definition is_complete (assignment : gmap Z Z) : bool :=
  bool_decide (Z.of_nat (size assignment) = N self).

Definition is_conflict (x1 x2 y1 y2 : Z) : bool :=
  let in_same_row := bool_decide (x1 = x2) in
  let in_same_col := bool_decide (y1 = y2) in
  let in_same_diagonal := bool_decide (Z.abs (x1 - x2) = Z.abs (y1 - y2)) in
  in_same_row || in_same_col || in_same_diagonal.

Definition is_consistent (var val : Z) (assignment : gmap Z Z) : bool :=
  forallb (λ '(k, v), negb (bool_decide (k ≠ var) && is_conflict k var v val))
          (map_to_list assignment).

Definition n_conflicts (var val : Z) (assignment : gmap Z Z) : Z :=
  py_sum ((λ '(k, v), if is_conflict var k val v then 1 else 0) <$>
          filter (λ '(k, v), k ≠ var) (map_to_list assignment)).

Definition conflicted_vars (assignment : gmap Z Z) : list Z :=
  fst <$> filter (λ '(k, v), is_consistent k v assignment = false)
                 (map_to_list assignment).

Definition is_solution (assignment : gmap Z Z) : bool :=
  is_complete assignment
  && bool_decide (length (conflicted_vars assignment) = 0%nat).

(** *** Min-conflicts *)

(** The list [values_tried] that [min_conflicts_val] works with and
    stores back into [self.cache[var]]. *)
Definition values_tried (var : Z) : list Z :=
  let values_tried := default [] (cache self !! var) in
  if bool_decide (Z.of_nat (length values_tried) = N self) then []
  else values_tried.

(** One round of the [for val in range(self.N)] loop on the pair
    [(metric, value)]. *)
Definition min_conflicts_round (var : Z) (assignment : gmap Z Z)
    (values_tried : list Z) (acc : Z * Z) (val : Z) : Z * Z :=
  let '(metric, value) := acc in
  if bool_decide (val ∉ values_tried) then
    let num := n_conflicts var val assignment in
    if bool_decide (num ≤ metric) then (num, val) else (metric, value)
  else (metric, value).

(** Returns the chosen value and the object with its updated cache. *)
Definition min_conflicts_val (var : Z) (assignment : gmap Z Z) : Z * t :=
  let metric := N self in
  let value := -1 in
  let values_tried := values_tried var in
  let self' := {| N := N self; assignment := NQueens.assignment self;
                  cache := <[var := values_tried]> (cache self) |} in
  let '(metric, value) :=
    foldl (min_conflicts_round var assignment values_tried)
          (metric, value) (range (N self)) in
  (value, self').

(** *** Backtracking helpers *)

Definition remaining_legal_values (var : Z) (assignment : gmap Z Z) : list Z :=
  filter (λ val, is_consistent var val assignment = true) (range (N self)).

(** One round of the loop over [unassigned[1:]] on the pair
    [(var, val)]. *)
Definition mrv_round (acc kv : Z * list Z) : Z * list Z :=
  let '(var, val) := acc in
  let '(k, v) := kv in
  if bool_decide (length v ≤ length val)%nat then (k, v) else (var, val).

(** [None] is the [IndexError] of [unassigned[0]] on an empty list. *)
Definition mrv_pick (unassigned : list (Z * list Z)) : option (Z * list Z) :=
  match unassigned with
  | [] => None
  | first :: rest => Some (foldl mrv_round first rest)
  end.

Definition select_unassigned_variable (assignment : gmap Z Z)
    : option (Z * list Z) :=
  let unassigned :=
    (λ var, (var, remaining_legal_values var assignment)) <$>
    filter (λ var, assignment !! var = None) (range (N self)) in
  mrv_pick unassigned.

Definition n_choices_ruled_out (var val neighbor : Z)
    (assignment : gmap Z Z) : Z :=
  let legal_values := remaining_legal_values neighbor assignment in
  py_sum ((λ _, 1) <$> filter (λ v, is_conflict var neighbor val v = true) legal_values).

(** The list [neighbors] after the [if]/[elif] of
    [order_domain_values]. *)
Definition neighbors (var : Z) (assignment : gmap Z Z) : list Z :=
  let neighbors := [var - 1; var + 1] in
  if bool_decide (is_Some (assignment !! (var - 1)))
  then default neighbors (py_remove (λ a b, bool_decide (a = b)) (var - 1) neighbors)
  else if bool_decide (is_Some (assignment !! (var + 1)))
  then default neighbors (py_remove (λ a b, bool_decide (a = b)) (var + 1) neighbors)
  else neighbors.

Definition order_domain_values (var : Z) (values : list Z)
    (assignment : gmap Z Z) : list Z :=
  let neighbors := neighbors var assignment in
  let result :=
    (λ val, (val, py_sum ((λ neighbor, n_choices_ruled_out var val neighbor assignment)
                          <$> neighbors))) <$> values in
  fst <$> sorted snd result.

End Methods.

(** *** The solver loop *)

(** [np.random.choice(l)] with the draw [r]: an item of [l], any of
    them for a suitable [r]; [None] is the [ValueError] raised on an
    empty list. *)
Definition choice (l : list Z) (r : nat) : option Z :=
  l !! (r `mod` length l)%nat.

(** The body of the [for n_iter in range(max_steps)] loop after the
    solution check. [current] is [self.assignment] itself, so the
    assignment of [self] is what changes. *)
Definition min_conflicts_step (self : t) (r : nat) : option t :=
  let current := assignment self in
  var ← choice (conflicted_vars current) r;
  let '(val, self) := min_conflicts_val self var current in
  let current := <[var := val]> current in
  Some {| N := N self; assignment := current;
          cache := <[var := default [] (cache self !! var) ++ [val]]> (cache self) |}.

Inductive SolverResult :=
| Solution (current : gmap Z Z)
| Failed.

(** [rnd n_iter] is the draw used by iteration [n_iter]. [None] is an
    exception escaping the loop. *)
Fixpoint min_conflicts_loop (self : t) (rnd : nat → nat) (n_iter : nat)
    (steps : nat) : option (SolverResult * t) :=
  match steps with
  | O => Some (Failed, self)
  | S steps' =>
      if is_solution self (assignment self) then Some (Solution (assignment self), self)
      else
        self ← min_conflicts_step self (rnd n_iter);
        min_conflicts_loop self rnd (S n_iter) steps'
  end.

Definition min_conflicts_solver (self : t) (rnd : nat → nat) (max_steps : nat)
    : option (SolverResult * t) :=
  min_conflicts_loop self rnd 0 max_steps.

(** *** Backtracking

    [backtrack] changes the dict it is given ([assignment[var] = val])
    and then goes on with a copy ([assignment = {**assignment,
    **inferences}]), on which the later [pop] works.  A call therefore
    yields its result together with the content in which it leaves the
    dict it was given.  [inference] always returns the empty dict. *)

(** The dict returned, the string ['failure'], or an exception. *)
Inductive Backtracked :=
| Found (result : gmap Z Z)
| NotFound
| Raised.

(** The [for val in ...] loop.  [current] is the content of the dict
    the name [assignment] is bound to; [own] tells whether that dict is
    a copy made by this call, rather than the dict of the caller, whose
    content is [given]; [bound] tells whether [inferences] has been
    assigned (reading it before is a [NameError]).  [rec] is the
    recursive call. *)
Fixpoint backtrack_values (self : t)
    (rec : gmap Z Z → option (Backtracked * gmap Z Z))
    (var : Z) (values : list Z) (current : gmap Z Z) (own : bool)
    (given : gmap Z Z) (bound : bool) : option (Backtracked * gmap Z Z) :=
  match values with
  | [] => Some (NotFound, given)
  | val :: values' =>
      if is_consistent var val current then
        let current := <[var := val]> current in
        let given := if own then given else current in
        '(result, copy) ← rec current;
        match result with
        | NotFound =>
            backtrack_values self rec var values' (delete var copy) true given true
        | _ => Some (result, given)
        end
      else if bound then
        let current := delete var current in
        let given := if own then given else current in
        backtrack_values self rec var values' current own given bound
      else Some (Raised, if own then given else delete var current)
  end.

(** [None] is the end of the fuel.  [unassigned[0]] raises when no
    variable of [range(N)] is unassigned. *)
Fixpoint backtrack (self : t) (fuel : nat) (assignment : gmap Z Z)
    : option (Backtracked * gmap Z Z) :=
  match fuel with
  | O => None
  | S fuel' =>
      if is_complete self assignment then Some (Found assignment, assignment)
      else
        match select_unassigned_variable self assignment with
        | None => Some (Raised, assignment)
        | Some (var, values) =>
            backtrack_values self (backtrack self fuel') var
              (order_domain_values self var values assignment)
              assignment false assignment false
        end
  end.

End NQueens.

(** ** Vocabulary of the statements about [NQueens] *)

Module NQueensSpec.

Import NQueens.

(** A variable of the problem that the assignment leaves open. *)
Definition unassigned (self : t) (assignment : gmap Z Z) (var : Z) : Prop :=
  0 ≤ var < N self ∧ assignment !! var = None.

(** An unassigned variable with the fewest remaining legal values. *)
Definition mrv (self : t) (assignment : gmap Z Z) (var : Z) : Prop :=
  unassigned self assignment var ∧
  ∀ u, unassigned self assignment u →
    (length (remaining_legal_values self var assignment)
     ≤ length (remaining_legal_values self u assignment))%nat.

(** A value of the domain that [min_conflicts_val] may still try. *)
Definition untried (self : t) (var val : Z) : Prop :=
  0 ≤ val < N self ∧ val ∉ values_tried self var.

(** An untried value with the fewest conflicts. *)
Definition min_conflicts (self : t) (var : Z) (assignment : gmap Z Z) (val : Z) : Prop :=
  untried self var val ∧
  ∀ v, untried self var v → n_conflicts var val assignment ≤ n_conflicts var v assignment.

(** The assignment gives every variable 0..N-1, and nothing else, a
    value in [0, N). *)
Definition complete (self : t) : Prop :=
  (∀ i, 0 ≤ i < N self → ∃ v, assignment self !! i = Some v ∧ 0 ≤ v < N self) ∧
  (∀ i, is_Some (assignment self !! i) → 0 ≤ i < N self).

(** Every list of tried values holds distinct values of the domain. *)
Definition cache_ok (self : t) : Prop :=
  ∀ k l, cache self !! k = Some l → NoDup l ∧ ∀ v, v ∈ l → 0 ≤ v < N self.

(** The states of [min_conflicts_solver] at the head of its loop: the
    initial object, and what an iteration that got past the solution
    check leaves behind, whatever the random draw. *)
Inductive iterates (init : t) : t → Prop :=
| iterates_init : iterates init init
| iterates_step self r self' :
    iterates init self →
    is_solution self (assignment self) = false →
    min_conflicts_step self r = Some self' →
    iterates init self'.

(** The neighbours the specification counts over: those of [var - 1]
    and [var + 1] that are not assigned. *)
Definition unassigned_neighbors (var : Z) (assignment : gmap Z Z) : list Z :=
  filter (λ neighbor, assignment !! neighbor = None) [var - 1; var + 1].

(** [order_domain_values] as the specification words it, for comparison
    with the source's. *)
Definition order_domain_values_spec (self : t) (var : Z) (values : list Z)
    (assignment : gmap Z Z) : list Z :=
  let result :=
    (λ val, (val, py_sum ((λ neighbor, n_choices_ruled_out self var val neighbor assignment)
                          <$> unassigned_neighbors var assignment))) <$> values in
  fst <$> sorted snd result.

End NQueensSpec.

(** ** Concrete instances used in the statements *)

(** The boards of the notebook's test cells. *)
Definition notebook_start : State := [2; 4; 3; 1; 5; 6; 7; 8; 0].
Definition notebook_goal : State := [1; 2; 3; 4; 5; 6; 7; 8; 0].

(** A valid board from which the goal cannot be reached: two tiles of the
    goal are exchanged. *)
Definition swapped_start : State := [1; 2; 3; 4; 5; 6; 8; 7; 0].

(** The notebook's puzzle as the solvers see it, and the node reached from
    its root by moving the blank left, then up. *)
Definition notebook_puzzle : SearchProblem State Action (State → State → option Z) :=
  puzzle_problem notebook_start notebook_goal.
Definition notebook_node : @Node State Action :=
  child_node notebook_puzzle (child_node notebook_puzzle (root_node notebook_puzzle) left) up.

(** The same goal, to be reached from [swapped_start]. *)
Definition swapped_puzzle : SearchProblem State Action (State → State → option Z) :=
  puzzle_problem swapped_start notebook_goal.

(** The empty 4x4 board, and the 4x4 board whose random initialisation
    drew column 0 for every row. *)
Definition empty_board : NQueens.t := NQueens.mk 4 ∅ ∅.
Definition column0_board : NQueens.t := NQueens.init 4 (λ _, 0).

(** The 6x6 board in which rows 2 and 4 are placed and row 3, between
    them, is next. *)
Definition board6 : NQueens.t := NQueens.mk 6 ∅ ∅.
Definition rows_2_4 : gmap Z Z := {[ 2 := 0; 4 := 1 ]}.

(** A graph as a search problem: states are numbered, an action is the
    number of the state it leads to, and [h] hands the state and the goal
    to the estimate it is given, as [Problem.h] does; without one it counts
    the mismatch with the goal. *)
Definition graph_problem (start goal : nat) (successors : nat → list nat)
  : SearchProblem nat nat (nat → nat → Z) :=
  {| start := start;
     actions := successors;
     result state action := action;
     is_goal_state state := bool_decide (goal = state);
     h state func :=
       match func with
       | None => if bool_decide (state ≠ goal) then 1 else 0
       | Some func => func state goal
       end |}.

(** Seven states: from 0 the goal 6 is four steps away through 2 and five
    steps away through 1 and 3; the two routes meet in 4.  The estimate is
    exact in state 2 and zero elsewhere. *)
Definition detour_graph : SearchProblem nat nat (nat → nat → Z) :=
  graph_problem 0 6
    (λ s, match s with
          | 0 => [1; 2] | 1 => [3] | 2 => [4] | 3 => [4] | 4 => [5] | 5 => [6]
          | _ => []
          end%nat).

Definition detour_estimate (state goal : nat) : Z :=
  if bool_decide (state = 2%nat) then 3 else 0.

(** Fifteen states: the goal 14 is five steps from 0 through 8, 3, 1 and
    11, and six steps through 8, 2, 5, 6 and 4. *)
Definition crossing_graph : SearchProblem nat nat (nat → nat → Z) :=
  graph_problem 0 14
    (λ s, match s with
          | 0 => [8] | 1 => [11; 5; 9] | 2 => [5] | 3 => [12; 13; 7; 1]
          | 4 => [14] | 5 => [6] | 6 => [4] | 7 => [10] | 8 => [2; 3]
          | 11 => [14]
          | _ => []
          end%nat).

Definition crossing_estimate (state goal : nat) : Z :=
  match state with
  | 2%nat | 7%nat | 9%nat => 2
  | 5%nat | 10%nat | 11%nat => 1
  | 12%nat | 13%nat => 3
  | _ => 0
  end.

(** No estimate at all: [h] is 0 everywhere, and [astar_search] orders
    the frontier by depth. *)
Definition no_estimate (state goal : State) : option Z := Some 0.

(** The assignment that the notebook prints for [backtrack({})] on the
    8x8 board. *)
Definition notebook_backtracking : gmap Z Z :=
  {[ 6 := 2; 7 := 7; 5 := 0; 2 := 4; 4 := 5; 3 := 1; 1 := 6; 0 := 3 ]}.

(** ** Further vocabulary and instances *)

(** The move that takes a move back. *)
Definition opposite (action : Action) : Action :=
  match action with left => right | right => left | up => down | down => up end.

(** No two queens of the assignment attack each other: they stand in
    different columns and on different diagonals (the keys of a dict
    being different rows). *)
Definition peaceful (assignment : gmap Z Z) : Prop :=
  ∀ k1 v1 k2 v2,
    assignment !! k1 = Some v1 → assignment !! k2 = Some v2 → k1 ≠ k2 →
    v1 ≠ v2 ∧ Z.abs (k1 - k2) ≠ Z.abs (v1 - v2).

(** Every queen of the assignment stands on the NxN board. *)
Definition on_board (N : Z) (assignment : gmap Z Z) : Prop :=
  ∀ k v, assignment !! k = Some v → 0 ≤ k < N ∧ 0 ≤ v < N.

(** The boards one move of the blank to the left away from the notebook's
    start and goal. *)
Definition notebook_start_left : State := [2; 4; 3; 1; 5; 6; 7; 0; 8].
Definition notebook_goal_left : State := [1; 2; 3; 4; 5; 6; 7; 0; 8].

(** A chain of states 0, 1, 2, ... in which the goal 12 is twelve steps
    from the start, one more than the solvers look ahead; and the estimate
    that is 0 everywhere. *)
Definition chain_graph : SearchProblem nat nat (nat → nat → Z) :=
  graph_problem 0 12 (λ s, [S s]).
Definition chain_walk : list nat := seq 1 12.
Definition zero_estimate (state goal : nat) : Z := 0.

(** The empty 2x2 board, which has no solution, and the 4x4 board with a
    queen in row 2, column 0, which the solution 1, 3, 0, 2 extends. *)
Definition board2 : NQueens.t := NQueens.mk 2 ∅ ∅.
Definition row2_column0 : gmap Z Z := {[ 2 := 0 ]}.
Definition queens_1302 : gmap Z Z := {[ 0 := 1; 1 := 3; 2 := 0; 3 := 2 ]}.


(** * Theorems *)

(** ** The notebooks' test cells

    The embedding run on the inputs of the notebooks gives what the
    notebooks print. *)

(** [breadth_first_search(puzzle)]: the path printed, returned in the
    round in which the 117th state is explored. *)
Example breadth_first_search_notebook :
  breadth_first_search notebook_puzzle 116 = None ∧
  path_actions (path_of (breadth_first_search notebook_puzzle 117))
  = [left; up; up; left; down; right; down; right] ∧
  last (state <$> path_of (breadth_first_search notebook_puzzle 117)) = Some notebook_goal.
Proof. split_and!; by vm_compute. Qed.

Example iterative_deepening_search_notebook :
  path_actions (path_of (iterative_deepening_search notebook_puzzle))
  = [left; up; up; left; down; right; down; right].
Proof. by vm_compute. Qed.

(** [astar_search(puzzle, None)]: the path printed, returned when 21
    states have been explored. *)
Example astar_search_notebook :
  astar_search notebook_puzzle None 21 = None ∧
  path_actions (path_of (astar_search notebook_puzzle None 22))
  = [up; left; up; left; down; right; right; down].
Proof. split_and!; by vm_compute. Qed.

(** [astar_search(puzzle, manhattan_distance)]: the same path, after 17
    states. *)
Example astar_search_manhattan_notebook :
  astar_search notebook_puzzle (Some manhattan_distance) 17 = None ∧
  path_actions (path_of (astar_search notebook_puzzle (Some manhattan_distance) 18))
  = [up; left; up; left; down; right; right; down].
Proof. split_and!; by vm_compute. Qed.

(** [nqueens.backtrack({})] on the 8x8 board. *)
Example backtrack_notebook :
  fst <$> NQueens.backtrack (NQueens.mk 8 ∅ ∅) 9 ∅
  = Some (NQueens.Found notebook_backtracking).
Proof. by vm_compute. Qed.

Section SearchFacts.

Context {St Act Heur : Type}.
Variable problem : SearchProblem St Act Heur.

Local Abbreviation root_node := (root_node problem).
Local Abbreviation tree_node := (tree_node problem).
Local Abbreviation run := (run problem).

Lemma Node_parent_ind (P : @Node St Act → Prop) :
  (∀ n, parent n = None → P n) →
  (∀ n p, parent n = Some p → P p → P n) →
  ∀ n, P n.
Proof.
  intros Hroot Hchild. fix IH 1. intros [s [p|] a c d v].
  - apply Hchild with p; [reflexivity | apply IH].
  - apply Hroot. reflexivity.
Qed.

Lemma solution_walk_unfold (n : @Node St Act) :
  solution_walk n = match parent n with Some p => n :: solution_walk p | None => [n] end.
Proof. destruct n; reflexivity. Qed.

Lemma solution_child node a :
  solution (child_node problem node a) = solution node ++ [child_node problem node a].
Proof.
  unfold solution. rewrite (solution_walk_unfold (child_node _ _ _)). simpl.
  by rewrite reverse_cons.
Qed.

Lemma solution_root : solution root_node = [root_node].
Proof. reflexivity. Qed.

Lemma solution_head node : tree_node node → ∃ rest, solution node = root_node :: rest.
Proof.
  induction 1 as [|node a _ [rest IH]].
  - by exists [].
  - exists (rest ++ [child_node problem node a]). by rewrite solution_child, IH.
Qed.

Lemma solution_last (node : @Node St Act) : last (solution node) = Some node.
Proof.
  unfold solution. rewrite last_reverse, solution_walk_unfold. by destruct (parent node).
Qed.

Lemma solution_links (node : @Node St Act) i m :
  solution node !! S i = Some m → parent m = solution node !! i ∧ is_Some (parent m).
Proof.
  revert i m. induction node as [n Hn | n p Hn IH] using Node_parent_ind; intros i m.
  - unfold solution. rewrite solution_walk_unfold, Hn. simpl. by destruct i.
  - assert (solution n = solution p ++ [n]) as ->.
    { unfold solution. by rewrite (solution_walk_unfold n), Hn, reverse_cons. }
    intros Hm. destruct (decide (S i < length (solution p))%nat) as [Hlt|Hge].
    + rewrite lookup_app_l in Hm by done. rewrite lookup_app_l by lia. by apply IH.
    + assert (S i = length (solution p)) as Hi.
      { apply lookup_lt_Some in Hm. rewrite length_app in Hm. simpl in Hm. lia. }
      rewrite Hi in Hm. rewrite list_lookup_middle in Hm by done. injection Hm as <-.
      rewrite Hn. split; [|by eexists]. rewrite lookup_app_l by lia.
      assert (i = pred (length (solution p))) as -> by lia.
      rewrite <- last_lookup. by rewrite solution_last.
Qed.

Lemma path_actions_snoc nodes (n : @Node St Act) a :
  nodes ≠ [] → action n = Some a → path_actions (nodes ++ [n]) = path_actions nodes ++ [a].
Proof.
  intros Hne Ha. unfold path_actions. destruct nodes as [|r nodes]; [done|]. simpl.
  rewrite omap_app. simpl. by rewrite Ha.
Qed.

Lemma solution_nonempty (node : @Node St Act) : solution node ≠ [].
Proof. intros Heq. pose proof (solution_last node) as Hl. by rewrite Heq in Hl. Qed.

Lemma solution_replay node :
  tree_node node → run (start problem) (path_actions (solution node)) = state node.
Proof.
  induction 1 as [|node a _ IH]; [done|].
  rewrite solution_child, (path_actions_snoc _ _ a) by (done || apply solution_nonempty).
  unfold run in *. by rewrite foldl_app, IH.
Qed.

(** C8: for a node of the search tree, [solution] lists the nodes from
    the root (whose action is none) down to the node, each one the child
    of the one before it, and re-applying the actions of the non-root
    nodes from the start state gives back the node's state. *)
Theorem solution_round_trip node :
  tree_node node →
  head (solution node) = Some root_node ∧
  action root_node = None ∧
  last (solution node) = Some node ∧
  (∀ i m, solution node !! S i = Some m → parent m = solution node !! i) ∧
  foldl (result problem) (start problem) (path_actions (solution node)) = state node.
Proof.
  intros Hn. split_and!.
  - destruct (solution_head node Hn) as [rest ->]. done.
  - done.
  - apply solution_last.
  - intros i m Hm. by apply solution_links.
  - by apply solution_replay.
Qed.
End SearchFacts.

Lemma solution_round_trip_witness :
  tree_node notebook_puzzle notebook_node ∧
  head (solution notebook_node) = Some (root_node notebook_puzzle) ∧
  action (root_node notebook_puzzle) = None ∧
  last (solution notebook_node) = Some notebook_node ∧
  (∀ i m, solution notebook_node !! S i = Some m → parent m = solution notebook_node !! i) ∧
  foldl (result notebook_puzzle) (start notebook_puzzle) (path_actions (solution notebook_node))
  = state notebook_node.
Proof.
  assert (tree_node notebook_puzzle notebook_node) as Hnode by (repeat constructor).
  split; [exact Hnode | exact (solution_round_trip notebook_puzzle notebook_node Hnode)].
Defined.

(** ** Valid nodes and the paths they stand for *)

Section ValidNodeFacts.

Context {St Act Heur : Type}.
Variable problem : SearchProblem St Act Heur.

Local Abbreviation valid := (valid_node problem).
Local Abbreviation legal_from := (legal problem).
Local Abbreviation replay := (run problem).

Lemma solution_parent_None (node : @Node St Act) :
  parent node = None → solution node = [node].
Proof. intros Hp. unfold solution. by rewrite solution_walk_unfold, Hp. Qed.

Lemma solution_parent_Some (node p : @Node St Act) :
  parent node = Some p → solution node = solution p ++ [node].
Proof.
  intros Hp. unfold solution. by rewrite (solution_walk_unfold node), Hp, reverse_cons.
Qed.

Lemma legal_snoc s acts a :
  legal_from s (acts ++ [a]) ↔ legal_from s acts ∧ a ∈ actions problem (replay s acts).
Proof.
  revert s. induction acts as [|b acts IH]; intros s; simpl.
  - unfold run. simpl. tauto.
  - rewrite IH. tauto.
Qed.

Lemma run_snoc s acts a : replay s (acts ++ [a]) = result problem (replay s acts) a.
Proof. unfold run. by rewrite foldl_snoc. Qed.

Lemma valid_root_node : valid (root_node problem).
Proof. by apply valid_root. Qed.

Lemma valid_child_node node a :
  valid node → a ∈ actions problem (state node) →
  valid (child_node problem node a).
Proof.
  intros Hnode Ha.
  apply valid_child with (p := node) (a := a); simpl; [done|done|done|done|lia|done].
Qed.

Lemma valid_node_solution node :
  valid node →
  legal_from (start problem) (path_actions (solution node)) ∧
  replay (start problem) (path_actions (solution node)) = state node ∧
  length (path_actions (solution node)) = depth node.
Proof.
  induction 1 as [node Hp Ha Hs Hd | node p a Hp Ha Hin Hs Hd _ (IHl & IHr & IHd)].
  - rewrite (solution_parent_None _ Hp). simpl. by rewrite Hs, Hd.
  - rewrite (solution_parent_Some _ _ Hp).
    rewrite (path_actions_snoc _ _ a) by (done || apply solution_nonempty).
    rewrite legal_snoc, run_snoc, length_app, IHr, IHd, Hs, Hd. simpl.
    split_and!; [done|done|done|lia].
Qed.

Lemma reach_0 s : reach problem 0 s ↔ s = start problem.
Proof.
  split.
  - intros (acts & Hlen & _ & Hrun). destruct acts; [|done]. done.
  - intros ->. by exists [].
Qed.

Lemma reach_S j s :
  reach problem (S j) s ↔
  ∃ s' a, reach problem j s' ∧ a ∈ actions problem s' ∧ s = result problem s' a.
Proof.
  split.
  - intros (acts & Hlen & Hlegal & Hrun).
    destruct acts as [|a acts _] using rev_ind; [done|].
    rewrite length_app in Hlen. simpl in Hlen.
    apply legal_snoc in Hlegal as [Hlegal Ha]. rewrite run_snoc in Hrun.
    exists (run problem (start problem) acts), a. split_and!; [|done|done].
    exists acts. split_and!; [lia|done|done].
  - intros (s' & a & (acts & Hlen & Hlegal & Hrun) & Ha & ->).
    exists (acts ++ [a]). rewrite length_app, legal_snoc, run_snoc, Hrun. simpl.
    split_and!; [lia|done|done|done].
Qed.

Lemma valid_node_reach node :
  valid_node problem node → reach problem (depth node) (state node).
Proof.
  intros (Hlegal & Hrun & Hlen)%valid_node_solution. by eexists.
Qed.

Lemma reach_layer k s : reach problem k s → s ∈ layer problem k.
Proof.
  revert s. induction k as [|k IH]; intros s.
  - intros ->%reach_0. by left.
  - intros (s' & a & Hs' & Ha & ->)%reach_S. simpl.
    apply list_elem_of_bind. exists s'. split; [|by apply IH].
    by apply list_elem_of_fmap_2.
Qed.

Lemma layer_within j k s : (j ≤ k)%nat → s ∈ layer problem j → s ∈ within problem k.
Proof.
  intros Hj Hs. unfold within. apply list_elem_of_bind. exists j.
  split; [done|]. apply elem_of_seq. lia.
Qed.

End ValidNodeFacts.

Section IterativeDeepeningFacts.

Context {St Act Heur : Type}.
Variable problem : SearchProblem St Act Heur.

Lemma ids_loop_all_cutoff (depths : list nat) :
  (∀ d, d ∈ depths → depth_limited_search problem d = Cutoff) →
  ids_loop problem depths = None.
Proof.
  induction depths as [|d depths IH]; intros Hall; [done|].
  simpl. rewrite (Hall d) by left. apply IH. intros d' Hd'. apply Hall. by right.
Qed.

(** When every depth-limited search of the loop answers ['cutoff'], the
    loop of [iterative_deepening_search] ends without a [return]: the
    call yields no result. *)
Lemma iterative_deepening_search_falls_through :
  (∀ limit, (limit < 10)%nat → depth_limited_search problem limit = Cutoff) →
  iterative_deepening_search problem = None.
Proof.
  intros Hall. apply ids_loop_all_cutoff. intros d Hd. apply Hall.
  apply elem_of_seq in Hd. lia.
Qed.

End IterativeDeepeningFacts.

(** C4 (code disagrees): on the solvable-looking but unreachable board
    [swapped_start], every limit 0..9 is cut off, and
    [iterative_deepening_search] hands back no result at all instead of a
    failure. *)
Theorem iterative_deepening_search_swapped_start :
  (∀ limit, (limit < 10)%nat →
     depth_limited_search swapped_puzzle limit = Cutoff) ∧
  iterative_deepening_search swapped_puzzle = None.
Proof.
  assert (∀ limit, (limit < 10)%nat →
     depth_limited_search swapped_puzzle limit = Cutoff) as Hall.
  { intros limit Hlt.
    do 10 (destruct limit as [|limit]; [vm_compute; reflexivity|]). lia. }
  split; [exact Hall|]. by apply iterative_deepening_search_falls_through.
Qed.

(** ** The 8-puzzle moves stay on the board *)

Section ListFacts.

Context {A : Type}.

Lemma insert_head_Permutation (l : list A) j a b :
  l !! j = Some b → b :: <[j:=a]> l ≡ₚ a :: l.
Proof.
  revert j. induction l as [|x l IH]; intros [|j] Hj; simplify_eq/=.
  - apply Permutation_swap.
  - rewrite Permutation_swap, (IH j Hj). apply Permutation_swap.
Qed.

Lemma swap_Permutation (l : list A) i j a b :
  l !! i = Some a → l !! j = Some b → <[j:=a]> (<[i:=b]> l) ≡ₚ l.
Proof.
  revert i j. induction l as [|x l IH]; intros [|i] [|j] Hi Hj; simplify_eq/=.
  - done.
  - by apply insert_head_Permutation.
  - symmetry. rewrite <- (insert_head_Permutation l i b a Hi). done.
  - f_equiv. by apply IH.
Qed.

End ListFacts.

Lemma index_Some x l ix :
  index x l = Some ix → 0 ≤ ix < Z.of_nat (length l) ∧ l !! Z.to_nat ix = Some x.
Proof.
  revert ix. induction l as [|y l IH]; intros ix Hix; simpl in Hix; [done|].
  case_bool_decide as Hy.
  - simplify_eq. simpl. split; [lia|done].
  - destruct (index x l) as [k|] eqn:Hk; simplify_eq/=.
    destruct (IH k eq_refl) as [Hr Hl]. split; [lia|].
    replace (Z.to_nat (Z.succ k)) with (S (Z.to_nat k)) by lia. done.
Qed.

Lemma index_elem_of x l : x ∈ l → is_Some (index x l).
Proof.
  induction 1 as [y l|y z l _ IH]; simpl.
  - rewrite bool_decide_eq_true_2 by done. by eexists.
  - case_bool_decide; [by eexists|]. destruct IH as [k ->]. by eexists.
Qed.

Lemma valid_state_blank state :
  valid_state state →
  length state = 9%nat ∧
  ∃ ix, index 0 state = Some ix ∧ 0 ≤ ix < 9 ∧ state !! Z.to_nat ix = Some 0.
Proof.
  unfold valid_state. intros Hv.
  assert (length state = 9%nat) as Hlen by (by rewrite Hv).
  split; [done|].
  assert (0 ∈ state) as H0 by (rewrite Hv; vm_compute; set_solver).
  destruct (index_elem_of _ _ H0) as [ix Hix]. exists ix.
  destruct (index_Some _ _ _ Hix) as [Hr Hl]. split_and!; (done || lia).
Qed.

Lemma Problem_actions_total state :
  valid_state state → is_Some (Problem.actions state).
Proof.
  intros (Hlen & ix & Hix & Hr & _)%valid_state_blank.
  unfold Problem.actions. rewrite Hix. simpl.
  assert (ix = 0 ∨ ix = 1 ∨ ix = 2 ∨ ix = 3 ∨ ix = 4 ∨ ix = 5 ∨ ix = 6 ∨ ix = 7 ∨ ix = 8)
    as Hcases by lia.
  destruct_or!; subst ix; vm_compute; by eexists.
Qed.

(** The moves that [actions] offers on a valid board, and where they
    lead. *)
Lemma Problem_moves_on_board state :
  valid_state state →
  ∃ acts,
    Problem.actions state = Some acts ∧
    ∀ action, action ∈ acts →
      ∃ ix state',
        Problem.adjacent_ix state action = Some ix ∧ 0 ≤ ix < 9 ∧
        Problem.result state action = Some state' ∧ valid_state state'.
Proof.
  intros Hv. destruct (Problem_actions_total _ Hv) as [acts Hacts].
  exists acts. split; [done|]. intros action Hin.
  destruct (valid_state_blank _ Hv) as (Hlen & ix & Hix & Hr & Hblank).
  assert (0 ≤ ix + Problem.change action < 9) as Hadj.
  { unfold Problem.actions in Hacts. rewrite Hix in Hacts. simpl in Hacts.
    assert (ix = 0 ∨ ix = 1 ∨ ix = 2 ∨ ix = 3 ∨ ix = 4 ∨ ix = 5 ∨ ix = 6 ∨ ix = 7 ∨ ix = 8)
      as Hcases by lia.
    destruct_or!; subst ix; vm_compute in Hacts; simplify_eq;
      repeat (apply elem_of_cons in Hin as [->|Hin]; [simpl; lia|]);
      by apply elem_of_nil in Hin. }
  set (adj := ix + Problem.change action) in *.
  destruct (lookup_lt_is_Some_2 state (Z.to_nat adj)) as [x Hx]; [lia|].
  exists adj, (<[Z.to_nat adj := 0]> (<[Z.to_nat ix := x]> state)).
  assert (∀ k, 0 ≤ k < 9 → ∀ len, len = 9%nat → py_subscript len k = Some (Z.to_nat k)) as Hsub.
  { intros k Hk len ->. unfold py_subscript. by rewrite bool_decide_eq_true_2 by lia. }
  split_and!; [| lia | lia | |].
  - unfold Problem.adjacent_ix. by rewrite Hix.
  - unfold Problem.result. rewrite Hix. simpl. fold adj.
    unfold py_getitem, py_setitem.
    rewrite !Hsub by (done || by rewrite ?length_insert). simpl.
    rewrite Hx. cbn [mbind option_bind]. rewrite Hblank. cbn [mbind option_bind].
    rewrite Hsub by (done || by rewrite ?length_insert). done.
  - unfold valid_state in *. etrans; [|exact Hv].
    by apply swap_Permutation.
Qed.

(** C9: on a valid board [actions] does not fail, and for every action
    that it offers, the index [blank_ix + change[action]] that [result]
    swaps with lies in [0, 9), so [result] does not fail, and the board it
    returns is again a permutation of 0..8. *)
Theorem Problem_result_valid state :
  valid_state state →
  ∃ acts,
    Problem.actions state = Some acts ∧
    ∀ action, action ∈ acts →
      ∃ ix state',
        Problem.adjacent_ix state action = Some ix ∧ 0 ≤ ix < 9 ∧
        Problem.result state action = Some state' ∧ valid_state state'.
Proof. apply Problem_moves_on_board. Qed.

Lemma Problem_result_valid_witness :
  valid_state notebook_start ∧
  ∃ acts,
    Problem.actions notebook_start = Some acts ∧
    ∀ action, action ∈ acts →
      ∃ ix state',
        Problem.adjacent_ix notebook_start action = Some ix ∧ 0 ≤ ix < 9 ∧
        Problem.result notebook_start action = Some state' ∧ valid_state state'.
Proof.
  assert (valid_state notebook_start) as Hv.
  { unfold valid_state. apply (bool_decide_unpack _). vm_compute. exact I. }
  split; [exact Hv | exact (Problem_result_valid notebook_start Hv)].
Defined.

(** The solvers see the class as it is: from a valid start board every
    node of a search holds a valid board, so the interface never falls
    back on the values that stand for an exception of [actions] or
    [result]. *)
Lemma puzzle_problem_nodes_valid start goal node :
  valid_state start →
  valid_node (puzzle_problem start goal) node →
  valid_state (state node) ∧
  ∃ acts, Problem.actions (state node) = Some acts ∧
          actions (puzzle_problem start goal) (state node) = acts ∧
          ∀ action, action ∈ acts →
            Problem.result (state node) action
            = Some (result (puzzle_problem start goal) (state node) action).
Proof.
  intros Hstart Hnode.
  assert (valid_state (state node)) as Hv.
  { induction Hnode as [node _ _ Hs _ | node p a _ _ Hin Hs _ _ IH]; [by rewrite Hs|].
    destruct (Problem_moves_on_board _ IH) as (acts & Hacts & Hmoves).
    simpl in Hin, Hs. rewrite Hacts in Hin. simpl in Hin.
    destruct (Hmoves a Hin) as (ix & state' & _ & _ & Hres & Hv').
    by rewrite Hs, Hres. }
  split; [done|]. destruct (Problem_moves_on_board _ Hv) as (acts & Hacts & Hmoves).
  exists acts. simpl. rewrite Hacts. split_and!; [done|done|].
  intros action Hin. destruct (Hmoves action Hin) as (ix & state' & _ & _ & Hres & _).
  by rewrite Hres.
Qed.

(** ** [heapq] and [list.remove] rearrange, they lose and add nothing *)

Section HeapqFacts.

Context {A : Type} (lt : A → A → bool).

(** Moving the hole: writing [y] where [x] was and [x] where [y] was. *)
Lemma insert_hole_Permutation (heap : list A) pos k x c :
  (pos < length heap)%nat → pos ≠ k → heap !! k = Some c →
  <[k:=x]> (<[pos:=c]> heap) ≡ₚ <[pos:=x]> heap.
Proof.
  intros Hpos Hne Hk.
  rewrite <- (list_insert_insert_eq heap pos c x).
  apply swap_Permutation.
  - by apply list_lookup_insert_eq.
  - by rewrite list_lookup_insert_ne.
Qed.

Lemma siftdown_loop_Permutation fuel heap startpos pos newitem :
  (pos < length heap)%nat →
  siftdown_loop lt fuel heap startpos pos newitem ≡ₚ <[pos:=newitem]> heap.
Proof.
  revert heap pos.
  induction fuel as [|fuel IH]; intros heap pos Hpos; cbn -[Nat.div]; [done|].
  case_bool_decide as Hstart; [|done].
  destruct (heap !! _) as [parent|] eqn:Hparent; [|done].
  destruct (lt newitem parent); [|done].
  assert ((pos - 1) / 2 < pos)%nat as Hlt.
  { apply Nat.Div0.div_lt_upper_bound. lia. }
  rewrite IH by (rewrite length_insert; lia).
  apply insert_hole_Permutation; [done|lia|done].
Qed.

Lemma siftdown_Permutation heap startpos pos : siftdown lt heap startpos pos ≡ₚ heap.
Proof.
  unfold siftdown. destruct (heap !! pos) as [newitem|] eqn:Hpos; [|done].
  rewrite siftdown_loop_Permutation by (by eapply lookup_lt_Some).
  by rewrite list_insert_id.
Qed.

Lemma siftup_loop_Permutation fuel heap pos x :
  (pos < length heap)%nat →
  (<[(siftup_loop lt fuel heap pos).2 := x]> (siftup_loop lt fuel heap pos).1
   ≡ₚ <[pos:=x]> heap).
Proof.
  revert heap pos.
  induction fuel as [|fuel IH]; intros heap pos Hpos; cbn -[Nat.mul]; [done|].
  case_bool_decide as Hchild; [|done].
  repeat case_match; simplify_eq; cbn -[Nat.mul]; try done;
    (rewrite IH by (rewrite length_insert; by eapply lookup_lt_Some);
     apply insert_hole_Permutation; [done|lia|done]).
Qed.

Lemma siftup_Permutation heap pos : siftup lt heap pos ≡ₚ heap.
Proof.
  unfold siftup. destruct (heap !! pos) as [newitem|] eqn:Hpos; [|done].
  pose proof (siftup_loop_Permutation (length heap) heap pos newitem
                (lookup_lt_Some _ _ _ Hpos)) as Hloop.
  destruct (siftup_loop _ _ _ _) as [heap' leaf]. simpl in Hloop.
  by rewrite siftdown_Permutation, Hloop, list_insert_id.
Qed.

Lemma heappush_Permutation heap item : heappush lt heap item ≡ₚ item :: heap.
Proof.
  unfold heappush. rewrite siftdown_Permutation. by rewrite Permutation_app_comm.
Qed.

Lemma heappop_Permutation heap item heap' :
  heappop lt heap = Some (item, heap') → heap ≡ₚ item :: heap'.
Proof.
  unfold heappop. intros Hpop.
  destruct (last heap) as [lastelt|] eqn:Hlast; [|done].
  assert (heap = removelast heap ++ [lastelt]) as Hsplit.
  { destruct heap as [|x heap _] using rev_ind; [done|].
    rewrite last_snoc in Hlast. injection Hlast as ->. by rewrite removelast_last. }
  rewrite Hsplit.
  destruct (removelast heap) as [|returnitem rest]; simplify_eq/=; [done|].
  rewrite siftup_Permutation. simpl. f_equiv. by rewrite Permutation_app_comm.
Qed.

Lemma heappop_None heap : heappop lt heap = None → heap = [].
Proof.
  unfold heappop. destruct heap as [|x heap _] using rev_ind; [done|].
  rewrite last_snoc. by destruct (removelast _).
Qed.

Lemma py_remove_Permutation (eqb : A → A → bool) x l l' :
  py_remove eqb x l = Some l' → ∃ y, eqb y x = true ∧ l ≡ₚ y :: l'.
Proof.
  revert l'. induction l as [|z l IH]; intros l' Hrem; simpl in Hrem; [done|].
  destruct (eqb z x) eqn:Hz; [simplify_eq; by exists z|].
  destruct (py_remove eqb x l) as [l''|]; simplify_eq/=.
  destruct (IH _ eq_refl) as (y & Hy & Hperm). exists y. split; [done|].
  rewrite Hperm. apply Permutation_swap.
Qed.

Lemma py_remove_is_Some (eqb : A → A → bool) x l y :
  y ∈ l → eqb y x = true → is_Some (py_remove eqb x l).
Proof.
  induction 1 as [y l|y z l _ IH]; intros Hy; simpl.
  - rewrite Hy. by eexists.
  - destruct (eqb z x); [by eexists|]. destruct (IH Hy) as [l' ->]. by eexists.
Qed.

(** What holds of every item keeps holding. *)
Context (P : A → Prop).

Lemma heappush_Forall heap item :
  Forall P heap → P item → Forall P (heappush lt heap item).
Proof.
  intros Hheap Hitem. rewrite heappush_Permutation. by apply Forall_cons.
Qed.

Lemma heappop_Forall heap item heap' :
  heappop lt heap = Some (item, heap') →
  Forall P heap → P item ∧ Forall P heap'.
Proof.
  intros Hpop%heappop_Permutation Hheap. rewrite Hpop in Hheap.
  by apply Forall_cons in Hheap.
Qed.

Lemma py_remove_Forall (eqb : A → A → bool) x l l' :
  py_remove eqb x l = Some l' → Forall P l → Forall P l'.
Proof.
  intros (y & _ & Hperm)%py_remove_Permutation Hl. rewrite Hperm in Hl.
  by apply Forall_cons in Hl as [_ Hl].
Qed.

End HeapqFacts.

(** ** [heapq] keeps a heap a heap *)

Section HeapqOrder.

Context {A : Type} (key : A → Z) (lt : A → A → bool).
Hypothesis lt_key : ∀ a b, lt a b = true ↔ key a < key b.

Lemma parent_lt (i : nat) : (0 < i)%nat → ((i - 1) / 2 < i)%nat.
Proof. intros Hi. apply Nat.Div0.div_lt_upper_bound. lia. Qed.

Lemma parent_child (c p : nat) :
  (0 < c)%nat → ((c - 1) / 2)%nat = p ↔ c = (2 * p + 1)%nat ∨ c = (2 * p + 2)%nat.
Proof.
  intros Hc. split.
  - intros <-. pose proof (Nat.div_mod_eq (c - 1) 2) as Hd.
    pose proof (Nat.mod_upper_bound (c - 1) 2 ltac:(lia)). lia.
  - intros [->| ->].
    + replace (2 * p + 1 - 1)%nat with (p * 2)%nat by lia. by rewrite Nat.div_mul.
    + replace (2 * p + 2 - 1)%nat with (1 + p * 2)%nat by lia. by rewrite Nat.div_add.
Qed.

Lemma heap_ordered_root heap x :
  heap_ordered key heap → heap !! 0%nat = Some x →
  ∀ y, y ∈ heap → key x ≤ key y.
Proof.
  intros Hord Hx y (i & Hy)%list_elem_of_lookup_1. revert y Hy.
  induction i as [i IH] using lt_wf_ind. intros y Hy.
  destruct (decide (i = 0%nat)) as [->|Hi]; [simplify_eq; lia|].
  pose proof (parent_lt i ltac:(lia)) as Hlt.
  destruct (lookup_lt_is_Some_2 heap ((i - 1) / 2)%nat) as [z Hz].
  { apply lookup_lt_Some in Hy. lia. }
  specialize (IH _ Hlt z Hz). specialize (Hord i y z ltac:(lia) Hy Hz). lia.
Qed.

Lemma heap_ordered_removelast heap x :
  heap_ordered key (heap ++ [x]) → heap_ordered key heap.
Proof.
  intros Hord i y z Hi Hy Hz. apply (Hord i); [done| |];
    by apply lookup_app_l_Some.
Qed.

Lemma heap_hole_insert heap pos x :
  heap_hole key heap pos → heap_hole key (<[pos:=x]> heap) pos.
Proof.
  intros [Ha Hb]. split.
  - intros i y z Hi Hne Hne' Hy Hz.
    rewrite list_lookup_insert_ne in Hy, Hz by done. by apply (Ha i).
  - intros c y z Hc Hp Hpos Hy Hz. pose proof (parent_lt c Hc). pose proof (parent_lt pos Hpos).
    rewrite list_lookup_insert_ne in Hy, Hz by lia. by apply (Hb c).
Qed.

Ltac split_lookups :=
  repeat match goal with
  | H : <[_:=_]> _ !! _ = Some _ |- _ =>
      apply list_lookup_insert_Some in H as [(? & <- & ?)|[? ?]]
  end.

Ltac by_order H i :=
  apply (H i); solve [done|by symmetry|lia|congruence].

(** Filling the hole of a list that is ordered around it. *)
Lemma heap_hole_fill heap pos newitem :
  heap_hole key heap pos →
  (∀ c x, (0 < c)%nat → ((c - 1) / 2)%nat = pos → heap !! c = Some x →
          key newitem ≤ key x) →
  (∀ parent, (0 < pos)%nat → heap !! ((pos - 1) / 2)%nat = Some parent →
             key parent ≤ key newitem) →
  heap_ordered key (<[pos:=newitem]> heap).
Proof.
  intros [Ha Hb] Hc Hp i x y Hi Hx Hy. pose proof (parent_lt i Hi).
  split_lookups; try lia; try congruence;
    first [by_order Hc i|by_order Ha i|subst i; by apply Hp].
Qed.

(** The [while pos > startpos] loop of [_siftdown] closes the hole. *)
Lemma siftdown_loop_ordered fuel heap pos newitem :
  (pos < length heap)%nat → (pos ≤ fuel)%nat →
  heap_hole key heap pos →
  (∀ c x, (0 < c)%nat → ((c - 1) / 2)%nat = pos → heap !! c = Some x →
          key newitem ≤ key x) →
  heap_ordered key (siftdown_loop lt fuel heap 0 pos newitem).
Proof.
  revert heap pos.
  induction fuel as [|fuel IH]; intros heap pos Hpos Hfuel Hhole Hc.
  { apply heap_hole_fill; [done..|lia]. }
  cbn -[Nat.div]. case_bool_decide as Hstart; [|apply heap_hole_fill; [done..|lia]].
  pose proof (parent_lt pos Hstart) as Hlt.
  destruct (lookup_lt_is_Some_2 heap ((pos - 1) / 2)%nat) as [parent Hparent]; [lia|].
  rewrite Hparent. destruct (lt newitem parent) eqn:Hcmp.
  - apply lt_key in Hcmp. destruct Hhole as [Ha Hb].
    apply IH; [rewrite length_insert; lia|lia| |].
    + split.
      * intros i x y Hi Hne Hne' Hx Hy. pose proof (parent_lt i Hi).
        split_lookups; try lia; try congruence;
          first [by_order Hb i|by_order Ha i].
      * intros c x y Hc0 Hcp Hpos' Hx Hy. pose proof (parent_lt c Hc0).
        pose proof (parent_lt _ Hpos').
        assert (key y ≤ key parent) as Hup.
        { rewrite list_lookup_insert_ne in Hy by lia.
          apply (Ha ((pos - 1) / 2)%nat); try done; lia. }
        split_lookups; try lia.
        trans (key parent); [done|].
        apply (Ha c); try done; try lia. by rewrite Hcp.
    + intros c x Hc0 Hcp Hx. pose proof (parent_lt c Hc0).
      split_lookups; try lia.
      assert (key parent ≤ key x); [|lia].
      apply (Ha c); try done; try lia. by rewrite Hcp.
  - apply heap_hole_fill; [done..|]. intros parent' _ Hparent'.
    assert (parent' = parent) as -> by congruence.
    destruct (decide (key newitem < key parent)) as [Hk|Hk]; [|lia].
    apply lt_key in Hk. congruence.
Qed.

Lemma siftdown_ordered heap pos :
  heap_hole key heap pos →
  (∀ c, (0 < c)%nat → ((c - 1) / 2)%nat = pos → (length heap ≤ c)%nat) →
  heap_ordered key (siftdown lt heap 0 pos).
Proof.
  intros Hhole Hleaf. unfold siftdown.
  destruct (heap !! pos) as [newitem|] eqn:Hpos.
  - apply siftdown_loop_ordered; [by eapply lookup_lt_Some|done|done|].
    intros c x Hc Hcp Hx%lookup_lt_Some. specialize (Hleaf c Hc Hcp). lia.
  - apply lookup_ge_None in Hpos. destruct Hhole as [Ha Hb].
    intros i x y Hi Hx Hy. pose proof (parent_lt i Hi).
    apply lookup_lt_Some in Hx as Hx'. apply lookup_lt_Some in Hy as Hy'.
    apply (Ha i); try done; lia.
Qed.

Lemma heappush_ordered heap item :
  heap_ordered key heap → heap_ordered key (heappush lt heap item).
Proof.
  intros Hord. unfold heappush. rewrite length_app. simpl.
  replace (length heap + 1 - 1)%nat with (length heap) by lia.
  apply siftdown_ordered.
  - split.
    + intros i x y Hi Hne Hne' Hx Hy. pose proof (parent_lt i Hi).
      apply lookup_lt_Some in Hx as Hlen. rewrite length_app in Hlen. simpl in Hlen.
      rewrite lookup_app_l in Hx, Hy by lia. by apply (Hord i).
    + intros c x y Hc Hcp Hpos Hx%lookup_lt_Some Hy. pose proof (parent_lt c Hc).
      rewrite length_app in Hx. simpl in Hx. lia.
  - intros c Hc Hcp. pose proof (parent_lt c Hc). rewrite length_app. simpl. lia.
Qed.

(** The [while childpos < endpos] loop of [_siftup] moves the hole to a
    leaf, the smaller child going up at each round. *)
Lemma siftup_loop_ordered fuel heap pos :
  (pos < length heap)%nat → (length heap - pos ≤ fuel)%nat →
  heap_hole key heap pos →
  let r := siftup_loop lt fuel heap pos in
  heap_hole key r.1 r.2 ∧ length r.1 = length heap ∧
  (r.2 < length heap)%nat ∧ (length heap ≤ 2 * r.2 + 1)%nat.
Proof.
  revert heap pos.
  induction fuel as [|fuel IH]; intros heap pos Hpos Hfuel Hhole; [lia|].
  cbn -[Nat.mul]. case_bool_decide as Hchild; [|simpl; split_and!; [done..|lia]].
  set (pick := match heap !! (2 * pos + 1)%nat with
               | Some c => match heap !! (2 * pos + 1 + 1)%nat with
                           | Some r => if negb (lt c r) then (2 * pos + 1 + 1)%nat
                                       else (2 * pos + 1)%nat
                           | None => (2 * pos + 1)%nat
                           end
               | None => (2 * pos + 1)%nat
               end).
  destruct (lookup_lt_is_Some_2 heap (2 * pos + 1)%nat Hchild) as [c1 Hc1].
  assert (∃ c, heap !! pick = Some c ∧ ((pick - 1) / 2)%nat = pos ∧ (0 < pick)%nat ∧
            ∀ i x, (0 < i)%nat → ((i - 1) / 2)%nat = pos → heap !! i = Some x →
                   key c ≤ key x) as (c & Hc & Hpick & Hpick0 & Hmin).
  { assert (∀ i x, (0 < i)%nat → ((i - 1) / 2)%nat = pos → heap !! i = Some x →
              x = c1 ∨ heap !! (2 * pos + 1 + 1)%nat = Some x) as Hchildren.
    { intros i x Hi Hip Hx. apply parent_child in Hip as [->| ->]; [| |done].
      - left. congruence.
      - right. by replace (2 * pos + 1 + 1)%nat with (2 * pos + 2)%nat by lia. }
    subst pick. rewrite Hc1.
    destruct (heap !! (2 * pos + 1 + 1)%nat) as [c2|] eqn:Hc2.
    - destruct (lt c1 c2) eqn:Hcmp; simpl.
      + apply lt_key in Hcmp. exists c1. split_and!; [done| |lia|].
        { apply parent_child; lia. }
        intros i x Hi Hip Hx.
        destruct (Hchildren i x Hi Hip Hx) as [->|Hx']; simplify_eq; lia.
      + assert (key c2 ≤ key c1) as Hle.
        { destruct (decide (key c1 < key c2)) as [Hk|Hk]; [|lia].
          apply lt_key in Hk. congruence. }
        exists c2. split_and!; [done| |lia|].
        { apply parent_child; lia. }
        intros i x Hi Hip Hx.
        destruct (Hchildren i x Hi Hip Hx) as [->|Hx']; simplify_eq; lia.
    - exists c1. split_and!; [done| |lia|].
      { apply parent_child; lia. }
      intros i x Hi Hip Hx.
      destruct (Hchildren i x Hi Hip Hx) as [->|Hx']; simplify_eq; lia. }
  fold pick. rewrite Hc.
  pose proof (parent_lt pick Hpick0) as Hlt. apply lookup_lt_Some in Hc as Hlen.
  destruct (IH (<[pos:=c]> heap) pick) as (Hhole' & Hlen' & Hleaf & Hleaf').
  { by rewrite length_insert. }
  { rewrite length_insert. lia. }
  { destruct Hhole as [Ha Hb]. split.
    - intros i x y Hi Hne Hne' Hx Hy. pose proof (parent_lt i Hi).
      split_lookups; try lia; try congruence;
        first [by_order Hmin i|by_order Ha i|subst i; by_order Hb pick].
    - intros i x y Hi Hip _ Hx Hy. pose proof (parent_lt i Hi).
      rewrite Hpick in Hy. split_lookups; try lia.
      apply (Ha i); try done; try lia. by rewrite Hip. }
  rewrite length_insert in Hlen', Hleaf, Hleaf'. done.
Qed.

Lemma siftup_ordered heap :
  heap_hole key heap 0 → heap_ordered key (siftup lt heap 0).
Proof.
  intros Hhole. unfold siftup.
  destruct (heap !! 0%nat) as [newitem|] eqn:Hroot.
  - apply lookup_lt_Some in Hroot as Hlen.
    destruct (siftup_loop_ordered (length heap) heap 0 Hlen ltac:(lia) Hhole)
      as (Hhole' & Hlen' & Hleaf & Hleaf').
    destruct (siftup_loop _ _ _ _) as [heap' leaf]. simpl in *.
    apply siftdown_ordered; [by apply heap_hole_insert|].
    intros c Hc Hcp. apply parent_child in Hcp as [->| ->]; [| |done];
      rewrite length_insert; lia.
  - apply lookup_ge_None in Hroot. destruct heap; [|simpl in Hroot; lia].
    by intros i x y _ Hx.
Qed.

Lemma heappop_head heap item heap' :
  heappop lt heap = Some (item, heap') → heap !! 0%nat = Some item.
Proof.
  unfold heappop. destruct heap as [|x heap _] using rev_ind; [done|].
  rewrite last_snoc, removelast_last.
  destruct heap as [|returnitem rest]; intros; by simplify_eq/=.
Qed.

(** [heappop] on an ordered list hands out a smallest item and leaves
    an ordered list. *)
Lemma heappop_ordered heap item heap' :
  heap_ordered key heap → heappop lt heap = Some (item, heap') →
  heap_ordered key heap' ∧ ∀ y, y ∈ heap → key item ≤ key y.
Proof.
  intros Hord Hpop. split; [|by eapply heap_ordered_root, heappop_head].
  revert Hpop. unfold heappop.
  destruct heap as [|lastelt heap _] using rev_ind; [done|].
  rewrite last_snoc, removelast_last. apply heap_ordered_removelast in Hord.
  destruct heap as [|returnitem rest]; simpl; intros [= -> <-].
  { by intros i x y _ Hx. }
  apply siftup_ordered. split; [|lia].
  intros i x y Hi Hne Hne' Hx Hy.
  change (lastelt :: rest) with (<[0%nat:=lastelt]> (item :: rest)) in Hx, Hy.
  rewrite list_lookup_insert_ne in Hx, Hy by done. by apply (Hord i).
Qed.

End HeapqOrder.

(** ** Breadth-first search returns a shortest solution *)

Section BfsFacts.

Context {St Act Heur : Type} `{Countable St}.
Variable problem : SearchProblem St Act Heur.

Local Abbreviation goal s := (is_goal_state problem s).

Lemma node_in_true (child : @Node St Act) frontier :
  node_in child frontier = true ↔ ∃ n, n ∈ frontier ∧ state n = state child.
Proof.
  unfold node_in. rewrite existsb_exists. setoid_rewrite <- list_elem_of_In.
  unfold Node_eq. by setoid_rewrite bool_decide_eq_true.
Qed.

Lemma bfs_expand_inl node E acts F c :
  bfs_expand problem node E acts F = inl c →
  ∃ a, a ∈ acts ∧ c = child_node problem node a ∧ goal (state c) = true.
Proof.
  revert F. induction acts as [|a acts IH]; intros F Hexp; simpl in Hexp; [done|].
  destruct (bool_decide _); simpl in Hexp;
    [destruct (node_in _ F); simpl in Hexp|];
    [|destruct (goal (result problem (state node) a)) eqn:Hgoal|].
  - destruct (IH _ Hexp) as (a' & Ha' & Hc). exists a'. split; [by right|done].
  - injection Hexp as <-. exists a. split_and!; [by left|done|done].
  - destruct (IH _ Hexp) as (a' & Ha' & Hc). exists a'. split; [by right|done].
  - destruct (IH _ Hexp) as (a' & Ha' & Hc). exists a'. split; [by right|done].
Qed.

Lemma bfs_expand_inr node E acts F F' :
  bfs_expand problem node E acts F = inr F' →
  ∃ new, F' = F ++ new ∧
    Forall (λ c, ∃ a, a ∈ acts ∧ c = child_node problem node a ∧
                      goal (state c) = false) new ∧
    ∀ a, a ∈ acts →
      result problem (state node) a ∈ E ∨
      ∃ n, n ∈ F' ∧ state n = result problem (state node) a.
Proof.
  revert F. induction acts as [|a acts IH]; intros F Hexp; simpl in Hexp.
  - injection Hexp as <-. exists []. rewrite app_nil_r.
    split_and!; [done|done|]. by intros a ?%elem_of_nil.
  - destruct (bool_decide _) eqn:Hnew; simpl in Hexp;
      [destruct (node_in _ F) eqn:Hin; simpl in Hexp|].
    + (* already in the frontier *)
      destruct (IH _ Hexp) as (new & -> & Hnew' & Hseen). exists new.
      split_and!; [done| |].
      * eapply Forall_impl; [exact Hnew'|]. intros c (a' & ? & ?). exists a'. split; [by right|done].
      * intros a' [->|Ha']%elem_of_cons; [|by apply Hseen].
        right. apply node_in_true in Hin as (n & Hn & Hst). exists n.
        split; [|done]. apply elem_of_app. by left.
    + (* a new state *)
      destruct (goal (result problem (state node) a)) eqn:Hgoal; [done|].
      destruct (IH _ Hexp) as (new & -> & Hnew' & Hseen).
      exists (child_node problem node a :: new).
      split_and!; [by rewrite <- app_assoc| |].
      * apply Forall_cons. split; [exists a; split_and!; [by left|done|done]|].
        eapply Forall_impl; [exact Hnew'|]. intros c (a' & ? & ?). exists a'. split; [by right|done].
      * intros a' [->|Ha']%elem_of_cons; [|by apply Hseen].
        right. exists (child_node problem node a). split; [|done].
        rewrite <- app_assoc. apply elem_of_app. right. by left.
    + (* already explored *)
      apply bool_decide_eq_false in Hnew.
      assert (state (child_node problem node a) ∈ E) as Hin.
      { destruct (decide (state (child_node problem node a) ∈ E)); [done|contradiction]. }
      destruct (IH _ Hexp) as (new & -> & Hnew' & Hseen). exists new.
      split_and!; [done| |].
      * eapply Forall_impl; [exact Hnew'|]. intros c (a' & ? & ?). exists a'. split; [by right|done].
      * intros a' [->|Ha']%elem_of_cons; [by left|by apply Hseen].
Qed.

Lemma bfs_inv_init :
  goal (start problem) = false → bfs_inv problem 0 [root_node problem] [] ∅.
Proof.
  intros Hgoal. split; simpl.
  - apply Forall_singleton, valid_root_node.
  - by apply Forall_singleton.
  - done.
  - intros j s Hj. lia.
  - intros s ->%reach_0. right. exists (root_node problem). split; [by left|done].
  - intros s a Hs. by apply not_elem_of_empty in Hs.
  - intros s Hs. by apply not_elem_of_empty in Hs.
  - by apply Forall_singleton.
Qed.

Lemma bfs_inv_advance D F2 E :
  bfs_inv problem D [] F2 E → bfs_inv problem (S D) F2 [] E.
Proof.
  intros [Hvalid _ Hnext Hbelow Hseen Hclosed HEgoal HFgoal]. simpl in *.
  split; rewrite ?app_nil_r; try done.
  - intros j s Hj Hreach. destruct (decide (j = D)) as [->|Hne].
    + destruct (Hseen s Hreach) as [Hs|(n & Hn & _)]; [done|]. by apply elem_of_nil in Hn.
    + apply (Hbelow j); [lia|done].
  - intros s (s' & a & Hreach & Ha & ->)%reach_S.
    destruct (Hseen s' Hreach) as [Hs'|(n & Hn & _)]; [|by apply elem_of_nil in Hn].
    by apply Hclosed.
Qed.

(** A solution is at least as long as the level the search works on is
    deep, and longer while a node of that level is still waiting. *)
Lemma bfs_inv_no_short_solution D F1 F2 E k g :
  bfs_inv problem D F1 F2 E → reach problem k g → goal g = true → (D < k)%nat.
Proof.
  intros [Hvalid Hlevel Hnext Hbelow Hseen Hclosed HEgoal HFgoal] Hreach Hgoal.
  destruct (decide (D < k)%nat) as [|Hle]; [done|]. exfalso.
  destruct (decide (k = D)) as [->|Hne].
  - destruct (Hseen g Hreach) as [Hg|(n & Hn & <-)].
    + apply HEgoal in Hg. congruence.
    + rewrite Forall_forall in HFgoal. rewrite HFgoal in Hgoal; [done|].
      apply elem_of_app. by left.
  - assert (g ∈ E) as Hg by (apply (Hbelow k); [lia|done]).
    apply HEgoal in Hg. congruence.
Qed.

Lemma bfs_step D node F1 F2 E :
  bfs_inv problem D (node :: F1) F2 E →
  match bfs_expand problem node (E ∪ {[state node]})
          (actions problem (state node)) (F1 ++ F2) with
  | inl c =>
      valid_node problem c ∧ goal (state c) = true ∧
      ∀ k g, reach problem k g → goal g = true → (depth c ≤ k)%nat
  | inr F' =>
      ∃ new, F' = F1 ++ (F2 ++ new) ∧ bfs_inv problem D F1 (F2 ++ new) (E ∪ {[state node]})
  end.
Proof.
  intros Hinv.
  pose proof Hinv as [Hvalid Hlevel Hnext Hbelow Hseen Hclosed HEgoal HFgoal].
  simpl in Hvalid, HFgoal.
  apply Forall_cons in Hvalid as [Hnode Hvalid].
  apply Forall_cons in Hlevel as [Hdepth Hlevel].
  apply Forall_cons in HFgoal as [Hnodegoal HFgoal].
  destruct (bfs_expand _ _ _ _ _) as [c|F'] eqn:Hexp.
  - apply bfs_expand_inl in Hexp as (a & Ha & -> & Hgoal).
    split_and!; [by apply valid_child_node|done|].
    intros k g Hreach Hg. simpl.
    pose proof (bfs_inv_no_short_solution _ _ _ _ _ _ Hinv Hreach Hg). lia.
  - apply bfs_expand_inr in Hexp as (new & -> & Hnew & Hchildren).
    exists new. split; [by rewrite app_assoc|].
    split.
    + rewrite app_assoc. apply Forall_app. split; [done|].
      eapply Forall_impl; [exact Hnew|]. intros c (a & Ha & -> & _).
      by apply valid_child_node.
    + done.
    + apply Forall_app. split; [done|].
      eapply Forall_impl; [exact Hnew|]. intros c (a & Ha & -> & _). simpl. lia.
    + intros j s Hj Hreach. apply elem_of_union. left. by apply (Hbelow j).
    + intros s Hreach. destruct (Hseen s Hreach) as [Hs|(n & Hn & <-)].
      * left. apply elem_of_union. by left.
      * apply elem_of_cons in Hn as [->|Hn].
        -- left. apply elem_of_union. right. by apply elem_of_singleton.
        -- right. by exists n.
    + intros s a [Hs|Hs%elem_of_singleton]%elem_of_union Ha.
      * destruct (Hclosed s a Hs Ha) as [Hr|(n & Hn & Hst)].
        -- left. apply elem_of_union. by left.
        -- simpl in Hn. apply elem_of_cons in Hn as [->|Hn].
           ++ left. apply elem_of_union. right. by apply elem_of_singleton.
           ++ right. exists n. split; [|done].
              rewrite app_assoc. apply elem_of_app. by left.
      * subst s. destruct (Hchildren a Ha) as [Hr|(n & Hn & Hst)]; [by left|].
        right. exists n. split; [|done]. by rewrite <- app_assoc in Hn.
    + intros s [Hs|Hs%elem_of_singleton]%elem_of_union; [by apply HEgoal|by subst s].
    + rewrite app_assoc. apply Forall_app. split; [done|].
      eapply Forall_impl; [exact Hnew|]. by intros c (a & Ha & -> & Hg).
Qed.

(** Beyond depth 10 nothing is expanded, so nothing is returned. *)
Lemma bfs_loop_deep fuel F E nodes :
  Forall (λ n, 10 < depth n)%nat F →
  bfs_loop problem fuel F E ≠ Some (Path nodes).
Proof.
  revert F E. induction fuel as [|fuel IH]; intros F E Hdeep; simpl; [done|].
  destruct F as [|node F]; [done|]. apply Forall_cons in Hdeep as [Hnode Hdeep].
  rewrite bool_decide_eq_false_2 by lia. by apply IH.
Qed.

Lemma bfs_loop_minimal fuel D F1 F2 E nodes :
  bfs_inv problem D F1 F2 E →
  bfs_loop problem fuel (F1 ++ F2) E = Some (Path nodes) →
  ∃ c, nodes = solution c ∧ valid_node problem c ∧ goal (state c) = true ∧
       ∀ k g, reach problem k g → goal g = true → (depth c ≤ k)%nat.
Proof.
  revert D F1 F2 E. induction fuel as [|fuel IH]; intros D F1 F2 E Hinv Hloop; [done|].
  assert (∃ D' node F1' F2', F1 ++ F2 = node :: F1' ++ F2' ∧
                             bfs_inv problem D' (node :: F1') F2' E)
    as (D' & node & F1' & F2' & Heq & Hinv').
  { destruct F1 as [|node F1].
    - destruct F2 as [|node F2]; [done|].
      exists (S D), node, F2, []. split; [by rewrite app_nil_r|].
      by apply bfs_inv_advance.
    - by exists D, node, F1, F2. }
  rewrite Heq in Hloop. simpl in Hloop.
  pose proof (inv_level _ _ _ _ _ Hinv') as Hlevel.
  apply Forall_cons in Hlevel as [Hdepth Hlevel].
  case_bool_decide as Hcap.
  - pose proof (bfs_step _ _ _ _ _ Hinv') as Hstep.
    destruct (bfs_expand _ _ _ _ _) as [c|F'].
    + injection Hloop as <-. exists c. by destruct Hstep as (? & ? & ?).
    + destruct Hstep as (new & -> & Hinv''). by eapply IH.
  - exfalso. eapply bfs_loop_deep; [|exact Hloop].
    apply Forall_app. split.
    + eapply Forall_impl; [exact Hlevel|]. simpl. intros n Hn. lia.
    + eapply Forall_impl; [exact (inv_next _ _ _ _ _ Hinv')|]. simpl. intros n Hn. lia.
Qed.

(** C2: whenever [breadth_first_search] returns a path, the actions of
    the path lead from the start state to a goal state, and no action
    sequence that does so is shorter. *)
Theorem breadth_first_search_shortest fuel nodes :
  breadth_first_search problem fuel = Some (Path nodes) →
  solves problem (path_actions nodes) ∧
  ∀ acts, solves problem acts → (length (path_actions nodes) ≤ length acts)%nat.
Proof.
  unfold breadth_first_search. simpl. intros Hsearch.
  destruct (goal (start problem)) eqn:Hgoal.
  - injection Hsearch as <-. split; [by split|]. intros acts _. simpl. lia.
  - apply (bfs_loop_minimal fuel 0 [root_node problem] [] ∅) in Hsearch
      as (c & -> & Hvalid & Hc & Hmin); [|by apply bfs_inv_init].
    destruct (valid_node_solution problem c Hvalid) as (Hlegal & Hrun & Hlen).
    split; [split; [done|by rewrite Hrun]|].
    intros acts [Hlegal' Hgoal']. rewrite Hlen.
    apply (Hmin _ (run problem (start problem) acts)); [|done]. by exists acts.
Qed.

End BfsFacts.

Lemma breadth_first_search_shortest_witness :
  breadth_first_search notebook_puzzle 117
  = Some (Path (path_of (breadth_first_search notebook_puzzle 117))) ∧
  solves notebook_puzzle
    (path_actions (path_of (breadth_first_search notebook_puzzle 117))) ∧
  ∀ acts, solves notebook_puzzle acts →
    (length (path_actions
       (path_of (breadth_first_search notebook_puzzle 117)))
     ≤ length acts)%nat.
Proof.
  assert (breadth_first_search notebook_puzzle 117
  = Some (Path (path_of (breadth_first_search notebook_puzzle 117))))
    as Hrun by (vm_compute; reflexivity).
  split; [exact Hrun|].
  exact (breadth_first_search_shortest notebook_puzzle 117 _ Hrun).
Defined.

(** ** Breadth-first search comes to an end *)

Section BfsTermination.

Context {St Act Heur : Type} `{Countable St}.
Variable problem : SearchProblem St Act Heur.

Local Abbreviation weight F := (frontier_weight problem F).

Lemma frontier_weight_app (F1 F2 : list (@Node St Act)) :
  weight (F1 ++ F2) = (weight F1 + weight F2)%nat.
Proof. apply sum_list_with_app. Qed.

Lemma node_weight_child node a :
  (depth node ≤ 10)%nat →
  node_weight problem (child_node problem node a)
  = subtree_size problem (10 - depth node) (result problem (state node) a).
Proof.
  intros Hd. unfold node_weight. simpl. f_equal. lia.
Qed.

Lemma node_weight_expand node :
  (depth node ≤ 10)%nat →
  node_weight problem node
  = S (sum_list_with
         (λ a, subtree_size problem (10 - depth node) (result problem (state node) a))
         (actions problem (state node))).
Proof.
  intros Hd. unfold node_weight.
  replace (11 - depth node)%nat with (S (10 - depth node)) by lia. done.
Qed.

Lemma bfs_expand_weight node E acts F F' :
  (depth node ≤ 10)%nat →
  bfs_expand problem node E acts F = inr F' →
  (weight F' ≤ weight F +
     sum_list_with
       (λ a, subtree_size problem (10 - depth node) (result problem (state node) a))
       acts)%nat.
Proof.
  intros Hd. revert F. induction acts as [|a acts IH]; intros F Hexp; simpl in Hexp.
  - injection Hexp as <-. simpl. lia.
  - csimpl. destruct (_ && _).
    + destruct (is_goal_state problem _); [done|].
      apply IH in Hexp. rewrite frontier_weight_app in Hexp.
      unfold frontier_weight in *. simpl in Hexp.
      rewrite node_weight_child in Hexp by done. simpl. lia.
    + apply IH in Hexp. lia.
Qed.

Lemma bfs_loop_total fuel F E :
  (weight F < fuel)%nat → is_Some (bfs_loop problem fuel F E).
Proof.
  revert F E. induction fuel as [|fuel IH]; intros F E Hfuel; [lia|]. simpl.
  destruct F as [|node F]; [by eexists|].
  unfold frontier_weight in Hfuel. simpl in Hfuel. fold (frontier_weight problem F) in Hfuel.
  case_bool_decide as Hd.
  - destruct (bfs_expand _ _ _ _ _) as [c|F'] eqn:Hexp; [by eexists|].
    apply IH. apply bfs_expand_weight in Hexp; [|done].
    rewrite (node_weight_expand node Hd) in Hfuel. lia.
  - apply IH.
    assert (1 ≤ node_weight problem node)%nat.
    { unfold node_weight. destruct (11 - depth node)%nat; simpl; lia. }
    lia.
Qed.

(** With enough fuel [breadth_first_search] always gives a result, a
    path or the failure: the fuel of the model is no restriction. *)
Lemma breadth_first_search_total :
  ∃ fuel, ∀ fuel', (fuel ≤ fuel')%nat → is_Some (breadth_first_search problem fuel').
Proof.
  exists (S (frontier_weight problem [root_node problem])). intros fuel' Hfuel.
  unfold breadth_first_search. simpl.
  destruct (is_goal_state problem (start problem)); [by eexists|].
  apply bfs_loop_total. fold (root_node problem). lia.
Qed.

End BfsTermination.

(** ** A*: what is returned is a solution *)

Section AstarFacts.

Context {St Act Heur : Type} `{Countable St}.
Variable problem : SearchProblem St Act Heur.
Variable heuristic : option Heur.

(** What the search keeps true of every frontier node. *)
Local Abbreviation sound node := (valid_node problem node ∧ le (depth node) 11).

Lemma valid_node_set_f node v :
  valid_node problem node → valid_node problem (set_f node v).
Proof.
  destruct 1 as [node Hp Ha Hs Hd | node p a Hp Ha Hin Hs Hd Hvp].
  - by apply valid_root.
  - by eapply valid_child.
Qed.

Lemma valid_node_set_path_cost node c :
  valid_node problem node → valid_node problem (set_path_cost node c).
Proof.
  destruct 1 as [node Hp Ha Hs Hd | node p a Hp Ha Hin Hs Hd Hvp].
  - by apply valid_root.
  - by eapply valid_child.
Qed.

Lemma astar_replace_Forall (P : @Node St Act → Prop) fuel i frontier child :
  Forall P frontier → P child → Forall P (astar_replace fuel i frontier child).
Proof.
  revert i frontier. induction fuel as [|fuel IH]; intros i frontier Hfr Hchild; simpl; [done|].
  destruct (frontier !! i) as [el|]; [|done].
  destruct (Node_eq el child && bool_decide (f child < f el)); [|by apply IH].
  apply IH; [|done]. apply heappush_Forall; [|done].
  destruct (py_remove Node_eq el frontier) as [frontier'|] eqn:Hrem; simpl; [|done].
  by eapply py_remove_Forall.
Qed.

Lemma astar_expand_sound node explored acts frontier :
  sound node → (depth node ≤ 10)%nat →
  (∀ a, a ∈ acts → a ∈ actions problem (state node)) →
  Forall (λ n, sound n) frontier →
  Forall (λ n, sound n) (astar_expand problem heuristic node explored acts frontier).
Proof.
  intros [Hnode _] Hdepth. revert frontier.
  induction acts as [|a acts IH]; intros frontier Hacts Hfr; simpl; [done|].
  assert (sound (set_f (child_node problem node a)
                   (path_cost (child_node problem node a)
                    + h problem (state (child_node problem node a)) heuristic))) as Hchild.
  { split; [|simpl; lia]. apply valid_node_set_f, valid_child_node; [done|].
    apply Hacts. by left. }
  assert (∀ a', a' ∈ acts → a' ∈ actions problem (state node)) as Hacts'.
  { intros a' Ha'. apply Hacts. by right. }
  repeat case_match; apply IH; try done.
  - by apply heappush_Forall.
  - by apply astar_replace_Forall.
Qed.

Lemma astar_loop_sound fuel frontier explored nodes :
  Forall (λ n, sound n) frontier →
  astar_loop problem heuristic fuel frontier explored = Some (Path nodes) →
  ∃ node, nodes = solution node ∧ sound node ∧
          is_goal_state problem (state node) = true.
Proof.
  revert frontier explored.
  induction fuel as [|fuel IH]; intros frontier explored Hfr Hloop; simpl in Hloop; [done|].
  destruct (heappop Node_lt frontier) as [[node frontier']|] eqn:Hpop; [|done].
  destruct (heappop_Forall _ _ _ _ _ Hpop Hfr) as [Hnode Hfr'].
  destruct (is_goal_state problem (state node)) eqn:Hgoal.
  - injection Hloop as <-. by exists node.
  - case_bool_decide as Hdepth.
    + eapply IH; [|exact Hloop]. by apply astar_expand_sound.
    + by eapply IH.
Qed.

(** A path that [astar_search] returns is a solution of 11 actions at
    most. *)
Lemma astar_search_returns_solution fuel nodes :
  astar_search problem heuristic fuel = Some (Path nodes) →
  solves problem (path_actions nodes) ∧ (length (path_actions nodes) ≤ 11)%nat.
Proof.
  unfold astar_search. intros Hsearch.
  assert (sound (astar_root problem heuristic)) as Hroot.
  { split; [|simpl; lia]. apply valid_node_set_path_cost, valid_root_node. }
  assert (∃ node, nodes = solution node ∧ sound node ∧
                  is_goal_state problem (state node) = true) as (node & -> & [Hv Hd] & Hgoal).
  { destruct (is_goal_state problem (state (astar_root problem heuristic))) eqn:Hgoal.
    - injection Hsearch as <-. by eexists.
    - eapply astar_loop_sound; [|exact Hsearch].
      apply heappush_Forall; [done|]. exact Hroot. }
  destruct (valid_node_solution problem node Hv) as (Hlegal & Hrun & Hlen).
  split; [split|]; [done|by rewrite Hrun|lia].
Qed.

(** The cost fields of the root that [astar_search] builds. *)
Lemma astar_root_costs :
  path_cost (astar_root problem heuristic) = h problem (start problem) heuristic ∧
  f (astar_root problem heuristic) = 0.
Proof. split; [simpl; lia|done]. Qed.

End AstarFacts.

Lemma consistent_admissible {St Act Heur} (problem : SearchProblem St Act Heur) heuristic :
  consistent problem heuristic → admissible problem heuristic.
Proof.
  intros [Hgoal Hstep] s acts. revert s.
  induction acts as [|a acts IH]; intros s Hlegal Hg; simpl in *.
  - specialize (Hgoal s Hg). lia.
  - destruct Hlegal as [Ha Hlegal]. specialize (Hstep s a Ha).
    specialize (IH _ Hlegal Hg). lia.
Qed.

Lemma detour_estimate_admissible : admissible detour_graph (Some detour_estimate).
Proof.
  intros s acts Hlegal Hgoal. simpl. unfold detour_estimate.
  case_bool_decide as Hs; [subst s|lia].
  destruct acts as [|a1 [|a2 [|a3 acts]]]; simpl in *; [| | |lia].
  - done.
  - destruct Hlegal as [Ha1 _]. apply list_elem_of_singleton in Ha1 as ->. done.
  - destruct Hlegal as (Ha1 & Ha2 & _). apply list_elem_of_singleton in Ha1 as ->.
    simpl in Ha2. apply list_elem_of_singleton in Ha2 as ->. done.
Qed.

(** C1 (as stated) fails: on [detour_graph] the estimate is admissible,
    yet [astar_search] returns the five-step route through 1 and 3 although
    the four-step route through 2 also leads to the goal.  State 4 is
    explored on the long route before state 2 is taken from the frontier,
    and an explored state is not entered again. *)
Lemma astar_search_admissible_not_minimal :
  admissible detour_graph (Some detour_estimate) ∧
  (∃ nodes, astar_search detour_graph (Some detour_estimate) 7 = Some (Path nodes) ∧
            path_actions nodes = [1; 3; 4; 5; 6]%nat) ∧
  solves detour_graph [2; 4; 5; 6]%nat ∧
  ¬ (∀ fuel nodes acts,
       astar_search detour_graph (Some detour_estimate) fuel = Some (Path nodes) →
       solves detour_graph acts →
       (length (path_actions nodes) ≤ length acts)%nat).
Proof.
  assert (solves detour_graph [2; 4; 5; 6]%nat) as Hshort.
  { split; [|done]. simpl. rewrite !list_elem_of_In. simpl. tauto. }
  split_and!; [apply detour_estimate_admissible| |done|].
  - eexists. split; [vm_compute; reflexivity|reflexivity].
  - intros Hclaim.
    specialize (Hclaim 7%nat _ [2; 4; 5; 6]%nat ltac:(vm_compute; reflexivity) Hshort).
    vm_compute in Hclaim. lia.
Qed.

Lemma crossing_estimate_consistent : consistent crossing_graph (Some crossing_estimate).
Proof.
  split.
  - intros s Hs. apply bool_decide_eq_true in Hs as <-. done.
  - intros s a Ha.
    do 15 (destruct s as [|s];
           [simpl in *;
            repeat (apply elem_of_cons in Ha as [->|Ha]; [simpl; lia|]);
            by apply elem_of_nil in Ha|]).
    simpl in Ha. by apply elem_of_nil in Ha.
Qed.

(** A consistent estimate does not make the returned path minimal either.
    On [crossing_graph] the frontier entry of state 5 is replaced by a
    cheaper one; [frontier.remove] shifts the items behind it, the list is
    no longer a heap, and the node of state 11 on the five-step route
    stays hidden below a costlier item until the goal has been popped on
    the six-step route. *)
Lemma astar_search_consistent_not_minimal :
  consistent crossing_graph (Some crossing_estimate) ∧
  (∃ nodes, astar_search crossing_graph (Some crossing_estimate) 12 = Some (Path nodes) ∧
            path_actions nodes = [8; 2; 5; 6; 4; 14]%nat) ∧
  solves crossing_graph [8; 3; 1; 11; 14]%nat.
Proof.
  split_and!; [apply crossing_estimate_consistent| |].
  - eexists. split; [vm_compute; reflexivity|reflexivity].
  - split; [|done]. simpl. rewrite !list_elem_of_In. simpl. tauto.
Qed.

(** C3 (code disagrees): in the notebook's own 8-puzzle run with the
    default heuristic, the root that [astar_search] builds has
    [path_cost] 3, the estimate of the start state, and 0 for [f]; the
    costs along the returned path run from 3 to 11 while its depths run
    from 0 to 8, and only below the root does [f] equal
    [path_cost + h]. *)
Theorem astar_search_root_path_cost :
  path_cost (astar_root notebook_puzzle None) = 3 ∧
  f (astar_root notebook_puzzle None) = 0 ∧
  h notebook_puzzle notebook_start None = 3 ∧
  path_cost <$> path_of (astar_search notebook_puzzle None 22)
  = [3; 4; 5; 6; 7; 8; 9; 10; 11] ∧
  depth <$> path_of (astar_search notebook_puzzle None 22)
  = [0; 1; 2; 3; 4; 5; 6; 7; 8]%nat.
Proof. split_and!; by vm_compute. Qed.

(** ** A* comes to an end *)

Section AstarTermination.

Context {St Act Heur : Type} `{Countable St}.
Variable problem : SearchProblem St Act Heur.
Variable heuristic : option Heur.

Lemma size_list_to_set_le (l : list St) :
  (size (list_to_set (C := gset St) l) ≤ length l)%nat.
Proof.
  induction l as [|x l IH]; [by rewrite list_to_set_nil, size_empty|].
  rewrite list_to_set_cons, size_union_alt, size_singleton. simpl.
  assert (size (list_to_set (C := gset St) l ∖ {[x]}) ≤ size (list_to_set (C := gset St) l))%nat
    as Hle.
  { apply subseteq_size. intros y Hy. by apply elem_of_difference in Hy as [Hy _]. }
  lia.
Qed.

Lemma Node_eq_true (n m : @Node St Act) : Node_eq n m = true ↔ state n = state m.
Proof. unfold Node_eq. apply bool_decide_eq_true. Qed.

Lemma astar_replace_states fuel i frontier (child : @Node St Act) :
  state <$> astar_replace fuel i frontier child ≡ₚ state <$> frontier.
Proof.
  revert i frontier. induction fuel as [|fuel IH]; intros i frontier; simpl; [done|].
  destruct (frontier !! i) as [el|] eqn:Hel; [|done].
  destruct (Node_eq el child && bool_decide (f child < f el)) eqn:Hcond; [|by apply IH].
  apply andb_true_iff in Hcond as [Heq%Node_eq_true _].
  rewrite IH, heappush_Permutation.
  destruct (py_remove_is_Some Node_eq el frontier el) as [frontier' Hrem].
  { by eapply list_elem_of_lookup_2. }
  { by apply Node_eq_true. }
  rewrite Hrem. simpl.
  apply py_remove_Permutation in Hrem as (y & Hy%Node_eq_true & ->).
  csimpl. by rewrite Hy, Heq.
Qed.

Lemma astar_expand_inv node explored acts frontier :
  valid_node problem node → (depth node ≤ 10)%nat →
  (∀ a, a ∈ acts → a ∈ actions problem (state node)) →
  astar_inv problem frontier explored →
  astar_inv problem (astar_expand problem heuristic node explored acts frontier) explored.
Proof.
  intros Hnode Hdepth. revert frontier.
  induction acts as [|a acts IH]; intros frontier Hacts Hinv; [done|].
  assert (∀ a', a' ∈ acts → a' ∈ actions problem (state node)) as Hacts'.
  { intros a' Ha'. apply Hacts. by right. }
  destruct Hinv as [Hvalid Hdistinct Hfresh Hbounded].
  cbn [astar_expand]. set (child := set_f (child_node problem node a) _).
  assert (valid_node problem child ∧ (depth child ≤ 11)%nat) as Hchild.
  { split; [|simpl; lia]. apply valid_node_set_f, valid_child_node; [done|].
    apply Hacts. by left. }
  destruct (bool_decide (state child ∉ explored)) eqn:Hnew;
    [destruct (node_in child frontier) eqn:Hin|]; cbn [andb negb].
  - (* in the frontier: replaced when cheaper *)
    apply IH; [done|]. split.
    + by apply astar_replace_Forall.
    + by rewrite astar_replace_states.
    + intros n Hn.
      assert (Forall (λ n, state n ∉ explored) (astar_replace (length frontier) 0 frontier child))
        as Hall.
      { apply astar_replace_Forall; [by apply Forall_forall|].
        by apply bool_decide_eq_true in Hnew. }
      by rewrite Forall_forall in Hall; apply Hall.
    + done.
  - (* a new state: pushed *)
    apply IH; [done|]. split.
    + by apply heappush_Forall.
    + rewrite heappush_Permutation. csimpl. apply NoDup_cons. split; [|done].
      intros (n & Hst & Hn)%list_elem_of_fmap.
      assert (node_in child frontier = true) as Hin'; [|congruence].
      apply node_in_true. by exists n.
    + intros n Hn. rewrite heappush_Permutation in Hn.
      apply elem_of_cons in Hn as [->|Hn]; [|by apply Hfresh].
      by apply bool_decide_eq_true in Hnew.
    + done.
  - (* explored *)
    destruct (node_in child frontier) eqn:Hin.
    + exfalso. apply node_in_true in Hin as (n & Hn & Hst).
      apply bool_decide_eq_false in Hnew. apply Hnew. rewrite <- Hst. by apply Hfresh.
    + by apply IH.
Qed.

Lemma astar_loop_total fuel frontier explored :
  astar_inv problem frontier explored →
  (length (within problem 11) - size explored < fuel)%nat →
  is_Some (astar_loop problem heuristic fuel frontier explored).
Proof.
  revert frontier explored.
  induction fuel as [|fuel IH]; intros frontier explored Hinv Hfuel; [lia|]. simpl.
  destruct (heappop Node_lt frontier) as [[node frontier']|] eqn:Hpop; [|by eexists].
  destruct (is_goal_state problem (state node)); [by eexists|].
  destruct Hinv as [Hvalid Hdistinct Hfresh Hbounded].
  pose proof (heappop_Permutation _ _ _ _ Hpop) as Hperm.
  rewrite Hperm in Hvalid, Hdistinct. csimpl in Hdistinct.
  apply Forall_cons in Hvalid as [[Hnode Hdepth] Hvalid].
  apply NoDup_cons in Hdistinct as [Hnotin Hdistinct].
  assert (state node ∉ explored) as Hnew.
  { apply Hfresh. rewrite Hperm. by left. }
  assert (state node ∈ within problem 11) as Hwithin.
  { apply (layer_within _ (depth node)); [done|]. by apply reach_layer, valid_node_reach. }
  assert (astar_inv problem frontier' (explored ∪ {[state node]})) as Hinv'.
  { split; [done|done| |].
    - intros n Hn [Hexp|Hst%elem_of_singleton]%elem_of_union.
      + apply (Hfresh n); [|done]. rewrite Hperm. by right.
      + apply Hnotin. rewrite <- Hst. by apply list_elem_of_fmap_2.
    - intros s [Hs|Hs%elem_of_singleton]%elem_of_union; [by apply Hbounded|by subst s]. }
  assert (size (explored ∪ {[state node]}) = S (size explored)) as Hsize.
  { rewrite size_union by set_solver. rewrite size_singleton. lia. }
  assert (size (explored ∪ {[state node]}) ≤ length (within problem 11))%nat as Hle.
  { etrans; [|apply size_list_to_set_le]. apply subseteq_size.
    intros s Hs. apply elem_of_list_to_set. by apply (astar_bounded _ _ _ Hinv'). }
  case_bool_decide.
  - apply IH; [|lia]. by apply astar_expand_inv.
  - apply IH; [done|lia].
Qed.

(** With enough fuel [astar_search] always gives a result, a path or
    the failure. *)
Lemma astar_search_total :
  ∃ fuel, ∀ fuel', (fuel ≤ fuel')%nat →
    is_Some (astar_search problem heuristic fuel').
Proof.
  exists (S (length (within problem 11))). intros fuel' Hfuel.
  unfold astar_search.
  destruct (is_goal_state problem _); [by eexists|].
  apply astar_loop_total; [|rewrite size_empty; lia].
  assert (valid_node problem (astar_root problem heuristic)) as Hroot.
  { apply valid_node_set_path_cost, valid_root_node. }
  split.
  - apply heappush_Forall; [done|]. split; [done|simpl; lia].
  - rewrite heappush_Permutation. csimpl. apply NoDup_singleton.
  - intros n _. apply not_elem_of_empty.
  - intros s Hs. by apply not_elem_of_empty in Hs.
Qed.

End AstarTermination.

(** ** A*: when the path is a shortest one *)

Section AstarMinimal.

Context {St Act Heur : Type} `{Countable St}.
Variable problem : SearchProblem St Act Heur.
Variable heuristic : option Heur.
Hypothesis Hcons : consistent problem heuristic.

Local Abbreviation est s := (h problem s heuristic).

Lemma legal_app s q rest :
  legal problem s (q ++ rest) ↔ legal problem s q ∧ legal problem (run problem s q) rest.
Proof.
  revert s. induction q as [|a q IH]; intros s; simpl; [unfold run; simpl; tauto|].
  rewrite IH. unfold run. simpl. tauto.
Qed.

Lemma run_app s q rest : run problem s (q ++ rest) = run problem (run problem s q) rest.
Proof. apply foldl_app. Qed.

Lemma consistent_walk s acts :
  legal problem s acts → est s ≤ Z.of_nat (length acts) + est (run problem s acts).
Proof.
  destruct Hcons as [_ Hstep]. revert s.
  induction acts as [|a acts IH]; intros s Hlegal; simpl in *; [unfold run; simpl; lia|].
  destruct Hlegal as [Ha Hlegal]. specialize (Hstep s a Ha). specialize (IH _ Hlegal).
  unfold run in *. simpl. lia.
Qed.

Lemma valid_node_depth_0 (n : @Node St Act) :
  valid_node problem n → depth n = 0%nat → state n = start problem.
Proof. destruct 1; [done|lia]. Qed.

Lemma Node_lt_key (a b : @Node St Act) : Node_lt a b = true ↔ f a < f b.
Proof. unfold Node_lt. apply bool_decide_eq_true. Qed.

(** A run of the replacement loop that replaces nothing leaves the
    frontier as it is, and no entry of [child]'s state costs more than
    [child]. *)
Lemma astar_replace_clean fuel i frontier (child : @Node St Act) :
  astar_replace_count fuel i frontier child = 0%nat →
  astar_replace fuel i frontier child = frontier ∧
  ∀ j el, (i ≤ j < i + fuel)%nat → frontier !! j = Some el →
          state el = state child → f el ≤ f child.
Proof.
  revert i. induction fuel as [|fuel IH]; intros i Hcount; simpl in *; [split; [done|lia]|].
  destruct (frontier !! i) as [el|] eqn:Hel.
  - destruct (Node_eq el child && bool_decide (f child < f el)) eqn:Hcond; [done|].
    destruct (IH _ Hcount) as [-> Hrest]. split; [done|].
    intros j el' Hj Hel' Hst.
    destruct (decide (j = i)) as [->|Hne]; [|apply (Hrest j); [lia|done..]].
    simplify_eq. apply andb_false_iff in Hcond as [Hcond|Hcond].
    + apply not_true_iff_false in Hcond. by rewrite Node_eq_true in Hcond.
    + apply bool_decide_eq_false in Hcond. lia.
  - split; [done|]. intros j el Hj Hel' Hst.
    apply lookup_ge_None in Hel. apply lookup_lt_Some in Hel'. lia.
Qed.

Lemma reach_walk k s q :
  reach problem k s → legal problem s q →
  reach problem (k + length q) (run problem s q).
Proof.
  intros (acts & Hlen & Hlegal & Hrun) Hq. exists (acts ++ q).
  rewrite length_app, legal_app, run_app, Hrun, Hlen. done.
Qed.

(** One expansion without a replacement: earlier entries stay, the list
    stays ordered, and every successor is explored or has an entry no
    deeper than the child. *)
Lemma astar_expand_clean node explored acts frontier :
  path_cost node = est (start problem) + Z.of_nat (depth node) →
  heap_ordered f frontier → Forall (node_costs problem heuristic) frontier →
  astar_expand_count problem heuristic node explored acts frontier = 0%nat →
  let frontier' := astar_expand problem heuristic node explored acts frontier in
  heap_ordered f frontier' ∧ Forall (node_costs problem heuristic) frontier' ∧
  (∀ m, m ∈ frontier → m ∈ frontier') ∧
  ∀ a, a ∈ acts →
    result problem (state node) a ∈ explored ∨
    ∃ m, m ∈ frontier' ∧ state m = result problem (state node) a ∧
         (depth m ≤ S (depth node))%nat.
Proof.
  intros Hcost. revert frontier.
  induction acts as [|a acts IH]; intros frontier Hheap Hcosts Hcount.
  { simpl. split_and!; [done..|]. intros a Ha. by apply elem_of_nil in Ha. }
  cbn [astar_expand astar_expand_count] in *.
  set (child := set_f (child_node problem node a) _) in *.
  assert (node_costs problem heuristic child) as Hchild.
  { split; simpl; [lia|done]. }
  destruct (bool_decide (state child ∉ explored)) eqn:Hnew;
    [destruct (node_in child frontier) eqn:Hin|]; cbn [andb negb] in *.
  - (* in the frontier, and not replaced *)
    assert (astar_replace_count (length frontier) 0 frontier child = 0%nat) as Hrep by lia.
    apply astar_replace_clean in Hrep as [Hsame Hle]. rewrite Hsame in *.
    destruct (IH frontier Hheap Hcosts ltac:(lia)) as (Hheap' & Hcosts' & Hkeep & Hsucc).
    split_and!; [done..|]. intros a' [->|Ha']%elem_of_cons; [|by apply Hsucc].
    right. apply node_in_true in Hin as (n & Hn & Hst).
    exists n. split_and!; [by apply Hkeep|done|].
    destruct (decide (depth n = 0%nat)) as [->|Hd]; [lia|].
    apply list_elem_of_lookup_1 in Hn as Hj. destruct Hj as [j Hj].
    specialize (Hle j n ltac:(apply lookup_lt_Some in Hj; lia) Hj Hst).
    rewrite Forall_forall in Hcosts. destruct (Hcosts n Hn) as [Hpc Hf].
    rewrite Hf, Hpc, Hst in Hle by lia. simpl in Hle. lia.
  - (* a new state: pushed *)
    destruct (IH (heappush Node_lt frontier child)) as (Hheap' & Hcosts' & Hkeep & Hsucc).
    { by apply (heappush_ordered f Node_lt Node_lt_key). }
    { by apply heappush_Forall. }
    { done. }
    assert (∀ m, m ∈ child :: frontier → m ∈
              astar_expand problem heuristic node explored acts
                (heappush Node_lt frontier child)) as Hkeep'.
    { intros m Hm. apply Hkeep. by rewrite heappush_Permutation. }
    split_and!; [done|done| |].
    + intros m Hm. apply Hkeep'. by right.
    + intros a' [->|Ha']%elem_of_cons; [|by apply Hsucc].
      right. exists child. split_and!; [apply Hkeep'; by left|done|simpl; lia].
  - (* explored *)
    apply bool_decide_eq_false in Hnew. apply dec_stable in Hnew.
    destruct (node_in child frontier) eqn:Hin.
    + assert (astar_replace_count (length frontier) 0 frontier child = 0%nat) as Hrep by lia.
      apply astar_replace_clean in Hrep as [Hsame _]. rewrite Hsame in *.
      destruct (IH frontier Hheap Hcosts ltac:(lia)) as (Hheap' & Hcosts' & Hkeep & Hsucc).
      split_and!; [done..|]. intros a' [->|Ha']%elem_of_cons; [by left|by apply Hsucc].
    + destruct (IH frontier Hheap Hcosts Hcount) as (Hheap' & Hcosts' & Hkeep & Hsucc).
      split_and!; [done..|]. intros a' [->|Ha']%elem_of_cons; [by left|by apply Hsucc].
Qed.

Lemma astar_pop_inv frontier explored node frontier' :
  astar_inv problem frontier explored →
  heappop Node_lt frontier = Some (node, frontier') →
  astar_inv problem frontier' (explored ∪ {[state node]}) ∧
  valid_node problem node ∧ (depth node ≤ 11)%nat ∧ state node ∉ explored.
Proof.
  intros [Hvalid Hdistinct Hfresh Hbounded] Hpop.
  pose proof (heappop_Permutation _ _ _ _ Hpop) as Hperm.
  rewrite Hperm in Hvalid, Hdistinct. csimpl in Hdistinct.
  apply Forall_cons in Hvalid as [[Hnode Hdepth] Hvalid].
  apply NoDup_cons in Hdistinct as [Hnotin Hdistinct].
  assert (state node ∉ explored) as Hnew.
  { apply Hfresh. rewrite Hperm. by left. }
  split_and!; [|done..]. split; [done|done| |].
  - intros n Hn [Hexp|Hst%elem_of_singleton]%elem_of_union.
    + apply (Hfresh n); [|done]. rewrite Hperm. by right.
    + apply Hnotin. rewrite <- Hst. by apply list_elem_of_fmap_2.
  - intros s [Hs|Hs%elem_of_singleton]%elem_of_union; [by apply Hbounded|].
    subst s. apply (layer_within _ (depth node)); [done|].
    by apply reach_layer, valid_node_reach.
Qed.

(** The node that [heappop] hands out is no deeper than any walk that
    ends in an unexplored state whose estimate is not above the node's. *)
Lemma astar_pop_least frontier explored node frontier' acts :
  astar_min_inv problem heuristic frontier explored →
  heappop Node_lt frontier = Some (node, frontier') →
  legal problem (start problem) acts →
  est (run problem (start problem) acts) ≤ est (state node) →
  run problem (start problem) acts ∉ explored →
  (depth node ≤ length acts)%nat.
Proof.
  intros [Hbase Hheap Hcosts Hstart Hnotgoal Hclosed] Hpop Hlegal Hest Hnew.
  destruct (decide (depth node ≤ length acts)%nat) as [|Hdeep]; [done|]. exfalso.
  pose proof (heappop_Permutation _ _ _ _ Hpop) as Hperm.
  assert (node ∈ frontier) as Hnode by (rewrite Hperm; by left).
  destruct Hbase as [Hvalid _ Hfresh _]. rewrite Forall_forall in Hvalid, Hcosts.
  destruct (Hvalid node Hnode) as [_ Hdepth].
  destruct Hstart as [Hstart|Hroot].
  2: { rewrite Forall_forall in Hroot. specialize (Hroot node Hnode). lia. }
  destruct (Hclosed (start problem) 0%nat acts Hstart) as [Hrun|(q & rest & m & -> & Hm & Hst & Hd)];
    [by apply reach_0|done|lia|done|].
  apply legal_app in Hlegal as [_ Hrest]. rewrite <- Hst in Hrest.
  apply consistent_walk in Hrest. rewrite run_app, <- Hst in Hest.
  rewrite length_app in Hdeep.
  destruct (heappop_ordered f Node_lt Node_lt_key _ _ _ Hheap Hpop) as [_ Hleast].
  specialize (Hleast m Hm).
  destruct (Hvalid m Hm) as [Hmvalid _].
  destruct (decide (depth m = 0%nat)) as [Hroot|Hnonroot].
  { apply (Hfresh m Hm). by rewrite (valid_node_depth_0 m Hmvalid Hroot). }
  destruct (Hcosts m Hm) as [Hpc Hf]. destruct (Hcosts node Hnode) as [Hpc' Hf'].
  rewrite Hf, Hpc, Hf', Hpc' in Hleast by lia. simpl in Hd. lia.
Qed.

(** Taking a node from the frontier and expanding it keeps the
    invariant. *)
Lemma astar_min_step frontier explored node frontier' frontier'' :
  astar_min_inv problem heuristic frontier explored →
  heappop Node_lt frontier = Some (node, frontier') →
  is_goal_state problem (state node) = false →
  astar_inv problem frontier'' (explored ∪ {[state node]}) →
  heap_ordered f frontier'' → Forall (node_costs problem heuristic) frontier'' →
  (∀ m, m ∈ frontier' → m ∈ frontier'') →
  ((depth node ≤ 10)%nat → ∀ a, a ∈ actions problem (state node) →
     result problem (state node) a ∈ explored ∪ {[state node]} ∨
     ∃ m, m ∈ frontier'' ∧ state m = result problem (state node) a ∧
          (depth m ≤ S (depth node))%nat) →
  astar_min_inv problem heuristic frontier'' (explored ∪ {[state node]}).
Proof.
  intros Hinv Hpop Hgoal Hbase' Hheap' Hcosts' Hkeep Hsucc.
  pose proof (heappop_Permutation _ _ _ _ Hpop) as Hperm.
  assert (node ∈ frontier) as Hnode by (rewrite Hperm; by left).
  destruct (astar_pop_inv _ _ _ _ (min_base _ _ _ _ Hinv) Hpop) as (_ & Hvalid & Hdepth & Hfresh).
  assert (∀ k, reach problem k (state node) → (depth node ≤ k)%nat) as Hleast.
  { intros k (acts & <- & Hlegal & Hrun).
    eapply astar_pop_least; [done..| |]; by rewrite Hrun. }
  assert (state node ∈ explored ∪ {[state node]}) as Hself.
  { apply elem_of_union. right. by apply elem_of_singleton. }
  split; [done|done|done| | |].
  - left. destruct (min_start _ _ _ _ Hinv) as [Hstart|Hroot];
      [apply elem_of_union; by left|].
    rewrite Forall_forall in Hroot.
    by rewrite <- (valid_node_depth_0 node Hvalid (Hroot node Hnode)).
  - intros s [Hs|Hs%elem_of_singleton]%elem_of_union; [|by subst s].
    by apply (min_not_goal _ _ _ _ Hinv).
  - intros s k acts. remember (length acts) as len eqn:Hlen. revert s k acts Hlen.
    induction len as [len IH] using lt_wf_ind.
    intros s k acts -> [Hs|Hs%elem_of_singleton]%elem_of_union Hreach Hlegal Hbound.
    + (* an earlier state *)
      destruct (min_closed _ _ _ _ Hinv s k acts Hs Hreach Hlegal Hbound)
        as [Hrun|(q & rest & m & -> & Hm & Hst & Hd)]; 
          [left; apply elem_of_union; by left|].
      rewrite Hperm in Hm. apply elem_of_cons in Hm as [->|Hm].
      2: { right. exists q, rest, m. split_and!; [done|by apply Hkeep|done..]. }
      destruct q as [|a q]; [unfold run in Hst; simpl in Hst; congruence|].
      apply legal_app in Hlegal as [Hq Hrest]. rewrite <- Hst in Hrest.
      pose proof (reach_walk _ _ _ Hreach Hq) as Hreach'. rewrite <- Hst in Hreach'.
      rewrite length_app in Hbound. rewrite length_app in IH.
      destruct (IH (length rest) ltac:(simpl; lia) (state node) _ rest eq_refl
                  Hself Hreach' Hrest ltac:(lia))
        as [Hrun|(q' & rest' & m & -> & Hm & Hst' & Hd')].
      * left. by rewrite run_app, <- Hst.
      * right. exists ((a :: q) ++ q'), rest', m.
        split_and!; [by rewrite <- app_assoc|done|by rewrite run_app, <- Hst|].
        rewrite length_app. lia.
    + (* the state just explored *)
      subst s. destruct acts as [|a acts]; [by left|].
      destruct Hlegal as [Ha Hlegal]. specialize (Hleast k Hreach). simpl in Hbound.
      destruct (Hsucc ltac:(lia) a Ha) as [Hexp|(m & Hm & Hst & Hd)].
      * assert (reach problem (S k) (result problem (state node) a)) as Hreach'.
        { apply reach_S. by exists (state node), a. }
        destruct (IH (length acts) ltac:(simpl; lia) _ _ acts eq_refl Hexp Hreach'
                    Hlegal ltac:(lia))
          as [Hrun|(q' & rest' & m & -> & Hm & Hst' & Hd')]; [by left|].
        right. exists (a :: q'), rest', m. split_and!; [done..|simpl; lia].
      * right. exists [a], acts, m. split_and!; [done..|simpl; lia].
Qed.

Lemma astar_loop_minimal fuel frontier explored nodes :
  astar_min_inv problem heuristic frontier explored →
  astar_loop_count problem heuristic fuel frontier explored = 0%nat →
  astar_loop problem heuristic fuel frontier explored = Some (Path nodes) →
  ∀ acts, solves problem acts → (length (path_actions nodes) ≤ length acts)%nat.
Proof.
  revert frontier explored.
  induction fuel as [|fuel IH]; intros frontier explored Hinv Hcount Hloop; [done|].
  simpl in Hloop, Hcount.
  destruct (heappop Node_lt frontier) as [[node frontier']|] eqn:Hpop; [|done].
  destruct (astar_pop_inv _ _ _ _ (min_base _ _ _ _ Hinv) Hpop)
    as (Hbase' & Hvalid & Hdepth & Hfresh).
  destruct (is_goal_state problem (state node)) eqn:Hgoal.
  - injection Hloop as <-. intros acts [Hlegal Hend].
    destruct (valid_node_solution problem node Hvalid) as (_ & _ & ->).
    eapply astar_pop_least; [done..| |].
    + destruct Hcons as [Hzero _]. rewrite (Hzero _ Hend), (Hzero _ Hgoal). lia.
    + intros Hexp. apply (min_not_goal _ _ _ _ Hinv) in Hexp. congruence.
  - destruct (heappop_ordered f Node_lt Node_lt_key _ _ _ (min_heap _ _ _ _ Hinv) Hpop)
      as [Hheap' _].
    destruct (heappop_Forall _ _ _ _ _ Hpop (min_costs _ _ _ _ Hinv)) as [[Hpc _] Hcosts'].
    case_bool_decide as Hd.
    + destruct (astar_expand_clean node (explored ∪ {[state node]})
                  (actions problem (state node)) frontier' Hpc Hheap' Hcosts' ltac:(lia))
        as (Hheap'' & Hcosts'' & Hkeep & Hsucc).
      eapply IH; [|by apply Nat.eq_add_0 in Hcount as [_ Hcount]|done].
      eapply astar_min_step; [done..|by apply astar_expand_inv|done|done|done|done].
    + eapply IH; [|done..].
      eapply astar_min_step; [done..|]. lia.
Qed.

Lemma astar_search_minimal fuel nodes :
  astar_replacements problem heuristic fuel = 0%nat →
  astar_search problem heuristic fuel = Some (Path nodes) →
  ∀ acts, solves problem acts → (length (path_actions nodes) ≤ length acts)%nat.
Proof.
  unfold astar_replacements, astar_search.
  destruct (is_goal_state problem (state (astar_root problem heuristic))) eqn:Hgoal.
  { intros _ [= <-] acts _. simpl. lia. }
  apply astar_loop_minimal.
  assert (valid_node problem (astar_root problem heuristic)) as Hroot.
  { apply valid_node_set_path_cost, valid_root_node. }
  split.
  - split.
    + apply heappush_Forall; [done|]. split; [done|simpl; lia].
    + rewrite heappush_Permutation. csimpl. apply NoDup_singleton.
    + intros n _. apply not_elem_of_empty.
    + intros s Hs. by apply not_elem_of_empty in Hs.
  - apply (heappush_ordered f Node_lt Node_lt_key). by intros i x y _ Hx.
  - apply heappush_Forall; [done|]. split; simpl; [lia|lia].
  - right. by apply heappush_Forall.
  - intros s Hs. by apply not_elem_of_empty in Hs.
  - intros s k acts Hs. by apply not_elem_of_empty in Hs.
Qed.

End AstarMinimal.

Section AstarPath.

Context {St Act Heur : Type} `{Countable St}.
Variable problem : SearchProblem St Act Heur.
Variable heuristic : option Heur.

(** C1 (as amended): whenever [astar_search] returns a path, re-applying
    the actions of the path from the start state is legal at every step
    and ends in a goal state, and the path has at most 11 actions.  If
    moreover the estimate is consistent and the run has replaced no
    frontier entry, no solution has fewer actions than the path.  (An
    admissible estimate alone does not give that, nor does a consistent
    one in a run with a replacement.) *)
Theorem astar_search_sound_and_minimal fuel nodes :
  astar_search problem heuristic fuel = Some (Path nodes) →
  solves problem (path_actions nodes) ∧
  (length (path_actions nodes) ≤ 11)%nat ∧
  (consistent problem heuristic →
   astar_replacements problem heuristic fuel = 0%nat →
   ∀ acts, solves problem acts → (length (path_actions nodes) ≤ length acts)%nat).
Proof.
  intros Hsearch.
  destruct (astar_search_returns_solution problem heuristic fuel nodes Hsearch)
    as [Hsolves Hlength].
  split_and!; [done|done|]. intros Hcons Hclean.
  by apply (astar_search_minimal problem heuristic Hcons fuel).
Qed.

End AstarPath.

Lemma no_estimate_consistent : consistent notebook_puzzle (Some no_estimate).
Proof. split; [done|]. intros s a _. simpl. lia. Qed.

Lemma astar_search_sound_and_minimal_witness :
  astar_search notebook_puzzle (Some no_estimate) 200
  = Some (Path (path_of (astar_search notebook_puzzle (Some no_estimate) 200))) ∧
  consistent notebook_puzzle (Some no_estimate) ∧
  astar_replacements notebook_puzzle (Some no_estimate) 200 = 0%nat ∧
  solves notebook_puzzle
    (path_actions (path_of (astar_search notebook_puzzle (Some no_estimate) 200))) ∧
  (length (path_actions
     (path_of (astar_search notebook_puzzle (Some no_estimate) 200))) ≤ 11)%nat ∧
  ∀ acts, solves notebook_puzzle acts →
    (length (path_actions
       (path_of (astar_search notebook_puzzle (Some no_estimate) 200))) ≤ length acts)%nat.
Proof.
  assert (astar_search notebook_puzzle (Some no_estimate) 200
  = Some (Path (path_of (astar_search notebook_puzzle (Some no_estimate) 200))))
    as Hrun by (vm_compute; reflexivity).
  assert (astar_replacements notebook_puzzle (Some no_estimate) 200 = 0%nat)
    as Hclean by (vm_compute; reflexivity).
  destruct (astar_search_sound_and_minimal notebook_puzzle (Some no_estimate) 200 _ Hrun)
    as (Hsolves & Hlength & Hleast).
  split_and!; [exact Hrun|exact no_estimate_consistent|exact Hclean|exact Hsolves|
               exact Hlength|exact (Hleast no_estimate_consistent Hclean)].
Defined.

(** The two runs in which the path is not a shortest one: on
    [detour_graph] nothing is replaced but the estimate is not consistent;
    on [crossing_graph] the estimate is consistent and one frontier entry
    is replaced. *)
Example astar_replacements_graphs :
  astar_replacements detour_graph (Some detour_estimate) 7 = 0%nat ∧
  ¬ consistent detour_graph (Some detour_estimate) ∧
  astar_replacements crossing_graph (Some crossing_estimate) 12 = 1%nat.
Proof.
  split_and!; [by vm_compute| |by vm_compute].
  intros [_ Hstep]. specialize (Hstep 2%nat 4%nat). simpl in Hstep.
  unfold detour_estimate in Hstep. simpl in Hstep.
  rewrite list_elem_of_singleton in Hstep. specialize (Hstep eq_refl). lia.
Qed.

(** ** N-Queens: variable selection *)

Section SelectFacts.

Import NQueens NQueensSpec.
Variable self : t.
Variable assignment : gmap Z Z.

Local Abbreviation rlv var := (remaining_legal_values self var assignment).

Lemma mrv_pick_snoc l x :
  mrv_pick (l ++ [x]) =
  Some (match mrv_pick l with None => x | Some r => mrv_round r x end).
Proof. destruct l as [|y l]; [done|]. simpl. by rewrite foldl_snoc. Qed.

(** What the loop has found after the variables below [n]. *)
Lemma mrv_pick_upto (n : nat) :
  match mrv_pick ((λ var, (var, rlv var)) <$>
                  filter (λ var, assignment !! var = None) (seqZ 0 (Z.of_nat n))) with
  | None => ∀ u, 0 ≤ u < Z.of_nat n → is_Some (assignment !! u)
  | Some (var, values) =>
      0 ≤ var < Z.of_nat n ∧ assignment !! var = None ∧ values = rlv var ∧
      ∀ u, 0 ≤ u < Z.of_nat n → assignment !! u = None →
        (length values ≤ length (rlv u))%nat ∧
        (length (rlv u) = length values → u ≤ var)
  end.
Proof.
  induction n as [|n IH].
  - simpl. intros u Hu. lia.
  - rewrite seqZ_S, filter_app, fmap_app, Z.add_0_l.
    rewrite filter_cons, filter_nil.
    destruct (decide (assignment !! Z.of_nat n = None)) as [Hn|Hn].
    + cbn [fmap list_fmap]. rewrite mrv_pick_snoc.
      destruct (mrv_pick _) as [[var values]|]; simpl in *.
      * destruct IH as (Hvar & Hfree & -> & Hmin).
        case_bool_decide as Hle.
        -- refine (conj _ (conj _ (conj _ _))); [lia|done|done|]. intros u Hu Hu'.
           destruct (decide (u = Z.of_nat n)) as [->|Hne]; [split; [lia|lia]|].
           destruct (Hmin u ltac:(lia) Hu') as [H1 H2]. split; lia.
        -- refine (conj _ (conj _ (conj _ _))); [lia|done|done|]. intros u Hu Hu'.
           destruct (decide (u = Z.of_nat n)) as [->|Hne]; [split; lia|].
           destruct (Hmin u ltac:(lia) Hu') as [H1 H2]. split; [lia|]. intros. by apply H2.
      * refine (conj _ (conj _ (conj _ _))); [lia|done|done|]. intros u Hu Hu'.
        destruct (decide (u = Z.of_nat n)) as [->|Hne]; [split; lia|].
        destruct (IH u ltac:(lia)) as [? Hsome]. congruence.
    + rewrite fmap_nil, app_nil_r.
      destruct (mrv_pick _) as [[var values]|]; simpl in *.
      * destruct IH as (Hvar & Hfree & -> & Hmin).
        refine (conj _ (conj _ (conj _ _))); [lia|done|done|]. intros u Hu Hu'.
        destruct (decide (u = Z.of_nat n)) as [->|Hne]; [done|].
        apply Hmin; [lia|done].
      * intros u Hu. destruct (decide (u = Z.of_nat n)) as [->|Hne].
        -- by apply not_eq_None_Some.
        -- apply IH. lia.
Qed.

(** C5 (as amended): when some variable is unassigned,
    [select_unassigned_variable] returns an unassigned variable with the
    fewest remaining legal values, together with those values; among the
    variables that tie for the fewest it is the one with the highest
    id. *)
Theorem select_unassigned_variable_mrv :
  (∃ u, unassigned self assignment u) →
  ∃ var values,
    select_unassigned_variable self assignment = Some (var, values) ∧
    values = remaining_legal_values self var assignment ∧
    mrv self assignment var ∧
    ∀ u, mrv self assignment u → u ≤ var.
Proof.
  intros [u0 [Hu0 Hfree0]].
  pose proof (mrv_pick_upto (Z.to_nat (N self))) as Hpick.
  rewrite Z2Nat.id in Hpick by lia.
  unfold select_unassigned_variable, range.
  destruct (mrv_pick _) as [[var values]|]; simpl in Hpick.
  - destruct Hpick as (Hvar & Hfree & -> & Hmin).
    exists var, (rlv var). split_and!; [done|done| |].
    + split; [done|]. intros u [Hu Hu']. by apply Hmin.
    + intros u [[Hu Hu'] Hleast]. apply Hmin; [done|done|].
      apply Nat.le_antisymm; [by apply Hleast|by apply Hmin].
  - destruct (Hpick u0 Hu0) as [? Hsome]. congruence.
Qed.

End SelectFacts.

Lemma select_unassigned_variable_mrv_witness :
  (∃ u, NQueensSpec.unassigned empty_board ∅ u) ∧
  ∃ var values,
    NQueens.select_unassigned_variable empty_board ∅ = Some (var, values) ∧
    values = NQueens.remaining_legal_values empty_board var ∅ ∧
    NQueensSpec.mrv empty_board ∅ var ∧
    ∀ u, NQueensSpec.mrv empty_board ∅ u → u ≤ var.
Proof.
  assert (∃ u, NQueensSpec.unassigned empty_board ∅ u) as Hex.
  { exists 0. split; [simpl; lia|reflexivity]. }
  split; [exact Hex | exact (select_unassigned_variable_mrv empty_board ∅ Hex)].
Defined.

(** C5 (as stated) fails: on the empty 4x4 board the four variables tie
    with four legal values each, and the variable returned is 3, not 0. *)
Lemma select_unassigned_variable_not_lowest_id :
  NQueens.select_unassigned_variable empty_board ∅ = Some (3, [0; 1; 2; 3]) ∧
  NQueensSpec.unassigned empty_board ∅ 0 ∧
  NQueens.remaining_legal_values empty_board 0 ∅ = [0; 1; 2; 3] ∧
  ¬ (∀ var values,
       NQueens.select_unassigned_variable empty_board ∅ = Some (var, values) →
       ∀ u, NQueensSpec.mrv empty_board ∅ u → var ≤ u).
Proof.
  assert (NQueensSpec.unassigned empty_board ∅ 0) as H0 by (split; [simpl; lia|reflexivity]).
  split_and!; [by vm_compute | done | by vm_compute |].
  intros Hclaim. specialize (Hclaim 3 [0; 1; 2; 3] ltac:(by vm_compute) 0).
  assert (¬ 3 ≤ 0) as Hno by lia. apply Hno, Hclaim.
  split; [done|]. intros u [Hu _]. simpl in Hu.
  assert (u = 0 ∨ u = 1 ∨ u = 2 ∨ u = 3) as Hcases by lia.
  destruct_or!; subst u; vm_compute; lia.
Qed.

(** ** N-Queens: min-conflicts *)

Section MinConflictsFacts.

Import NQueens NQueensSpec.

Lemma py_sum_unit_bound {A} (g : A → Z) (l : list A) :
  (∀ x, 0 ≤ g x ≤ 1) → 0 ≤ py_sum (g <$> l) ≤ Z.of_nat (length l).
Proof.
  intros Hg. unfold py_sum. induction l as [|x l IH]; csimpl; [lia|].
  specialize (Hg x). lia.
Qed.

Lemma n_conflicts_bound var val (assignment : gmap Z Z) :
  0 ≤ n_conflicts var val assignment ≤ Z.of_nat (size assignment).
Proof.
  unfold n_conflicts.
  match goal with
  | |- _ ≤ py_sum (?g <$> ?l) ≤ _ =>
      pose proof (py_sum_unit_bound g l) as Hb;
      assert (length l ≤ size assignment)%nat as Hf
        by (rewrite <- length_map_to_list; apply length_filter)
  end.
  destruct Hb as [Hb1 Hb2]; [|lia].
  intros [k v]. destruct (is_conflict var k val v); lia.
Qed.

Variable self : t.
Variable var : Z.
Variable assignment : gmap Z Z.
Hypothesis Hcomplete : Z.of_nat (size assignment) = N self.

Local Abbreviation tried := (values_tried self var).
Local Abbreviation nc val := (n_conflicts var val assignment).

(** The pair [(metric, value)] after the values below [n]. *)
Lemma min_conflicts_rounds (n : nat) :
  let '(metric, value) :=
    foldl (min_conflicts_round var assignment tried) (N self, (-1)) (seqZ 0 (Z.of_nat n)) in
  (value = (-1) ∧ metric = N self ∧ ∀ v, 0 ≤ v < Z.of_nat n → v ∈ tried) ∨
  (0 ≤ value < Z.of_nat n ∧ (value ∉ tried) ∧ metric = nc value ∧
   ∀ v, 0 ≤ v < Z.of_nat n → v ∉ tried → metric ≤ nc v ∧ (nc v = metric → v ≤ value)).
Proof.
  induction n as [|n IH].
  - simpl. left. split_and!; [done|done|]. intros v Hv. lia.
  - rewrite seqZ_S, foldl_snoc, Z.add_0_l.
    destruct (foldl _ _ _) as [metric value].
    unfold min_conflicts_round. case_bool_decide as Htried.
    + pose proof (n_conflicts_bound var (Z.of_nat n) assignment) as Hb.
      case_bool_decide as Hle.
      * right. refine (conj _ (conj _ (conj _ _))); [lia|done|done|].
        intros v Hv Hv'. destruct (decide (v = Z.of_nat n)) as [->|Hne]; [lia|].
        destruct IH as [(_ & _ & Hall)|(_ & _ & -> & Hmin)].
        -- destruct Hv'. apply Hall. lia.
        -- destruct (Hmin v ltac:(lia) Hv'). lia.
      * destruct IH as [(_ & -> & _)|(Hval & Hnot & -> & Hmin)]; [lia|].
        right. refine (conj _ (conj _ (conj _ _))); [lia|done|done|].
        intros v Hv Hv'. destruct (decide (v = Z.of_nat n)) as [->|Hne]; [lia|].
        destruct (Hmin v ltac:(lia) Hv'). lia.
    + assert (Z.of_nat n ∈ tried) as Hin.
      { destruct (decide (Z.of_nat n ∈ tried)); [done|contradiction]. }
      destruct IH as [(-> & -> & Hall)|(Hval & Hnot & -> & Hmin)].
      * left. split_and!; [done|done|]. intros v Hv.
        destruct (decide (v = Z.of_nat n)) as [->|Hne]; [done|]. apply Hall. lia.
      * right. refine (conj _ (conj _ (conj _ _))); [lia|done|done|].
        intros v Hv Hv'. destruct (decide (v = Z.of_nat n)) as [->|Hne]; [done|].
        apply Hmin; [lia|done].
Qed.

(** The value returned by [min_conflicts_val] on a complete assignment
    when some value is left to try. *)
Lemma min_conflicts_val_last_minimum :
  (∃ v, untried self var v) →
  ∃ val,
    min_conflicts_val self var assignment =
      (val, NQueens.mk (N self) (NQueens.assignment self) (<[var := tried]> (cache self))) ∧
    min_conflicts self var assignment val ∧
    ∀ v, min_conflicts self var assignment v → v ≤ val.
Proof.
  intros [v0 [Hv0 Hnot0]].
  pose proof (min_conflicts_rounds (Z.to_nat (N self))) as Hrounds.
  rewrite Z2Nat.id in Hrounds by lia.
  unfold min_conflicts_val, range.
  destruct (foldl _ _ _) as [metric value].
  destruct Hrounds as [(_ & _ & Hall)|(Hval & Hnot & -> & Hmin)].
  - destruct Hnot0. by apply Hall.
  - exists value. split_and!; [done| |].
    + split; [done|]. intros v [Hv Hv']. by apply Hmin.
    + intros v [[Hv Hv'] Hleast]. apply Hmin; [done|done|].
      apply Z.le_antisymm; [by apply Hleast|by apply Hmin].
Qed.

(** C7 (as amended): on a complete assignment, [min_conflicts_val]
    returns, among the values of [0, N) that are not in [var]'s list of
    tried values (the list being taken as empty when it holds [N]
    items), one with the fewest conflicts against the rest of the
    assignment; among the values that tie for the fewest it is the last
    met in ascending order, the largest. *)
Theorem min_conflicts_val_largest_minimum :
  (∃ v, untried self var v) →
  ∃ val,
    (min_conflicts_val self var assignment).1 = val ∧
    min_conflicts self var assignment val ∧
    ∀ v, min_conflicts self var assignment v → v ≤ val.
Proof.
  intros Hex. destruct (min_conflicts_val_last_minimum Hex) as (val & Heq & Hmin & Hlast).
  exists val. by rewrite Heq.
Qed.

End MinConflictsFacts.

Lemma min_conflicts_val_largest_minimum_witness :
  Z.of_nat (size (NQueens.assignment column0_board)) = NQueens.N column0_board ∧
  (∃ v, NQueensSpec.untried column0_board 0 v) ∧
  ∃ val,
    (NQueens.min_conflicts_val column0_board 0 (NQueens.assignment column0_board)).1 = val ∧
    NQueensSpec.min_conflicts column0_board 0 (NQueens.assignment column0_board) val ∧
    ∀ v, NQueensSpec.min_conflicts column0_board 0 (NQueens.assignment column0_board) v → v ≤ val.
Proof.
  assert (Z.of_nat (size (NQueens.assignment column0_board)) = NQueens.N column0_board)
    as Hsize by (vm_compute; reflexivity).
  assert (∃ v, NQueensSpec.untried column0_board 0 v) as Hex.
  { exists 1. split; [simpl; lia|]. vm_compute. by intros [?|?%elem_of_nil]%elem_of_cons. }
  split; [exact Hsize|]. split; [exact Hex|].
  exact (min_conflicts_val_largest_minimum column0_board 0 _ Hsize Hex).
Defined.

(** C7 (as stated) fails: with every queen in column 0, the values 1, 2
    and 3 of row 0 tie with one conflict each, and the value returned is
    3, not 1. *)
Lemma min_conflicts_val_not_smallest :
  (NQueens.min_conflicts_val column0_board 0 (NQueens.assignment column0_board)).1 = 3 ∧
  NQueensSpec.min_conflicts column0_board 0 (NQueens.assignment column0_board) 1 ∧
  NQueens.n_conflicts 0 1 (NQueens.assignment column0_board)
  = NQueens.n_conflicts 0 3 (NQueens.assignment column0_board).
Proof.
  split_and!; [by vm_compute| |by vm_compute].
  assert (NQueens.values_tried column0_board 0 = [0]) as Htried by (by vm_compute).
  split.
  - split; [simpl; lia|]. rewrite Htried. by intros ?%list_elem_of_singleton.
  - intros v [Hv Hnot]. rewrite Htried in Hnot. simpl in Hv.
    assert (v = 1 ∨ v = 2 ∨ v = 3) as Hcases.
    { destruct (decide (v = 0)) as [->|]; [|lia]. destruct Hnot. by apply list_elem_of_singleton. }
    destruct_or!; subst v; by vm_compute.
Qed.

(** ** N-Queens: the solver loop keeps the assignment complete *)

Section SolverFacts.

Import NQueens NQueensSpec.

Lemma init_lookup N rand i v :
  assignment (init N rand) !! i = Some v ↔ 0 ≤ i < N ∧ v = rand i.
Proof.
  unfold init, range. simpl.
  rewrite <- elem_of_list_to_map.
  - rewrite list_elem_of_fmap. setoid_rewrite elem_of_seqZ.
    split; [intros (j & [= -> ->] & Hj); split; [lia|done]|].
    intros [Hi ->]. exists i. split; [done|lia].
  - assert (∀ l : list Z, ((λ i, (i, rand i)) <$> l).*1 = l) as ->.
    { induction l as [|x l IH]; csimpl; congruence. }
    apply NoDup_seqZ.
Qed.

Lemma init_complete N rand :
  (∀ i, 0 ≤ i < N → 0 ≤ rand i < N) → complete (init N rand).
Proof.
  intros Hrand. split.
  - intros i Hi. exists (rand i). split; [|by apply Hrand]. by apply init_lookup.
  - intros i [v Hv]. by apply init_lookup in Hv as [Hi _].
Qed.

Lemma init_cache_ok N rand :
  (∀ i, 0 ≤ i < N → 0 ≤ rand i < N) → cache_ok (init N rand).
Proof.
  intros Hrand k l Hl. unfold init in Hl. simpl in Hl.
  rewrite lookup_fmap in Hl.
  destruct (list_to_map _ !! k) as [v|] eqn:Hv; simplify_eq/=.
  apply (init_lookup N rand) in Hv as [Hk ->].
  split; [apply NoDup_singleton|]. intros v ->%list_elem_of_singleton. by apply Hrand.
Qed.

Lemma complete_size self :
  0 ≤ N self → complete self → Z.of_nat (size (assignment self)) = N self.
Proof.
  intros HN [Hall Hdom].
  assert (dom (assignment self) = list_to_set (C := gset Z) (seqZ 0 (N self))) as Hd.
  { apply set_eq. intros i. rewrite elem_of_dom, elem_of_list_to_set, elem_of_seqZ.
    split; [intros Hi%Hdom; lia|]. intros Hi. destruct (Hall i) as (v & -> & _); [lia|done]. }
  assert (size (dom (assignment self)) = size (assignment self)) as <- by apply size_dom.
  rewrite Hd, size_list_to_set by apply NoDup_seqZ.
  rewrite length_seqZ. lia.
Qed.

Lemma conflicted_vars_assigned (assignment : gmap Z Z) var :
  var ∈ conflicted_vars assignment → is_Some (assignment !! var).
Proof.
  unfold conflicted_vars. intros ([k v] & -> & Hin)%list_elem_of_fmap.
  apply list_elem_of_filter in Hin as [_ Hin]. apply elem_of_map_to_list in Hin.
  by eexists.
Qed.

Lemma choice_elem_of l r : l ≠ [] → ∃ x, choice l r = Some x ∧ x ∈ l.
Proof.
  intros Hne. unfold choice.
  destruct (lookup_lt_is_Some_2 l (r `mod` length l)%nat) as [x Hx].
  - apply Nat.mod_upper_bound. by destruct l.
  - exists x. split; [done|]. by eapply list_elem_of_lookup_2.
Qed.

Lemma not_solution_conflicted self :
  0 ≤ N self → complete self →
  is_solution self (assignment self) = false →
  conflicted_vars (assignment self) ≠ [].
Proof.
  intros HN Hc Hsol Hnil. unfold is_solution, is_complete in Hsol.
  rewrite bool_decide_eq_true_2 in Hsol by (by apply complete_size).
  rewrite Hnil in Hsol. done.
Qed.

(** Distinct values of the domain, fewer than [N] of them, leave one
    out. *)
Lemma untried_exists self var :
  cache_ok self → 0 < N self → ∃ v, untried self var v.
Proof.
  intros Hcache HN. unfold untried, values_tried.
  case_bool_decide as Hlen.
  - exists 0. split; [lia|]. apply not_elem_of_nil.
  - destruct (cache self !! var) as [l|] eqn:Hl; simpl in *.
    + destruct (Hcache _ _ Hl) as [Hnd Hrange].
      destruct (decide (Forall (λ v, v ∈ l) (seqZ 0 (N self)))) as [Hall|Hnot].
      * assert (seqZ 0 (N self) ⊆+ l) as Hsub.
        { apply NoDup_submseteq; [apply NoDup_seqZ|]. by apply Forall_forall. }
        assert (l ⊆+ seqZ 0 (N self)) as Hsub'.
        { apply NoDup_submseteq; [done|]. intros v Hv. apply elem_of_seqZ.
          specialize (Hrange v Hv). lia. }
        apply submseteq_length in Hsub, Hsub'. rewrite length_seqZ in Hsub, Hsub'. lia.
      * apply not_Forall_Exists in Hnot; [|apply _].
        apply Exists_exists in Hnot as (v & Hv & Hnv). exists v.
        apply elem_of_seqZ in Hv. split; [lia|done].
    + exists 0. split; [lia|]. apply not_elem_of_nil.
Qed.

Lemma values_tried_ok self var :
  cache_ok self →
  NoDup (values_tried self var) ∧ ∀ v, v ∈ values_tried self var → 0 ≤ v < N self.
Proof.
  intros Hcache. unfold values_tried. case_bool_decide.
  - split; [apply NoDup_nil_2|]. by intros v ?%not_elem_of_nil.
  - destruct (cache self !! var) as [l|] eqn:Hl; simpl.
    + by apply (Hcache var).
    + split; [apply NoDup_nil_2|]. by intros v ?%not_elem_of_nil.
Qed.

(** One iteration past the solution check. *)
Lemma min_conflicts_step_ok self r :
  0 ≤ N self → complete self → cache_ok self →
  is_solution self (assignment self) = false →
  conflicted_vars (assignment self) ≠ [] ∧
  (∀ var, var ∈ conflicted_vars (assignment self) →
     0 ≤ (min_conflicts_val self var (assignment self)).1 < N self) ∧
  ∃ self', min_conflicts_step self r = Some self' ∧
           N self' = N self ∧ complete self' ∧ cache_ok self'.
Proof.
  intros HN Hc Hcache Hsol.
  pose proof (not_solution_conflicted self HN Hc Hsol) as Hne.
  pose proof (complete_size self HN Hc) as Hsize.
  assert (∀ var, var ∈ conflicted_vars (assignment self) →
    ∃ val, min_conflicts_val self var (assignment self) =
             (val, mk (N self) (assignment self) (<[var := values_tried self var]> (cache self))) ∧
           0 ≤ val < N self ∧ (val ∉ values_tried self var) ∧ 0 ≤ var < N self) as Hval.
  { intros var Hvar. apply conflicted_vars_assigned in Hvar.
    destruct Hc as [_ Hdom]. specialize (Hdom var Hvar).
    destruct (min_conflicts_val_last_minimum self var (assignment self) Hsize)
      as (val & Heq & [[Hrange Hnot] _] & _).
    { apply untried_exists; [done|lia]. }
    exists val. done. }
  split; [done|]. split.
  { intros var Hvar. destruct (Hval var Hvar) as (val & -> & Hrange & _). done. }
  destruct (choice_elem_of _ r Hne) as (var & Hchoice & Hvar).
  destruct (Hval var Hvar) as (val & Heq & Hrange & Hnot & Hvarr).
  unfold min_conflicts_step. rewrite Hchoice. simpl. rewrite Heq. simpl.
  eexists. split; [done|]. simpl. split; [done|]. split.
  - destruct Hc as [Hall Hdom]. split; simpl.
    + intros i Hi. destruct (decide (i = var)) as [->|Hne'].
      * exists val. by rewrite lookup_insert_eq.
      * rewrite lookup_insert_ne by done. by apply Hall.
    + intros i. destruct (decide (i = var)) as [->|Hne']; [done|].
      rewrite lookup_insert_ne by done. apply Hdom.
  - intros k l. simpl. destruct (decide (k = var)) as [->|Hne'].
    + rewrite !lookup_insert_eq. simpl. intros [= <-].
      destruct (values_tried_ok self var Hcache) as [Hnd Hr].
      split.
      * apply NoDup_app. split_and!; [done| |apply NoDup_singleton].
        intros v Hv ->%list_elem_of_singleton. done.
      * intros v [Hv| ->%list_elem_of_singleton]%elem_of_app; [by apply Hr|done].
    + rewrite !lookup_insert_ne by done. apply Hcache.
Qed.

Lemma iterates_invariant N rand self :
  0 ≤ N → (∀ i, 0 ≤ i < N → 0 ≤ rand i < N) →
  iterates (init N rand) self →
  NQueens.N self = N ∧ complete self ∧ cache_ok self.
Proof.
  intros HN Hrand. induction 1 as [|self r self' _ (HNs & Hc & Hcache) Hsol Hstep].
  - split_and!; [done|by apply init_complete|by apply init_cache_ok].
  - destruct (min_conflicts_step_ok self r) as (_ & _ & s & Hs & HN' & Hc' & Hcache');
      [lia|done|done|done|].
    rewrite Hstep in Hs. injection Hs as <-. split_and!; [congruence|done|done].
Qed.

(** C10: throughout [min_conflicts_solver] the assignment stays
    complete, every variable 0..N-1 having a value in [0, N); so an
    iteration that gets past the solution check finds a non-empty list
    of conflicted variables, and [min_conflicts_val] gives it a value in
    [0, N) for whichever of them is drawn, never -1. *)
Theorem min_conflicts_solver_complete N rand self :
  0 ≤ N → (∀ i, 0 ≤ i < N → 0 ≤ rand i < N) →
  iterates (init N rand) self →
  complete self ∧
  (is_solution self (assignment self) = false →
   conflicted_vars (assignment self) ≠ [] ∧
   ∀ var, var ∈ conflicted_vars (assignment self) →
     0 ≤ (min_conflicts_val self var (assignment self)).1 < NQueens.N self).
Proof.
  intros HN Hrand Hit.
  destruct (iterates_invariant N rand self HN Hrand Hit) as (HNs & Hc & Hcache).
  split; [done|]. intros Hsol.
  destruct (min_conflicts_step_ok self 0%nat) as (Hne & Hval & _); [lia|done|done|done|].
  done.
Qed.

(** The loop itself never raises: every run ends with a solution or
    with the failure message. *)
Lemma min_conflicts_loop_total self rnd n_iter steps :
  0 ≤ NQueens.N self → complete self → cache_ok self →
  is_Some (min_conflicts_loop self rnd n_iter steps).
Proof.
  revert self n_iter. induction steps as [|steps IH]; intros self n_iter HN Hc Hcache; simpl.
  - by eexists.
  - destruct (is_solution self (assignment self)) eqn:Hsol; [by eexists|].
    destruct (min_conflicts_step_ok self (rnd n_iter) HN Hc Hcache Hsol)
      as (_ & _ & s & -> & HN' & Hc' & Hcache').
    simpl. apply IH; [lia|done|done].
Qed.

Lemma min_conflicts_solver_total N rand rnd max_steps :
  0 ≤ N → (∀ i, 0 ≤ i < N → 0 ≤ rand i < N) →
  is_Some (min_conflicts_solver (init N rand) rnd max_steps).
Proof.
  intros HN Hrand. apply min_conflicts_loop_total;
    [done|by apply init_complete|by apply init_cache_ok].
Qed.

End SolverFacts.

Lemma min_conflicts_solver_complete_witness :
  0 ≤ 4 ∧ (∀ i : Z, 0 ≤ i < 4 → 0 ≤ 0 < 4) ∧
  NQueensSpec.iterates column0_board
    (default column0_board (NQueens.min_conflicts_step column0_board 0)) ∧
  NQueensSpec.complete (default column0_board (NQueens.min_conflicts_step column0_board 0)) ∧
  (NQueens.is_solution (default column0_board (NQueens.min_conflicts_step column0_board 0))
     (NQueens.assignment (default column0_board (NQueens.min_conflicts_step column0_board 0)))
   = false →
   NQueens.conflicted_vars
     (NQueens.assignment (default column0_board (NQueens.min_conflicts_step column0_board 0))) ≠ [] ∧
   ∀ var,
     var ∈ NQueens.conflicted_vars
       (NQueens.assignment (default column0_board (NQueens.min_conflicts_step column0_board 0))) →
     0 ≤ (NQueens.min_conflicts_val
            (default column0_board (NQueens.min_conflicts_step column0_board 0)) var
            (NQueens.assignment (default column0_board (NQueens.min_conflicts_step column0_board 0)))).1
       < NQueens.N (default column0_board (NQueens.min_conflicts_step column0_board 0))).
Proof.
  assert (0 ≤ 4) as HN by lia.
  assert (∀ i : Z, 0 ≤ i < 4 → 0 ≤ 0 < 4) as Hrand by (intros; lia).
  assert (NQueensSpec.iterates column0_board
            (default column0_board (NQueens.min_conflicts_step column0_board 0))) as Hit.
  { destruct (NQueens.min_conflicts_step column0_board 0) as [s|] eqn:Hstep; simpl.
    - eapply NQueensSpec.iterates_step; [constructor|by vm_compute|exact Hstep].
    - constructor. }
  split; [exact HN|]. split; [exact Hrand|]. split; [exact Hit|].
  exact (min_conflicts_solver_complete 4 (λ _, 0) _ HN Hrand Hit).
Defined.

(** ** N-Queens: value ordering *)

(** Closes a goal by a hypothesis that takes [None] for [Some] or the
    other way round. *)
Ltac option_absurd :=
  match goal with
  | H : is_Some None |- _ => by apply is_Some_None in H
  | H : is_Some None ∧ _ |- _ => destruct H as [H _]; by apply is_Some_None in H
  | H : _ ∧ is_Some None |- _ => destruct H as [_ H]; by apply is_Some_None in H
  | H : ¬ is_Some (Some _) |- _ => destruct H; by eexists
  | H : ¬ (is_Some (Some _) ∧ is_Some (Some _)) |- _ => destruct H; split; by eexists
  | H : Some _ = None |- _ => discriminate H
  | H : ¬ (None = None) |- _ => by destruct H
  end.

Section OrderFacts.

Import NQueens NQueensSpec.

(** The neighbour list of the source is the specification's unless both
    neighbours are assigned; then the source keeps [var + 1]. *)
Lemma neighbors_spec var (assignment : gmap Z Z) :
  neighbors var assignment =
  if bool_decide (is_Some (assignment !! (var - 1)) ∧ is_Some (assignment !! (var + 1)))
  then [var + 1]
  else unassigned_neighbors var assignment.
Proof.
  unfold neighbors, unassigned_neighbors.
  rewrite !filter_cons, filter_nil. simpl.
  destruct (assignment !! (var - 1)) as [x|], (assignment !! (var + 1)) as [y|];
    repeat (case_bool_decide || case_decide);
    try done; try lia; exfalso; option_absurd.
Qed.

Lemma order_domain_values_agrees self var values (assignment : gmap Z Z) :
  ¬ (is_Some (assignment !! (var - 1)) ∧ is_Some (assignment !! (var + 1))) →
  order_domain_values self var values assignment
  = order_domain_values_spec self var values assignment.
Proof.
  intros Hnot. unfold order_domain_values, order_domain_values_spec.
  rewrite neighbors_spec. by rewrite bool_decide_eq_false_2.
Qed.

End OrderFacts.

(** C6 (code disagrees): with rows 2 and 4 placed on the 6x6 board, the
    neighbour list for row 3 still holds the assigned row 4; the counts
    are taken over it, and the values come back in another order than the
    one obtained when no assigned neighbour is counted. *)
Theorem order_domain_values_counts_assigned_neighbor :
  NQueens.remaining_legal_values board6 3 rows_2_4 = [3; 4; 5] ∧
  NQueens.neighbors 3 rows_2_4 = [4] ∧ rows_2_4 !! 4 = Some 1 ∧
  NQueensSpec.unassigned_neighbors 3 rows_2_4 = [] ∧
  NQueens.order_domain_values board6 3 [3; 4; 5] rows_2_4 = [3; 5; 4] ∧
  NQueensSpec.order_domain_values_spec board6 3 [3; 4; 5] rows_2_4 = [3; 4; 5].
Proof. split_and!; by vm_compute. Qed.

(** ** The 8-puzzle: moves, heuristics *)

Section PuzzleFacts.

Lemma valid_state_NoDup state : valid_state state → NoDup state.
Proof. unfold valid_state. intros ->. apply NoDup_seqZ. Qed.

Lemma index_NoDup (l : list Z) (i : nat) x :
  NoDup l → l !! i = Some x → index x l = Some (Z.of_nat i).
Proof.
  revert i. induction l as [|y l IH]; intros i Hnd Hi; [done|].
  apply NoDup_cons in Hnd as [Hy Hnd]. simpl. destruct i as [|i]; simpl in Hi.
  - simplify_eq. by rewrite bool_decide_eq_true_2.
  - rewrite bool_decide_eq_false_2.
    + rewrite (IH i Hnd Hi). simpl. f_equal. lia.
    + intros ->. apply Hy. by eapply list_elem_of_lookup_2.
Qed.

Lemma index_None x l : index x l = None ↔ x ∉ l.
Proof.
  split.
  - intros Hnone Hin. apply index_elem_of in Hin as [k Hk]. congruence.
  - intros Hnot. destruct (index x l) as [k|] eqn:Hk; [|done].
    apply index_Some in Hk as [_ Hk]. exfalso. apply Hnot.
    by eapply list_elem_of_lookup_2.
Qed.

Lemma blank_cases ix :
  0 ≤ ix < 9 →
  ix = 0 ∨ ix = 1 ∨ ix = 2 ∨ ix = 3 ∨ ix = 4 ∨ ix = 5 ∨ ix = 6 ∨ ix = 7 ∨ ix = 8.
Proof. lia. Qed.

(** The moves that [actions] offers are those to a square next to the
    blank. *)
Lemma Problem_actions_dist state ix :
  valid_state state → index 0 state = Some ix →
  ∃ acts, Problem.actions state = Some acts ∧ NoDup acts ∧
    (2 ≤ length acts ≤ 4)%nat ∧
    ∀ action, action ∈ acts ↔
      0 ≤ ix + Problem.change action < 9 ∧
      dist ix (ix + Problem.change action) = 1.
Proof.
  intros (Hlen & ix' & Hix' & Hr & _)%valid_state_blank Hix.
  assert (ix' = ix) as -> by congruence.
  unfold Problem.actions. rewrite Hix. simpl.
  pose proof (blank_cases ix Hr) as Hcases.
  destruct_or!; subst ix; vm_compute py_remove; simpl;
    (eexists; split; [reflexivity|]; split; [by apply (bool_decide_unpack _)|];
     split; [simpl; lia|]; intros []; rewrite ?elem_of_cons, elem_of_nil;
     vm_compute dist; simpl;
     (split; [intros; destruct_or!; first [done|split; [lia|done]]|];
      intros [? ?]; first [lia|by auto])).
Qed.

(** X1: on a valid board with the blank at [ix], [actions] offers
    between two and four moves, none twice, and a move is offered
    exactly when the square [ix + change[action]] is on the board and
    next to the blank in the grid, at distance 1 by [dist]. *)
Theorem Problem_actions_adjacent state ix :
  valid_state state → index 0 state = Some ix →
  ∃ acts, Problem.actions state = Some acts ∧ NoDup acts ∧
    (2 ≤ length acts ≤ 4)%nat ∧
    ∀ action, action ∈ acts ↔
      0 ≤ ix + Problem.change action < 9 ∧
      dist ix (ix + Problem.change action) = 1.
Proof. apply Problem_actions_dist. Qed.

Lemma py_subscript_wrap (adj : Z) :
  -9 ≤ adj < 9 → py_subscript 9 adj = Some (Z.to_nat (adj `mod` 9)).
Proof.
  intros Hadj. unfold py_subscript. case_bool_decide as Hpos.
  - by rewrite Z.mod_small by lia.
  - rewrite bool_decide_eq_true_2 by lia. do 2 f_equal.
    apply (Z.mod_unique adj 9 (-1)); lia.
Qed.

Lemma py_subscript_out (adj : Z) : 9 ≤ adj → py_subscript 9 adj = None.
Proof.
  intros Hadj. unfold py_subscript.
  rewrite bool_decide_eq_false_2 by lia. by rewrite bool_decide_eq_false_2 by lia.
Qed.

Lemma change_cases action :
  Problem.change action = -3 ∨ Problem.change action = -1 ∨
  Problem.change action = 1 ∨ Problem.change action = 3.
Proof. destruct action; simpl; lia. Qed.

(** What [result] does with the blank at [ix] and the square at
    subscript [adj]. *)
Lemma Problem_result_swap state ix action x :
  valid_state state → index 0 state = Some ix →
  ix + Problem.change action < 9 →
  state !! Z.to_nat ((ix + Problem.change action) `mod` 9) = Some x →
  Problem.result state action
  = Some (<[Z.to_nat ((ix + Problem.change action) `mod` 9) := 0]>
            (<[Z.to_nat ix := x]> state)).
Proof.
  intros (Hlen & ix' & Hix' & Hr & Hblank)%valid_state_blank Hix Hadj Hx.
  assert (ix' = ix) as -> by congruence.
  pose proof (change_cases action) as Hchange.
  unfold Problem.result. rewrite Hix. simpl.
  unfold py_getitem, py_setitem. rewrite Hlen.
  rewrite (py_subscript_wrap (ix + _)) by lia. simpl. rewrite Hx. simpl.
  rewrite (py_subscript_wrap ix) by lia. rewrite (Z.mod_small ix) by lia. simpl.
  rewrite Hblank. simpl. by rewrite length_insert, Hlen, py_subscript_wrap by lia.
Qed.

(** X2: [result] does not look at what [actions] offers.  On a valid
    board with the blank at [ix] it raises exactly when
    [ix + change[action]] is 9 or more; a negative subscript counts from
    the end of the tuple, so every other move, offered or not, gives a
    valid board again, with the blank at [(ix + change[action]) % 9]. *)
Theorem Problem_result_any_action state ix action :
  valid_state state → index 0 state = Some ix →
  (Problem.result state action = None ↔ 9 ≤ ix + Problem.change action) ∧
  ∀ state', Problem.result state action = Some state' →
    valid_state state' ∧
    state' !! Z.to_nat ((ix + Problem.change action) `mod` 9) = Some 0.
Proof.
  intros Hv Hix.
  destruct (valid_state_blank _ Hv) as (Hlen & ix' & Hix' & Hr & Hblank).
  assert (ix' = ix) as -> by congruence.
  pose proof (change_cases action) as Hchange.
  destruct (decide (9 ≤ ix + Problem.change action)) as [Hout|Hin].
  - assert (Problem.result state action = None) as ->; [|done].
    unfold Problem.result. rewrite Hix. cbn [mbind option_bind]. unfold py_getitem.
    rewrite Hlen, (py_subscript_out (ix + Problem.change action)) by done. done.
  - assert (0 ≤ (ix + Problem.change action) `mod` 9 < 9) as Hk.
    { apply Z.mod_pos_bound. lia. }
    destruct (lookup_lt_is_Some_2 state
                (Z.to_nat ((ix + Problem.change action) `mod` 9))) as [x Hx]; [lia|].
    rewrite (Problem_result_swap state ix action x) by (done || lia).
    split; [split; [done|lia]|]. intros state' [= <-]. split.
    + unfold valid_state in *. etrans; [|exact Hv]. by apply swap_Permutation.
    + apply list_lookup_insert_eq. rewrite length_insert. lia.
Qed.


Lemma dist_sym ix1 ix2 : dist ix1 ix2 = dist ix2 ix1.
Proof.
  unfold dist, get_2d_index. repeat case_bool_decide; lia.
Qed.

Lemma change_opposite action : Problem.change (opposite action) = - Problem.change action.
Proof. by destruct action. Qed.

(** The board after a move that [actions] offers, and where its blank
    is. *)
Lemma Problem_result_offered state ix acts action :
  valid_state state → index 0 state = Some ix →
  Problem.actions state = Some acts → action ∈ acts →
  ∃ x, 0 ≤ ix + Problem.change action < 9 ∧
       dist ix (ix + Problem.change action) = 1 ∧
       state !! Z.to_nat (ix + Problem.change action) = Some x ∧ x ≠ 0 ∧
       state !! Z.to_nat ix = Some 0 ∧
       Problem.result state action
       = Some (<[Z.to_nat (ix + Problem.change action) := 0]>
                 (<[Z.to_nat ix := x]> state)) ∧
       index 0 (<[Z.to_nat (ix + Problem.change action) := 0]>
                  (<[Z.to_nat ix := x]> state))
       = Some (ix + Problem.change action).
Proof.
  intros Hv Hix Hacts Hin.
  destruct (valid_state_blank _ Hv) as (Hlen & ix' & Hix' & Hr & Hblank).
  assert (ix' = ix) as -> by congruence.
  destruct (Problem_actions_dist state ix Hv Hix) as (acts' & Hacts' & _ & _ & Hoffered).
  assert (acts' = acts) as -> by congruence.
  apply Hoffered in Hin as [Hadj Hdist].
  pose proof (change_cases action) as Hchange.
  destruct (lookup_lt_is_Some_2 state (Z.to_nat (ix + Problem.change action)))
    as [x Hx]; [lia|].
  pose proof (valid_state_NoDup _ Hv) as Hnd.
  assert (x ≠ 0) as Hx0.
  { intros ->. pose proof (NoDup_lookup _ _ _ _ Hnd Hx Hblank). lia. }
  exists x. split_and!; [lia|lia|done|done|done|done| |].
  - rewrite (Problem_result_swap state ix action x Hv Hix) by
      (lia || by rewrite Z.mod_small by lia).
    by rewrite Z.mod_small by lia.
  - rewrite <- (Z2Nat.id (ix + Problem.change action)) at 2 by lia.
    apply index_NoDup.
    + assert (<[Z.to_nat (ix + Problem.change action):=0]> (<[Z.to_nat ix:=x]> state)
              ≡ₚ state) as -> by (by apply swap_Permutation).
      done.
    + apply list_lookup_insert_eq. rewrite length_insert. lia.
Qed.

Lemma Problem_result_back state acts action state' :
  valid_state state → Problem.actions state = Some acts → action ∈ acts →
  Problem.result state action = Some state' →
  (∃ acts', Problem.actions state' = Some acts' ∧ opposite action ∈ acts') ∧
  Problem.result state' (opposite action) = Some state.
Proof.
  intros Hv Hacts Hin Hres.
  destruct (valid_state_blank _ Hv) as (Hlen & ix & Hix & Hr & _).
  destruct (Problem_result_offered state ix acts action Hv Hix Hacts Hin)
    as (x & Hadj & Hdist & Hx & Hx0 & Hblank & Hres' & Hix').
  rewrite Hres in Hres'. injection Hres' as ->.
  set (adj := ix + Problem.change action) in *.
  assert (valid_state (<[Z.to_nat adj:=0]> (<[Z.to_nat ix:=x]> state))) as Hv'.
  { unfold valid_state in *. etrans; [|exact Hv]. by apply swap_Permutation. }
  destruct (Problem_actions_dist _ adj Hv' Hix') as (acts' & Hacts' & _ & _ & Hoffered).
  assert (adj + Problem.change (opposite action) = ix) as Hback.
  { rewrite change_opposite. unfold adj. lia. }
  assert (opposite action ∈ acts') as Hin'.
  { apply Hoffered. rewrite Hback, dist_sym. split; [lia|done]. }
  split; [by exists acts'|].
  destruct (Problem_result_offered _ adj acts' (opposite action) Hv' Hix' Hacts' Hin')
    as (x' & _ & _ & Hx' & _ & _ & -> & _).
  rewrite Hback in *. f_equal.
  assert (Z.to_nat adj ≠ Z.to_nat ix) as Hne.
  { pose proof (change_cases action). unfold adj. lia. }
  rewrite list_lookup_insert_ne in Hx' by done.
  rewrite list_lookup_insert_eq in Hx' by lia. injection Hx' as <-.
  apply list_eq. intros i.
  destruct (decide (i = Z.to_nat ix)) as [->|Hi].
  { rewrite list_lookup_insert_eq by (rewrite !length_insert; lia). done. }
  rewrite list_lookup_insert_ne by done.
  destruct (decide (i = Z.to_nat adj)) as [->|Hi'].
  { rewrite list_lookup_insert_eq by (rewrite !length_insert; lia). done. }
  by rewrite !list_lookup_insert_ne by done.
Qed.

(** X3: a move can be taken back.  On a valid board, after a move that
    [actions] offers, [actions] offers the opposite move, and [result]
    with it gives the board before the move. *)
Theorem Problem_result_reversible state acts action state' :
  valid_state state → Problem.actions state = Some acts → action ∈ acts →
  Problem.result state action = Some state' →
  (∃ acts', Problem.actions state' = Some acts' ∧ opposite action ∈ acts') ∧
  Problem.result state' (opposite action) = Some state.
Proof. apply Problem_result_back. Qed.


Lemma dist_nonneg ix1 ix2 : 0 ≤ dist ix1 ix2.
Proof. unfold dist, get_2d_index. repeat case_bool_decide; lia. Qed.

Lemma dist_zero ix1 ix2 : dist ix1 ix2 = 0 ↔ ix1 = ix2.
Proof. unfold dist, get_2d_index. repeat case_bool_decide; lia. Qed.

(** X4: [dist] is a metric on all integers, the rows of [get_2d_index]
    never overlapping: it is 0 at most between a subscript and itself,
    symmetric, and obeys the triangle inequality; and on the board
    [get_2d_index(i)] is the pair [(i // 3, i % 3)]. *)
Theorem dist_metric ix1 ix2 ix3 :
  0 ≤ dist ix1 ix2 ∧
  (dist ix1 ix2 = 0 ↔ ix1 = ix2) ∧
  dist ix1 ix2 = dist ix2 ix1 ∧
  dist ix1 ix3 ≤ dist ix1 ix2 + dist ix2 ix3 ∧
  (0 ≤ ix1 < 9 → get_2d_index ix1 = (ix1 `div` 3, ix1 `mod` 3)).
Proof.
  split_and!; [apply dist_nonneg|apply dist_zero|apply dist_sym| |].
  - unfold dist, get_2d_index. repeat case_bool_decide; lia.
  - intros Hr. pose proof (blank_cases ix1 Hr) as Hcases.
    destruct_or!; by subst ix1.
Qed.

Lemma misplaced_spec goal state (i n : nat) :
  (i + n ≤ length state)%nat → (i + n ≤ length goal)%nat →
  ∃ r, Problem.misplaced goal state i n = Some r ∧ 0 ≤ r ≤ Z.of_nat n ∧
       (r = 0 ↔ ∀ j, (i ≤ j < i + n)%nat → state !! j = goal !! j).
Proof.
  revert i. induction n as [|n IH]; intros i Hs Hg; simpl.
  { exists 0. split; [done|]. split; [lia|]. split; [intros _ j Hj; lia|done]. }
  destruct (lookup_lt_is_Some_2 state i) as [x Hx]; [lia|].
  destruct (lookup_lt_is_Some_2 goal i) as [y Hy]; [lia|].
  destruct (IH (S i)) as (r & Hr & Hbound & Hzero); [lia|lia|].
  rewrite Hx, Hy. simpl. rewrite Hr. simpl. eexists. split; [done|].
  case_bool_decide as Hxy.
  - split; [lia|]. split; [lia|]. intros Hall. exfalso. apply Hxy.
    specialize (Hall i ltac:(lia)). congruence.
  - subst y. split; [lia|]. rewrite Z.add_0_l, Hzero. split.
    + intros Hall j Hj. destruct (decide (j = i)) as [->|Hne]; [congruence|].
      apply Hall. lia.
    + intros Hall j Hj. apply Hall. lia.
Qed.

Lemma misplaced_short goal state (i n : nat) :
  (i ≤ length goal)%nat →
  (i + n ≤ length state)%nat → (length goal < i + n)%nat →
  Problem.misplaced goal state i n = None.
Proof.
  revert i. induction n as [|n IH]; intros i Hi Hs Hg; [lia|]. simpl.
  destruct (lookup_lt_is_Some_2 state i) as [x ->]; [lia|]. simpl.
  destruct (goal !! i) as [y|] eqn:Hy; [|done]. simpl.
  apply lookup_lt_Some in Hy. rewrite IH by lia. done.
Qed.

(** X5: the default estimate of [h].  It raises ([IndexError]) when the
    goal is shorter than the state; otherwise it is a count between 0
    and [len(state)], and 0 exactly when the state is the goal cut to
    the state's length, the goal itself when the lengths agree. *)
Theorem Problem_h_default goal state :
  ((length goal < length state)%nat → Problem.h goal state None = None) ∧
  ((length state ≤ length goal)%nat →
   ∃ n, Problem.h goal state None = Some n ∧ 0 ≤ n ≤ Z.of_nat (length state) ∧
        (n = 0 ↔ state = take (length state) goal)).
Proof.
  split; intros Hlen; simpl.
  - apply misplaced_short; simpl; lia.
  - destruct (misplaced_spec goal state 0 (length state)) as (r & Hr & Hbound & Hzero);
      [simpl; lia|simpl; lia|].
    exists r. split; [done|]. split; [lia|]. rewrite Hzero. split.
    + intros Hall. apply list_eq. intros j.
      destruct (decide (j < length state)%nat) as [Hj|Hj].
      * rewrite lookup_take_lt by done. apply Hall. lia.
      * rewrite lookup_take_ge by lia. apply lookup_ge_None. lia.
    + intros Heq j Hj. rewrite Heq at 1. apply lookup_take_lt. lia.
Qed.

Lemma manhattan_from_None k state goal :
  manhattan_from k state goal = None ↔ ∃ el, el ∈ state ∧ el ∉ goal.
Proof.
  revert k. induction state as [|el state IH]; intros k; simpl.
  { split; [done|]. intros (el & Hel & _). by apply elem_of_nil in Hel. }
  destruct (index el goal) as [ix2|] eqn:Hix; simpl.
  - assert (el ∈ goal) as Hin.
    { apply index_Some in Hix as [_ Hix]. by eapply list_elem_of_lookup_2. }
    destruct (manhattan_from (k + 1) state goal) as [r|] eqn:Hr; simpl.
    + split; [done|]. intros (el' & [->|Hel']%elem_of_cons & Hnot); [done|].
      assert (manhattan_from (k + 1) state goal = None); [|congruence].
      apply IH. by exists el'.
    + split; [intros _|done]. apply IH in Hr as (el' & Hel' & Hnot).
      exists el'. split; [by right|done].
  - split; [intros _|done]. exists el. split; [by left|by apply index_None].
Qed.

Lemma manhattan_from_nonneg k state goal d :
  manhattan_from k state goal = Some d → 0 ≤ d.
Proof.
  revert k d. induction state as [|el state IH]; intros k d Hd; simpl in Hd.
  { injection Hd as <-. lia. }
  destruct (index el goal) as [ix2|]; [|done]. simpl in Hd.
  destruct (manhattan_from (k + 1) state goal) as [r|] eqn:Hr; [|done].
  injection Hd as <-. pose proof (IH _ _ Hr). pose proof (dist_nonneg k ix2). lia.
Qed.

Lemma manhattan_from_zero k state goal :
  manhattan_from k state goal = Some 0 ↔
  ∀ (j : nat) el, state !! j = Some el → index el goal = Some (k + Z.of_nat j).
Proof.
  revert k. induction state as [|el state IH]; intros k; simpl.
  { split; [by intros _ j el|done]. }
  split.
  - intros Hd. destruct (index el goal) as [ix2|] eqn:Hix; [|done]. simpl in Hd.
    destruct (manhattan_from (k + 1) state goal) as [r|] eqn:Hr; [|done].
    injection Hd as Hd. pose proof (manhattan_from_nonneg _ _ _ _ Hr).
    pose proof (dist_nonneg k ix2).
    assert (r = 0) as -> by lia. assert (ix2 = k) as -> by (symmetry; apply dist_zero; lia).
    intros [|j] el' Hj; simpl in Hj.
    + injection Hj as <-. rewrite Hix. f_equal. lia.
    + rewrite (proj1 (IH (k + 1)) Hr j el' Hj). f_equal. lia.
  - intros Hall. rewrite (Hall 0%nat el eq_refl). simpl.
    assert (manhattan_from (k + 1) state goal = Some 0) as ->.
    { apply IH. intros j el' Hj. rewrite (Hall (S j) el' Hj). f_equal. lia. }
    simpl. f_equal. replace (k + Z.of_nat 0) with k by lia.
    rewrite (proj2 (dist_zero k k) eq_refl). lia.
Qed.

(** X6: [manhattan_distance] raises ([ValueError] of [goal.index])
    exactly when some tile of the state does not occur in the goal; a
    value it returns is never negative; and for a goal without repeated
    tiles and a state of the same length it is 0 exactly when the state
    is the goal. *)
Theorem manhattan_distance_spec state goal :
  (manhattan_distance state goal = None ↔ ∃ el, el ∈ state ∧ el ∉ goal) ∧
  (∀ d, manhattan_distance state goal = Some d → 0 ≤ d) ∧
  (NoDup goal → length state = length goal →
   (manhattan_distance state goal = Some 0 ↔ state = goal)).
Proof.
  split_and!; [apply manhattan_from_None|apply manhattan_from_nonneg|].
  intros Hnd Hlen. unfold manhattan_distance. rewrite manhattan_from_zero. split.
  - intros Hall. apply list_eq_same_length with (length goal); [done..|].
    intros j el el' Hj Hel Hel'. apply Hall in Hel. apply index_Some in Hel as [_ Hel].
    rewrite Z.add_0_l, Nat2Z.id in Hel. congruence.
  - intros -> j el Hj. rewrite Z.add_0_l. by apply index_NoDup.
Qed.


End PuzzleFacts.

Lemma notebook_start_valid : valid_state notebook_start.
Proof. unfold valid_state. apply (bool_decide_unpack _). vm_compute. exact I. Qed.

Lemma notebook_goal_valid : valid_state notebook_goal.
Proof. unfold valid_state. apply (bool_decide_unpack _). vm_compute. exact I. Qed.

Lemma Problem_actions_adjacent_witness :
  valid_state notebook_start ∧ index 0 notebook_start = Some 8 ∧
  ∃ acts, Problem.actions notebook_start = Some acts ∧ NoDup acts ∧
    (2 ≤ length acts ≤ 4)%nat ∧
    ∀ action, action ∈ acts ↔
      0 ≤ 8 + Problem.change action < 9 ∧ dist 8 (8 + Problem.change action) = 1.
Proof.
  split; [exact notebook_start_valid|]. split; [reflexivity|].
  exact (Problem_actions_adjacent notebook_start 8 notebook_start_valid eq_refl).
Defined.

Lemma Problem_result_any_action_witness :
  valid_state notebook_start ∧ index 0 notebook_start = Some 8 ∧
  (Problem.result notebook_start down = None ↔ 9 ≤ 8 + Problem.change down) ∧
  ∀ state', Problem.result notebook_start down = Some state' →
    valid_state state' ∧
    state' !! Z.to_nat ((8 + Problem.change down) `mod` 9) = Some 0.
Proof.
  split; [exact notebook_start_valid|]. split; [reflexivity|].
  exact (Problem_result_any_action notebook_start 8 down notebook_start_valid eq_refl).
Defined.

Lemma Problem_result_reversible_witness :
  valid_state notebook_start ∧
  Problem.actions notebook_start = Some [left; up] ∧ left ∈ [left; up] ∧
  Problem.result notebook_start left = Some notebook_start_left ∧
  (∃ acts', Problem.actions notebook_start_left = Some acts' ∧ opposite left ∈ acts') ∧
  Problem.result notebook_start_left (opposite left) = Some notebook_start.
Proof.
  assert (left ∈ [left; up]) as Hin by left.
  split; [exact notebook_start_valid|]. split; [reflexivity|]. split; [exact Hin|].
  split; [reflexivity|].
  exact (Problem_result_reversible notebook_start [left; up] left notebook_start_left
           notebook_start_valid eq_refl Hin eq_refl).
Defined.

Section PuzzleEstimates.

Lemma manhattan_from_cons k el state goal (j : nat) :
  NoDup goal → goal !! j = Some el →
  manhattan_from k (el :: state) goal
  = r ← manhattan_from (k + 1) state goal; Some (dist k (Z.of_nat j) + r).
Proof. intros Hnd Hj. simpl. by rewrite (index_NoDup goal j el Hnd Hj). Qed.

Lemma misplaced_cons goal state (i n : nat) x y :
  state !! i = Some x → goal !! i = Some y →
  Problem.misplaced goal state i (S n)
  = r ← Problem.misplaced goal state (S i) n;
    Some ((if bool_decide (x ≠ y) then 1 else 0) + r).
Proof. intros Hx Hy. simpl. by rewrite Hx, Hy. Qed.

Ltac find_tile :=
  first [exact (eq_refl : _ !! 0%nat = _) | exact (eq_refl : _ !! 1%nat = _)
        |exact (eq_refl : _ !! 2%nat = _) | exact (eq_refl : _ !! 3%nat = _)
        |exact (eq_refl : _ !! 4%nat = _) | exact (eq_refl : _ !! 5%nat = _)
        |exact (eq_refl : _ !! 6%nat = _) | exact (eq_refl : _ !! 7%nat = _)
        |exact (eq_refl : _ !! 8%nat = _)].

(** One move away from the goal both estimates are 2: each counts the
    blank as a tile. *)
Lemma estimates_one_move state acts action state' :
  valid_state state → Problem.actions state = Some acts → action ∈ acts →
  Problem.result state action = Some state' →
  Problem.h state state' None = Some 2 ∧ manhattan_distance state' state = Some 2.
Proof.
  intros Hv Hacts Hin Hres.
  destruct (valid_state_blank _ Hv) as (Hlen & ix & Hix & Hr & _).
  destruct (Problem_result_offered state ix acts action Hv Hix Hacts Hin)
    as (x & Hadj & Hdist & Hx & Hx0 & Hblank & Hres' & _).
  rewrite Hres in Hres'. injection Hres' as ->.
  pose proof (valid_state_NoDup _ Hv) as Hnd.
  clear Hv Hacts Hin Hres Hix.
  do 9 (destruct state as [|? state]; [done|]). destruct state; [|done]. clear Hlen.
  pose proof (blank_cases ix Hr) as Hcases. clear Hr.
  destruct_or!; subst ix; simpl in Hblank; injection Hblank as ->;
    destruct action; simpl in Hadj; try lia; vm_compute in Hdist; try done;
    clear Hadj Hdist; simpl in Hx; injection Hx as <-;
    unfold Problem.h, manhattan_distance;
    match goal with
    | |- context [<[?a:=?b]> (<[?c:=?d]> ?l)] =>
        let t := eval cbv in (<[a:=b]> (<[c:=d]> l)) in
        change (<[a:=b]> (<[c:=d]> l)) with t
    end; simpl length.
  all: split;
    [ do 9 (erewrite misplaced_cons by reflexivity);
      repeat (case_bool_decide; try congruence); reflexivity
    | do 9 (erewrite manhattan_from_cons by first [exact Hnd|find_tile]);
      reflexivity ].
Qed.

(** X7: both estimates count the blank.  With a valid board as the
    goal, the board that one offered move leads to is estimated 2 by the
    default of [h] and by [manhattan_distance], although one move leads
    back to the goal. *)
Theorem estimates_count_blank goal acts action state' :
  valid_state goal → Problem.actions goal = Some acts → action ∈ acts →
  Problem.result goal action = Some state' →
  Problem.h goal state' None = Some 2 ∧
  Problem.h goal state' (Some manhattan_distance) = Some 2 ∧
  Problem.result state' (opposite action) = Some goal.
Proof.
  intros Hv Hacts Hin Hres.
  destruct (estimates_one_move goal acts action state' Hv Hacts Hin Hres) as [Hh Hm].
  destruct (Problem_result_back goal acts action state' Hv Hacts Hin Hres) as [_ Hback].
  done.
Qed.

(** X8: so neither estimate is admissible for the 8-puzzle, whatever the
    start board and the valid goal board: some board one legal move away
    from the goal is estimated 2. *)
Theorem puzzle_estimates_not_admissible start goal :
  valid_state goal →
  ¬ admissible (puzzle_problem start goal) None ∧
  ¬ admissible (puzzle_problem start goal) (Some manhattan_distance).
Proof.
  intros Hv.
  destruct (valid_state_blank _ Hv) as (_ & ix & Hix & _ & _).
  destruct (Problem_actions_dist goal ix Hv Hix) as (acts & Hacts & _ & Hlen & _).
  destruct acts as [|action acts]; [simpl in Hlen; lia|].
  assert (action ∈ action :: acts) as Hin by left.
  destruct (Problem_result_offered goal ix _ action Hv Hix Hacts Hin)
    as (x & _ & _ & _ & _ & _ & Hres & _).
  destruct (estimates_one_move goal _ action _ Hv Hacts Hin Hres) as [Hh Hm].
  destruct (Problem_result_back goal _ action _ Hv Hacts Hin Hres)
    as [(acts' & Hacts' & Hin') Hback].
  set (state' := <[Z.to_nat (ix + Problem.change action):=0]> (<[Z.to_nat ix:=x]> goal)) in *.
  assert (legal (puzzle_problem start goal) state' [opposite action]) as Hlegal.
  { split; [|done]. simpl. by rewrite Hacts'. }
  assert (is_goal_state (puzzle_problem start goal)
            (run (puzzle_problem start goal) state' [opposite action]) = true) as Hgoal.
  { unfold run. simpl. rewrite Hback. simpl. by apply bool_decide_eq_true. }
  split; intros Hadm; specialize (Hadm state' [opposite action] Hlegal Hgoal);
    simpl in Hadm.
  - unfold Problem.h in Hh. rewrite Hh in Hadm. simpl in Hadm. lia.
  - rewrite Hm in Hadm. simpl in Hadm. lia.
Qed.


End PuzzleEstimates.

Lemma estimates_count_blank_witness :
  valid_state notebook_goal ∧
  Problem.actions notebook_goal = Some [left; up] ∧ left ∈ [left; up] ∧
  Problem.result notebook_goal left = Some notebook_goal_left ∧
  Problem.h notebook_goal notebook_goal_left None = Some 2 ∧
  Problem.h notebook_goal notebook_goal_left (Some manhattan_distance) = Some 2 ∧
  Problem.result notebook_goal_left (opposite left) = Some notebook_goal.
Proof.
  assert (left ∈ [left; up]) as Hin by left.
  split; [exact notebook_goal_valid|]. split; [reflexivity|]. split; [exact Hin|].
  split; [reflexivity|].
  exact (estimates_count_blank notebook_goal [left; up] left notebook_goal_left
           notebook_goal_valid eq_refl Hin eq_refl).
Defined.

Lemma puzzle_estimates_not_admissible_witness :
  valid_state notebook_goal ∧
  ¬ admissible notebook_puzzle None ∧
  ¬ admissible notebook_puzzle (Some manhattan_distance).
Proof.
  split; [exact notebook_goal_valid|].
  exact (puzzle_estimates_not_admissible notebook_start notebook_goal notebook_goal_valid).
Defined.

(** ** What the solvers' answers mean *)

Section SolverAnswers.

Context {St Act Heur : Type} `{Countable St}.
Variable problem : SearchProblem St Act Heur.

Local Abbreviation goal s := (is_goal_state problem s).

(** X9: the nodes that [child_node] builds from [Node(problem.start)],
    those of [breadth_first_search] and [recursive_dls], carry their
    depth as [path_cost] and as [f], and [solution] lists one node more
    than the depth. *)
Theorem tree_node_costs (node : @Node St Act) :
  tree_node problem node →
  path_cost node = Z.of_nat (depth node) ∧ f node = path_cost node ∧
  length (solution node) = S (depth node).
Proof.
  induction 1 as [|node a _ (IHc & IHf & IHl)]; [done|].
  rewrite solution_child, length_app, IHl. simpl. split_and!; [lia|done|lia].
Qed.

(** *** Breadth-first search *)

Lemma bfs_inv_exhausted D E k s :
  bfs_inv problem D [] [] E → reach problem k s → s ∈ E.
Proof.
  intros [_ _ _ Hbelow Hseen Hclosed _ _]. revert s.
  induction k as [|k IH]; intros s Hreach.
  - destruct (decide (0 < D)%nat) as [HD|HD]; [by apply (Hbelow 0%nat)|].
    assert (D = 0%nat) as -> by lia.
    destruct (Hseen s Hreach) as [Hs|(n & Hn & _)]; [done|by apply elem_of_nil in Hn].
  - apply reach_S in Hreach as (s' & a & Hreach & Ha & ->).
    destruct (Hclosed s' a (IH _ Hreach) Ha) as [Hs|(n & Hn & _)];
      [done|by apply elem_of_nil in Hn].
Qed.

Lemma bfs_loop_failure fuel D F1 F2 E k g :
  bfs_inv problem D F1 F2 E →
  bfs_loop problem fuel (F1 ++ F2) E = Some Failure →
  reach problem k g → goal g = true → (11 < k)%nat.
Proof.
  revert D F1 F2 E. induction fuel as [|fuel IH]; intros D F1 F2 E Hinv Hloop Hreach Hg;
    [done|].
  destruct (decide (F1 ++ F2 = [])) as [Hnil|Hne].
  { apply app_eq_nil in Hnil as [-> ->].
    pose proof (bfs_inv_exhausted _ _ _ _ Hinv Hreach) as Hin.
    apply (inv_explored_not_goal _ _ _ _ _ Hinv) in Hin. congruence. }
  assert (∃ D' node F1' F2', F1 ++ F2 = node :: F1' ++ F2' ∧
                             bfs_inv problem D' (node :: F1') F2' E)
    as (D' & node & F1' & F2' & Heq & Hinv').
  { destruct F1 as [|node F1].
    - destruct F2 as [|node F2]; [done|].
      exists (S D), node, F2, []. split; [by rewrite app_nil_r|].
      by apply bfs_inv_advance.
    - by exists D, node, F1, F2. }
  rewrite Heq in Hloop. simpl in Hloop.
  pose proof (inv_level _ _ _ _ _ Hinv') as Hlevel.
  apply Forall_cons in Hlevel as [Hdepth _].
  case_bool_decide as Hcap.
  - pose proof (bfs_step _ _ _ _ _ _ Hinv') as Hstep.
    destruct (bfs_expand _ _ _ _ _) as [c|F']; [done|].
    destruct Hstep as (new & -> & Hinv''). by eapply IH.
  - pose proof (bfs_inv_no_short_solution _ _ _ _ _ _ _ Hinv' Hreach Hg). lia.
Qed.

Lemma bfs_loop_not_cutoff fuel F E : bfs_loop problem fuel F E ≠ Some Cutoff.
Proof.
  revert F E. induction fuel as [|fuel IH]; intros F E; simpl; [done|].
  destruct F as [|node F]; [done|]. case_bool_decide; [|apply IH].
  destruct (bfs_expand _ _ _ _ _); [done|apply IH].
Qed.

Lemma breadth_first_search_none_within fuel acts :
  breadth_first_search problem fuel = Some Failure →
  solves problem acts → (11 < length acts)%nat.
Proof.
  unfold breadth_first_search. simpl. intros Hsearch [Hlegal Hgoal].
  destruct (goal (start problem)) eqn:Hstart; [done|].
  eapply (bfs_loop_failure fuel 0 [root_node problem] [] ∅);
    [by apply bfs_inv_init|done| |done].
  by exists acts.
Qed.

(** X10: when [breadth_first_search] answers ['failure'], no sequence of
    11 actions or fewer leads from the start state to a goal state: the
    search stops expanding below depth 10. *)
Theorem breadth_first_search_failure fuel acts :
  breadth_first_search problem fuel = Some Failure →
  solves problem acts → (11 < length acts)%nat.
Proof. apply breadth_first_search_none_within. Qed.

(** X11: [breadth_first_search] always comes to an end, with a path or
    with ['failure'] and never with ['cutoff']; and it answers with a
    path whenever some sequence of 11 actions or fewer leads to a goal
    state. *)
Theorem breadth_first_search_complete :
  ∃ fuel, ∀ fuel', (fuel ≤ fuel')%nat →
    ((∃ nodes, breadth_first_search problem fuel' = Some (Path nodes)) ∨
     breadth_first_search problem fuel' = Some Failure) ∧
    ((∃ acts, solves problem acts ∧ (length acts ≤ 11)%nat) →
     ∃ nodes, breadth_first_search problem fuel' = Some (Path nodes)).
Proof.
  destruct (breadth_first_search_total problem) as [fuel Htotal].
  exists fuel. intros fuel' Hfuel. destruct (Htotal fuel' Hfuel) as [r Hr].
  assert (r ≠ Cutoff) as Hnot.
  { intros ->. revert Hr. unfold breadth_first_search. simpl.
    destruct (goal (start problem)); [done|]. apply bfs_loop_not_cutoff. }
  destruct r as [nodes| |]; [| |done].
  - split; [left; by exists nodes|]. intros _. by exists nodes.
  - split; [by right|]. intros (acts & Hsolves & Hlen).
    pose proof (breadth_first_search_none_within fuel' acts Hr Hsolves). lia.
Qed.

(** *** Depth-limited and iterative-deepening search *)

Lemma dls_actions_spec (rec : @Node St Act → SearchResult) node acts c :
  match dls_actions problem rec node acts c with
  | Path nodes => ∃ a, a ∈ acts ∧ rec (child_node problem node a) = Path nodes
  | Cutoff => ∀ a, a ∈ acts →
      rec (child_node problem node a) = Cutoff ∨
      rec (child_node problem node a) = Failure
  | Failure => c = false ∧ ∀ a, a ∈ acts → rec (child_node problem node a) = Failure
  end.
Proof.
  revert c. induction acts as [|a acts IH]; intros c; simpl.
  - destruct c; [|split; [done|]]; by intros a ?%elem_of_nil.
  - destruct (rec (child_node problem node a)) as [nodes| |] eqn:Hrec.
    + exists a. split; [by left|done].
    + specialize (IH c). destruct (dls_actions _ _ _ _ _) as [nodes| |].
      * destruct IH as (a' & Ha' & Hrec'). exists a'. split; [by right|done].
      * destruct IH as [Hc IH]. split; [done|].
        intros a' [->|Ha']%elem_of_cons; [done|by apply IH].
      * intros a' [->|Ha']%elem_of_cons; [by right|by apply IH].
    + specialize (IH true). destruct (dls_actions _ _ _ _ _) as [nodes| |].
      * destruct IH as (a' & Ha' & Hrec'). exists a'. split; [by right|done].
      * by destruct IH.
      * intros a' [->|Ha']%elem_of_cons; [by left|by apply IH].
Qed.

Lemma recursive_dls_spec limit node :
  valid_node problem node →
  match recursive_dls problem limit node with
  | Path nodes =>
      ∃ c, nodes = solution c ∧ valid_node problem c ∧ goal (state c) = true ∧
           (depth c ≤ depth node + limit)%nat
  | Cutoff =>
      ∀ acts, legal problem (state node) acts → (length acts ≤ limit)%nat →
              goal (run problem (state node) acts) = false
  | Failure =>
      ∀ acts, legal problem (state node) acts →
              goal (run problem (state node) acts) = false
  end.
Proof.
  revert node. induction limit as [|limit IH]; intros node Hnode.
  - simpl. destruct (goal (state node)) eqn:Hgoal.
    + exists node. split_and!; [done..|lia].
    + intros [|a acts] _ Hlen; [done|simpl in Hlen; lia].
  - cbn [recursive_dls]. destruct (goal (state node)) eqn:Hgoal.
    { exists node. split_and!; [done..|lia]. }
    pose proof (dls_actions_spec (recursive_dls problem limit) node
                  (actions problem (state node)) false) as Hspec.
    destruct (dls_actions _ _ _ _ _) as [nodes| |].
    + destruct Hspec as (a & Ha & Hrec).
      specialize (IH (child_node problem node a) (valid_child_node _ _ _ Hnode Ha)).
      rewrite Hrec in IH. destruct IH as (c & -> & Hc & Hg & Hd).
      exists c. split_and!; [done..|]. simpl in Hd. lia.
    + destruct Hspec as [_ Hall]. intros [|a acts] Hlegal; [done|].
      destruct Hlegal as [Ha Hlegal].
      specialize (IH (child_node problem node a) (valid_child_node _ _ _ Hnode Ha)).
      rewrite (Hall a Ha) in IH. by apply IH.
    + intros [|a acts] Hlegal Hlen; [done|].
      destruct Hlegal as [Ha Hlegal]. simpl in Hlen.
      specialize (IH (child_node problem node a) (valid_child_node _ _ _ Hnode Ha)).
      destruct (Hspec a Ha) as [Hrec|Hrec]; rewrite Hrec in IH.
      * apply IH; [done|lia].
      * by apply IH.
Qed.

Lemma depth_limited_search_answers limit :
  match depth_limited_search problem limit with
  | Path nodes =>
      solves problem (path_actions nodes) ∧ (length (path_actions nodes) ≤ limit)%nat
  | Cutoff => ∀ acts, solves problem acts → (limit < length acts)%nat
  | Failure => ∀ acts, ¬ solves problem acts
  end.
Proof.
  unfold depth_limited_search.
  pose proof (recursive_dls_spec limit (root_node problem) (valid_root_node problem))
    as Hspec.
  fold (root_node problem). destruct (recursive_dls _ _ _) as [nodes| |].
  - destruct Hspec as (c & -> & Hc & Hg & Hd).
    destruct (valid_node_solution problem c Hc) as (Hlegal & Hrun & Hlen).
    split; [split; [done|by rewrite Hrun]|]. simpl in Hd. lia.
  - intros acts [Hlegal Hg]. specialize (Hspec acts Hlegal). simpl in Hspec. congruence.
  - intros acts [Hlegal Hg].
    destruct (decide (limit < length acts)%nat) as [|Hle]; [done|].
    specialize (Hspec acts Hlegal ltac:(lia)). simpl in Hspec. congruence.
Qed.

(** X12: the three answers of [depth_limited_search].  A path is a
    solution of [limit] actions at most; ['cutoff'] means that no
    solution has [limit] actions or fewer; ['failure'] means that there
    is no solution of any length. *)
Theorem depth_limited_search_spec limit :
  match depth_limited_search problem limit with
  | Path nodes =>
      solves problem (path_actions nodes) ∧ (length (path_actions nodes) ≤ limit)%nat
  | Cutoff => ∀ acts, solves problem acts → (limit < length acts)%nat
  | Failure => ∀ acts, ¬ solves problem acts
  end.
Proof. apply depth_limited_search_answers. Qed.

Lemma ids_loop_spec a n :
  match ids_loop problem (seq a n) with
  | None => ∀ d, (a ≤ d < a + n)%nat → depth_limited_search problem d = Cutoff
  | Some r =>
      ∃ d, (a ≤ d < a + n)%nat ∧ depth_limited_search problem d = r ∧ r ≠ Cutoff ∧
           ∀ d', (a ≤ d' < d)%nat → depth_limited_search problem d' = Cutoff
  end.
Proof.
  revert a. induction n as [|n IH]; intros a; simpl; [intros d Hd; lia|].
  destruct (depth_limited_search problem a) as [nodes| |] eqn:Hdls.
  - exists a. split; [lia|]. split_and!; [done|done|]. intros d' Hd'. lia.
  - exists a. split; [lia|]. split_and!; [done|done|]. intros d' Hd'. lia.
  - specialize (IH (S a)). destruct (ids_loop _ _) as [r|].
    + destruct IH as (d & Hd & Hr & Hne & Hbefore). exists d.
      split; [lia|]. split_and!; [done|done|]. intros d' Hd'.
      destruct (decide (d' = a)) as [->|Hne']; [done|]. apply Hbefore. lia.
    + intros d Hd. destruct (decide (d = a)) as [->|Hne]; [done|]. apply IH. lia.
Qed.

(** X13: the answers of [iterative_deepening_search].  A path is a
    solution of 9 actions at most, and no solution is shorter;
    ['failure'] means that there is no solution at all; ['cutoff'] is
    never the answer; and when the call returns nothing, every solution
    has more than 9 actions. *)
Theorem iterative_deepening_search_spec :
  match iterative_deepening_search problem with
  | Some (Path nodes) =>
      solves problem (path_actions nodes) ∧ (length (path_actions nodes) ≤ 9)%nat ∧
      ∀ acts, solves problem acts → (length (path_actions nodes) ≤ length acts)%nat
  | Some Failure => ∀ acts, ¬ solves problem acts
  | Some Cutoff => False
  | None => ∀ acts, solves problem acts → (9 < length acts)%nat
  end.
Proof.
  unfold iterative_deepening_search.
  pose proof (ids_loop_spec 0 10) as Hspec.
  destruct (ids_loop _ _) as [r|].
  - destruct Hspec as (d & Hd & Hr & Hne & Hbefore).
    pose proof (depth_limited_search_answers d) as Hans. rewrite Hr in Hans.
    destruct r as [nodes| |]; [|done|done].
    destruct Hans as [Hsolves Hlen]. split_and!; [done|lia|].
    intros acts Hacts.
    destruct (decide (length (path_actions nodes) ≤ length acts)%nat) as [|Hshort];
      [done|].
    pose proof (depth_limited_search_answers (length acts)) as Hans.
    rewrite Hbefore in Hans by lia. specialize (Hans acts Hacts). lia.
  - intros acts Hacts.
    destruct (decide (9 < length acts)%nat) as [|Hshort]; [done|].
    pose proof (depth_limited_search_answers (length acts)) as Hans.
    rewrite Hspec in Hans by lia. specialize (Hans acts Hacts). lia.
Qed.

End SolverAnswers.

Section AstarAnswers.

Context {St Act Heur : Type} `{Countable St}.
Variable problem : SearchProblem St Act Heur.
Variable heuristic : option Heur.
Hypothesis Hcons : consistent problem heuristic.

Lemma astar_loop_failure fuel frontier explored acts :
  astar_min_inv problem heuristic frontier explored →
  frontier ≠ [] ∨ start problem ∈ explored →
  astar_loop_count problem heuristic fuel frontier explored = 0%nat →
  astar_loop problem heuristic fuel frontier explored = Some Failure →
  solves problem acts → (11 < length acts)%nat.
Proof.
  intros Hinv Hstart Hcount Hloop [Hlegal Hgoal].
  destruct (decide (11 < length acts)%nat) as [|Hshort]; [done|]. exfalso.
  revert frontier explored Hinv Hstart Hcount Hloop.
  induction fuel as [|fuel IH]; intros frontier explored Hinv Hstart Hcount Hloop; [done|].
  simpl in Hloop, Hcount.
  destruct (heappop Node_lt frontier) as [[node frontier']|] eqn:Hpop.
  - destruct (astar_pop_inv _ _ _ _ _ (min_base _ _ _ _ Hinv) Hpop)
      as (Hbase' & Hvalid & Hdepth & Hfresh).
    destruct (is_goal_state problem (state node)) eqn:Hnode; [done|].
    pose proof (heappop_Permutation _ _ _ _ Hpop) as Hperm.
    assert (start problem ∈ explored ∪ {[state node]}) as Hstart'.
    { apply elem_of_union.
      destruct (min_start _ _ _ _ Hinv) as [Hs|Hroot]; [by left|right].
      apply elem_of_singleton. symmetry. apply valid_node_depth_0; [done|].
      rewrite Forall_forall in Hroot. apply Hroot. rewrite Hperm. by left. }
    destruct (heappop_ordered f Node_lt Node_lt_key _ _ _ (min_heap _ _ _ _ Hinv) Hpop)
      as [Hheap' _].
    destruct (heappop_Forall _ _ _ _ _ Hpop (min_costs _ _ _ _ Hinv)) as [[Hpc _] Hcosts'].
    case_bool_decide as Hd.
    + destruct (astar_expand_clean problem heuristic node (explored ∪ {[state node]})
                  (actions problem (state node)) frontier' Hpc Hheap' Hcosts' ltac:(lia))
        as (Hheap'' & Hcosts'' & Hkeep & Hsucc).
      eapply IH; [|by right|by apply Nat.eq_add_0 in Hcount as [_ Hcount]|done].
      eapply (astar_min_step problem heuristic Hcons);
        [done..|by apply astar_expand_inv|done|done|done|done].
    + eapply IH; [|by right|done..].
      eapply (astar_min_step problem heuristic Hcons); [done..|]. lia.
  - apply heappop_None in Hpop as ->. destruct Hstart as [|Hstart]; [done|].
    destruct (min_closed _ _ _ _ Hinv (start problem) 0%nat acts Hstart)
      as [Hrun|(q & rest & m & _ & Hm & _)]; [by apply reach_0|done|lia| |].
    + apply (min_not_goal _ _ _ _ Hinv) in Hrun. congruence.
    + by apply elem_of_nil in Hm.
Qed.

Lemma astar_search_none_within fuel acts :
  astar_replacements problem heuristic fuel = 0%nat →
  astar_search problem heuristic fuel = Some Failure →
  solves problem acts → (11 < length acts)%nat.
Proof.
  unfold astar_replacements, astar_search.
  destruct (is_goal_state problem (state (astar_root problem heuristic))) eqn:Hgoal; [done|].
  apply astar_loop_failure.
  - assert (valid_node problem (astar_root problem heuristic)) as Hroot.
    { apply valid_node_set_path_cost, valid_root_node. }
    split.
    + split.
      * apply heappush_Forall; [done|]. split; [done|simpl; lia].
      * rewrite heappush_Permutation. csimpl. apply NoDup_singleton.
      * intros n _. apply not_elem_of_empty.
      * intros s Hs. by apply not_elem_of_empty in Hs.
    + apply (heappush_ordered f Node_lt Node_lt_key). by intros i x y _ Hx.
    + apply heappush_Forall; [done|]. split; simpl; [lia|lia].
    + right. by apply heappush_Forall.
    + intros s Hs. by apply not_elem_of_empty in Hs.
    + intros s k acts' Hs. by apply not_elem_of_empty in Hs.
  - left. intros Hnil. pose proof (heappush_Permutation Node_lt [] (astar_root problem heuristic)) as Hperm.
    rewrite Hnil in Hperm. by apply Permutation_nil_cons in Hperm.
Qed.

End AstarAnswers.

Section AstarFailure.

Context {St Act Heur : Type} `{Countable St}.
Variable problem : SearchProblem St Act Heur.
Variable heuristic : option Heur.

(** X14: when the estimate is consistent and the run has replaced no
    frontier entry, the answer ['failure'] of [astar_search] means that
    no sequence of 11 actions or fewer leads from the start state to a
    goal state. *)
Theorem astar_search_failure fuel acts :
  consistent problem heuristic →
  astar_replacements problem heuristic fuel = 0%nat →
  astar_search problem heuristic fuel = Some Failure →
  solves problem acts → (11 < length acts)%nat.
Proof. intros Hcons. by apply astar_search_none_within. Qed.

End AstarFailure.

Section AstarEnds.

Context {St Act Heur : Type} `{Countable St}.
Variable problem : SearchProblem St Act Heur.
Variable heuristic : option Heur.

Lemma astar_loop_not_cutoff fuel frontier explored :
  astar_loop problem heuristic fuel frontier explored ≠ Some Cutoff.
Proof.
  revert frontier explored. induction fuel as [|fuel IH]; intros frontier explored; simpl;
    [done|].
  destruct (heappop Node_lt frontier) as [[node frontier']|]; [|done].
  destruct (is_goal_state problem (state node)); [done|].
  case_bool_decide; apply IH.
Qed.

(** X15: [astar_search] always comes to an end, whatever the estimate:
    after as many rounds of its loop as there are walks of 11 actions or
    fewer from the start state, at most, it has answered with a path or
    with ['failure'], never with ['cutoff']. *)
Theorem astar_search_ends :
  ∀ fuel, (S (length (within problem 11)) ≤ fuel)%nat →
    (∃ nodes, astar_search problem heuristic fuel = Some (Path nodes)) ∨
    astar_search problem heuristic fuel = Some Failure.
Proof.
  intros fuel Hfuel.
  assert (is_Some (astar_search problem heuristic fuel)) as [r Hr].
  { unfold astar_search.
    destruct (is_goal_state problem _); [by eexists|].
    apply astar_loop_total; [|rewrite size_empty; lia].
    assert (valid_node problem (astar_root problem heuristic)) as Hroot.
    { apply valid_node_set_path_cost, valid_root_node. }
    split.
    - apply heappush_Forall; [done|]. split; [done|simpl; lia].
    - rewrite heappush_Permutation. csimpl. apply NoDup_singleton.
    - intros n _. apply not_elem_of_empty.
    - intros s Hs. by apply not_elem_of_empty in Hs. }
  destruct r as [nodes| |]; [left; by exists nodes|by right|].
  exfalso. revert Hr. unfold astar_search.
  destruct (is_goal_state problem _); [done|]. apply astar_loop_not_cutoff.
Qed.

End AstarEnds.

Lemma tree_node_costs_witness :
  tree_node notebook_puzzle notebook_node ∧
  path_cost notebook_node = Z.of_nat (depth notebook_node) ∧
  f notebook_node = path_cost notebook_node ∧
  length (solution notebook_node) = S (depth notebook_node).
Proof.
  assert (tree_node notebook_puzzle notebook_node) as Hnode by (repeat constructor).
  split; [exact Hnode | exact (tree_node_costs notebook_puzzle notebook_node Hnode)].
Defined.

Lemma chain_walk_solves : solves chain_graph chain_walk.
Proof.
  split; [|done]. unfold chain_walk. simpl. rewrite !list_elem_of_In. simpl. tauto.
Qed.

Lemma zero_estimate_consistent : consistent chain_graph (Some zero_estimate).
Proof. split; [done|]. intros s a _. simpl. unfold zero_estimate. lia. Qed.

Lemma breadth_first_search_failure_witness :
  breadth_first_search chain_graph 13 = Some Failure ∧
  solves chain_graph chain_walk ∧
  (11 < length chain_walk)%nat.
Proof.
  assert (breadth_first_search chain_graph 13 = Some Failure) as Hrun
    by (vm_compute; reflexivity).
  split; [exact Hrun|]. split; [exact chain_walk_solves|].
  exact (breadth_first_search_failure chain_graph 13 chain_walk Hrun chain_walk_solves).
Defined.

Lemma astar_search_failure_witness :
  consistent chain_graph (Some zero_estimate) ∧
  astar_replacements chain_graph (Some zero_estimate) 13 = 0%nat ∧
  astar_search chain_graph (Some zero_estimate) 13 = Some Failure ∧
  solves chain_graph chain_walk ∧
  (11 < length chain_walk)%nat.
Proof.
  assert (astar_replacements chain_graph (Some zero_estimate) 13 = 0%nat) as Hclean
    by (vm_compute; reflexivity).
  assert (astar_search chain_graph (Some zero_estimate) 13 = Some Failure) as Hrun
    by (vm_compute; reflexivity).
  split; [exact zero_estimate_consistent|]. split; [exact Hclean|].
  split; [exact Hrun|]. split; [exact chain_walk_solves|].
  exact (astar_search_failure chain_graph (Some zero_estimate) 13 chain_walk
           zero_estimate_consistent Hclean Hrun chain_walk_solves).
Defined.

Lemma astar_search_ends_witness :
  (S (length (within chain_graph 11)) ≤ 13)%nat ∧
  ((∃ nodes, astar_search chain_graph (Some zero_estimate) 13 = Some (Path nodes)) ∨
   astar_search chain_graph (Some zero_estimate) 13 = Some Failure).
Proof.
  assert (S (length (within chain_graph 11)) ≤ 13)%nat as Hfuel by (vm_compute; lia).
  split; [exact Hfuel|].
  exact (astar_search_ends chain_graph (Some zero_estimate) 13 Hfuel).
Defined.

(** ** N-Queens: conflicts and solutions *)

Section QueensFacts.

Import NQueens NQueensSpec.

Lemma is_conflict_sym x1 x2 y1 y2 : is_conflict x1 x2 y1 y2 = is_conflict x2 x1 y2 y1.
Proof.
  unfold is_conflict. repeat case_bool_decide; try done; lia.
Qed.

Lemma is_conflict_false x1 x2 y1 y2 :
  is_conflict x1 x2 y1 y2 = false ↔
  x1 ≠ x2 ∧ y1 ≠ y2 ∧ Z.abs (x1 - x2) ≠ Z.abs (y1 - y2).
Proof.
  unfold is_conflict. repeat case_bool_decide; simpl; split; try done; tauto.
Qed.

Lemma is_consistent_spec var val (assignment : gmap Z Z) :
  is_consistent var val assignment = true ↔
  ∀ k v, assignment !! k = Some v → k ≠ var → is_conflict k var v val = false.
Proof.
  unfold is_consistent. rewrite forallb_forall. split.
  - intros Hall k v Hk Hne. apply elem_of_map_to_list, list_elem_of_In in Hk.
    specialize (Hall _ Hk). simpl in Hall.
    rewrite bool_decide_eq_true_2 in Hall by done. simpl in Hall.
    by apply negb_true_iff in Hall.
  - intros Hall [k v] Hk%list_elem_of_In%elem_of_map_to_list.
    case_bool_decide as Hne; [|done]. simpl. by rewrite (Hall k v Hk Hne).
Qed.

Lemma n_conflicts_zero var val (assignment : gmap Z Z) :
  n_conflicts var val assignment = 0 ↔ is_consistent var val assignment = true.
Proof.
  unfold n_conflicts, is_consistent.
  induction (map_to_list assignment) as [|[k v] l IH]; [done|].
  rewrite filter_cons. cbn [forallb]. rewrite andb_true_iff, <- IH.
  destruct (decide (k ≠ var)) as [Hne|Heq].
  - rewrite bool_decide_eq_true_2 by done. csimpl. rewrite (is_conflict_sym k var).
    match goal with
    | |- context [py_sum (?g <$> ?l')] =>
        pose proof (py_sum_unit_bound g l') as [Hb _]
    end.
    { intros [k' v']. destruct (is_conflict var k' val v'); lia. }
    unfold py_sum in *. destruct (is_conflict var k val v); simpl; split;
      try (intros [? ?]); try done; try lia.
  - rewrite bool_decide_eq_false_2 by done. simpl. tauto.
Qed.

(** X16: [n_conflicts] and [is_consistent] agree, although they hand
    the two squares to [is_conflict] in opposite orders: a value has no
    conflict exactly when it is consistent with the assignment; and the
    count lies between 0 and the number of queens. *)
Theorem n_conflicts_is_consistent var val (assignment : gmap Z Z) :
  0 ≤ n_conflicts var val assignment ≤ Z.of_nat (size assignment) ∧
  (n_conflicts var val assignment = 0 ↔ is_consistent var val assignment = true).
Proof. split; [apply n_conflicts_bound|apply n_conflicts_zero]. Qed.

Lemma conflicted_vars_elem_of (assignment : gmap Z Z) k :
  k ∈ conflicted_vars assignment ↔
  ∃ v k' v', assignment !! k = Some v ∧ assignment !! k' = Some v' ∧ k' ≠ k ∧
             is_conflict k' k v' v = true.
Proof.
  unfold conflicted_vars. rewrite list_elem_of_fmap. split.
  - intros ([k0 v] & -> & [Hbad Hin%elem_of_map_to_list]%list_elem_of_filter).
    simpl in *. exists v.
    destruct (decide (∃ k' v', assignment !! k' = Some v' ∧ k' ≠ k0 ∧
                                is_conflict k' k0 v' v = true)) as [Hex|Hno].
    { destruct Hex as (k' & v' & ?). by exists k', v'. }
    assert (is_consistent k0 v assignment = true); [|congruence].
    apply is_consistent_spec. intros k' v' Hk' Hne.
    destruct (is_conflict k' k0 v' v) eqn:Hc; [|done].
    exfalso. apply Hno. by exists k', v'.
  - intros (v & k' & v' & Hk & Hk' & Hne & Hc). exists (k, v). split; [done|].
    apply list_elem_of_filter. split; [|by apply elem_of_map_to_list].
    simpl. destruct (is_consistent k v assignment) eqn:Hcons; [|done].
    rewrite is_consistent_spec in Hcons. rewrite (Hcons k' v' Hk' Hne) in Hc. done.
Qed.

Lemma conflicted_vars_NoDup (assignment : gmap Z Z) : NoDup (conflicted_vars assignment).
Proof.
  unfold conflicted_vars.
  eapply NoDup_fmap_fst.
  - intros k v1 v2 [_ H1%elem_of_map_to_list]%list_elem_of_filter
                   [_ H2%elem_of_map_to_list]%list_elem_of_filter. congruence.
  - apply NoDup_filter, NoDup_map_to_list.
Qed.

Lemma conflicted_vars_nil (assignment : gmap Z Z) :
  conflicted_vars assignment = [] ↔ peaceful assignment.
Proof.
  split.
  - intros Hnil k1 v1 k2 v2 H1 H2 Hne.
    destruct (is_conflict k1 k2 v1 v2) eqn:Hc.
    + assert (k2 ∈ conflicted_vars assignment) as Hin.
      { apply conflicted_vars_elem_of. by exists v2, k1, v1. }
      rewrite Hnil in Hin. by apply elem_of_nil in Hin.
    + apply is_conflict_false in Hc. tauto.
  - intros Hp. destruct (conflicted_vars assignment) as [|k l] eqn:Hl; [done|].
    assert (k ∈ conflicted_vars assignment) as Hin by (rewrite Hl; left).
    apply conflicted_vars_elem_of in Hin as (v & k' & v' & Hk & Hk' & Hne & Hc).
    destruct (Hp k' v' k v Hk' Hk Hne) as [Hv Hd].
    assert (is_conflict k' k v' v = false); [|congruence].
    by apply is_conflict_false.
Qed.

(** X17: [conflicted_vars] lists, each once, exactly the rows whose
    queen is attacked by the queen of another row; since attacks are
    mutual the list never has exactly one entry, and it is empty
    exactly when no two queens attack each other. *)
Theorem conflicted_vars_spec (assignment : gmap Z Z) :
  NoDup (conflicted_vars assignment) ∧
  (∀ k, k ∈ conflicted_vars assignment ↔
        ∃ v k' v', assignment !! k = Some v ∧ assignment !! k' = Some v' ∧ k' ≠ k ∧
                   is_conflict k' k v' v = true) ∧
  length (conflicted_vars assignment) ≠ 1%nat ∧
  (conflicted_vars assignment = [] ↔ peaceful assignment).
Proof.
  split_and!; [apply conflicted_vars_NoDup|apply conflicted_vars_elem_of|
               |apply conflicted_vars_nil].
  intros Hlen. destruct (conflicted_vars assignment) as [|k [|? ?]] eqn:Hl; try done.
  assert (k ∈ conflicted_vars assignment) as Hin by (rewrite Hl; left).
  apply conflicted_vars_elem_of in Hin as (v & k' & v' & Hk & Hk' & Hne & Hc).
  assert (k' ∈ conflicted_vars assignment) as Hin'.
  { apply conflicted_vars_elem_of. exists v', k, v.
    split_and!; [done|done|done|by rewrite is_conflict_sym]. }
  rewrite Hl in Hin'. apply list_elem_of_singleton in Hin'. done.
Qed.

Lemma is_solution_true self (assignment : gmap Z Z) :
  is_solution self assignment = true ↔
  Z.of_nat (size assignment) = N self ∧ peaceful assignment.
Proof.
  unfold is_solution, is_complete.
  rewrite andb_true_iff, !bool_decide_eq_true, <- conflicted_vars_nil.
  by rewrite length_zero_iff_nil.
Qed.

(** X18: [is_solution] answers [True] exactly for an assignment of [N]
    entries no two of whose queens attack each other.  (Only the number
    of entries is compared with [N]: neither the rows nor the columns
    are checked to lie on the board.) *)
Theorem is_solution_spec self (assignment : gmap Z Z) :
  is_solution self assignment = true ↔
  Z.of_nat (size assignment) = N self ∧ peaceful assignment.
Proof. apply is_solution_true. Qed.

End QueensFacts.

(** ** N-Queens: what the solvers hand back *)

Section SolverAnswersFacts.

Import NQueens NQueensSpec.

Lemma min_conflicts_loop_iterates init self rnd n_iter steps r self' :
  iterates init self →
  min_conflicts_loop self rnd n_iter steps = Some (r, self') →
  iterates init self' ∧
  match r with
  | Solution current =>
      current = assignment self' ∧ is_solution self' current = true
  | Failed => True
  end.
Proof.
  revert self n_iter. induction steps as [|steps IH]; intros self n_iter Hit Hloop;
    simpl in Hloop.
  - by injection Hloop as <- <-.
  - destruct (is_solution self (assignment self)) eqn:Hsol.
    + by injection Hloop as <- <-.
    + destruct (min_conflicts_step self (rnd n_iter)) as [next|] eqn:Hstep; [|done].
      simpl in Hloop. apply (IH next (S n_iter)); [|done].
      by eapply iterates_step.
Qed.

(** X19: [min_conflicts_solver] never raises, whatever is drawn: it
    returns its assignment or the failure message, straight away the
    message when [max_steps] is 0.  Either way the assignment of the
    object has one queen in every row 0..N-1 and none elsewhere, each in
    a column of [0, N); an assignment that is returned is that of the
    object, and no two of its queens attack each other. *)
Theorem min_conflicts_solver_spec N rand rnd max_steps :
  0 ≤ N → (∀ i, 0 ≤ i < N → 0 ≤ rand i < N) →
  ∃ r self',
    min_conflicts_solver (init N rand) rnd max_steps = Some (r, self') ∧
    NQueens.N self' = N ∧ complete self' ∧
    (max_steps = 0%nat → r = Failed) ∧
    match r with
    | Solution current => current = assignment self' ∧ peaceful current
    | Failed => True
    end.
Proof.
  intros HN Hrand.
  destruct (min_conflicts_solver_total N rand rnd max_steps HN Hrand) as [[r self'] Hrun].
  exists r, self'. split; [done|]. unfold min_conflicts_solver in Hrun.
  destruct (min_conflicts_loop_iterates (init N rand) _ _ _ _ _ _
              (iterates_init _) Hrun) as [Hit Hr].
  destruct (iterates_invariant N rand self' HN Hrand Hit) as (HN' & Hc & _).
  split_and!; [done|done| |].
  - intros ->. simpl in Hrun. by injection Hrun as <- _.
  - destruct r as [current|]; [|done]. destruct Hr as [-> Hsol].
    split; [done|]. by apply is_solution_true in Hsol as [_ Hp].
Qed.

(** The value a variable has is the one tried last for it. *)
Lemma iterates_cache_last N rand self :
  iterates (init N rand) self →
  ∀ k v, assignment self !! k = Some v →
         ∃ l, cache self !! k = Some l ∧ last l = Some v.
Proof.
  induction 1 as [|self r self' _ IH Hsol Hstep]; intros k v Hk.
  - exists [v]. split; [|done]. unfold init in *. simpl in *.
    by rewrite lookup_fmap, Hk.
  - unfold min_conflicts_step in Hstep.
    destruct (choice _ _) as [var|]; [|done]. simpl in Hstep.
    destruct (min_conflicts_val self var (assignment self)) as [val s] eqn:Hval.
    unfold min_conflicts_val in Hval. destruct (foldl _ _ _) as [metric value].
    injection Hval as <- <-. injection Hstep as <-. simpl in *.
    destruct (decide (k = var)) as [->|Hne].
    + rewrite lookup_insert_eq in Hk. injection Hk as <-.
      rewrite !lookup_insert_eq. simpl. eexists. split; [done|]. by rewrite last_snoc.
    + rewrite lookup_insert_ne in Hk by done. rewrite !lookup_insert_ne by done.
      by apply IH.
Qed.

(** X20: what an iteration of [min_conflicts_solver] does.  It moves
    the queen of one conflicted row and no other; the value of every row
    stays the last entry of its list in [cache]; and the queen goes to
    another column than the one it stood in, unless the row's list held
    [N] entries and was emptied. *)
Theorem min_conflicts_step_moves N rand self r self' :
  0 ≤ N → (∀ i, 0 ≤ i < N → 0 ≤ rand i < N) →
  iterates (init N rand) self →
  is_solution self (assignment self) = false →
  min_conflicts_step self r = Some self' →
  ∃ var old new,
    var ∈ conflicted_vars (assignment self) ∧
    assignment self !! var = Some old ∧
    assignment self' = <[var := new]> (assignment self) ∧
    (∀ k v, assignment self' !! k = Some v →
            ∃ l, cache self' !! k = Some l ∧ last l = Some v) ∧
    (Z.of_nat (length (default [] (cache self !! var))) ≠ N → new ≠ old).
Proof.
  intros HN Hrand Hit Hsol Hstep.
  destruct (iterates_invariant N rand self HN Hrand Hit) as (HNs & Hc & Hcache).
  pose proof (iterates_cache_last N rand self' (iterates_step _ _ _ _ Hit Hsol Hstep))
    as Hlast'.
  pose proof (iterates_cache_last N rand self Hit) as Hlast.
  unfold min_conflicts_step in Hstep.
  destruct (choice _ _) as [var|] eqn:Hchoice; [|done]. simpl in Hstep.
  assert (var ∈ conflicted_vars (assignment self)) as Hvar.
  { unfold choice in Hchoice. by eapply list_elem_of_lookup_2. }
  destruct (conflicted_vars_assigned _ _ Hvar) as [old Hold].
  destruct (min_conflicts_val_last_minimum self var (assignment self))
    as (val & Heq & [[Hrange Hnot] _] & _).
  { apply complete_size; [lia|done]. }
  { apply untried_exists; [done|]. destruct Hc as [_ Hdom].
    specialize (Hdom var ltac:(by eexists)). lia. }
  rewrite Heq in Hstep. injection Hstep as <-. simpl in *.
  exists var, old, val. split_and!; [done|done|done|done|].
  intros Hlen -> . apply Hnot. unfold values_tried.
  rewrite bool_decide_eq_false_2 by (by rewrite HNs).
  destruct (Hlast var old Hold) as (l & -> & Hl). simpl.
  destruct l as [|x l _] using rev_ind; [done|].
  rewrite last_snoc in Hl. injection Hl as ->. apply elem_of_app. right. by left.
Qed.

Lemma select_unassigned_variable_None self (assignment : gmap Z Z) :
  select_unassigned_variable self assignment = None ↔
  ∀ var, 0 ≤ var < N self → is_Some (assignment !! var).
Proof.
  unfold select_unassigned_variable, mrv_pick, range.
  destruct (filter _ _) as [|var rest] eqn:Hfilter; simpl.
  - split; [intros _|done]. intros var Hvar.
    destruct (assignment !! var) eqn:Hlookup; [by eexists|].
    assert (var ∈ filter (λ var, assignment !! var = None) (seqZ 0 (N self))) as Hin.
    { apply list_elem_of_filter. split; [done|]. apply elem_of_seqZ. lia. }
    rewrite Hfilter in Hin. by apply elem_of_nil in Hin.
  - split; [done|]. intros Hall.
    assert (var ∈ filter (λ var, assignment !! var = None) (seqZ 0 (N self))) as Hin
      by (rewrite Hfilter; left).
    apply list_elem_of_filter in Hin as [Hnone Hin%elem_of_seqZ].
    destruct (Hall var ltac:(lia)) as [v Hv]. congruence.
Qed.

(** X21: [select_unassigned_variable] raises (the [IndexError] of
    [unassigned[0]]) exactly when every variable of [range(N)] has a
    value in the assignment. *)
Theorem select_unassigned_variable_raises self (assignment : gmap Z Z) :
  select_unassigned_variable self assignment = None ↔
  ∀ var, 0 ≤ var < N self → is_Some (assignment !! var).
Proof. apply select_unassigned_variable_None. Qed.

End SolverAnswersFacts.

Section SortedFacts.

Context {A : Type} (key : A → Z).

Lemma insert_by_key_Permutation x l : insert_by_key key x l ≡ₚ x :: l.
Proof.
  induction l as [|y l IH]; simpl; [done|]. case_bool_decide; [done|].
  rewrite IH. apply Permutation_swap.
Qed.

Lemma sorted_from_Permutation acc l :
  foldl (λ acc x, insert_by_key key x acc) acc l ≡ₚ acc ++ l.
Proof.
  revert acc. induction l as [|x l IH]; intros acc; simpl; [by rewrite app_nil_r|].
  rewrite IH, insert_by_key_Permutation. apply Permutation_middle.
Qed.

Lemma sorted_Permutation l : sorted key l ≡ₚ l.
Proof. apply sorted_from_Permutation. Qed.

Lemma insert_by_key_StronglySorted x l :
  StronglySorted (λ a b, key a ≤ key b) l →
  StronglySorted (λ a b, key a ≤ key b) (insert_by_key key x l).
Proof.
  induction 1 as [|y l Hl IH Hy]; simpl; [repeat constructor|].
  case_bool_decide as Hlt.
  - constructor; [by constructor|]. constructor; [lia|].
    eapply Forall_impl; [exact Hy|]. simpl. intros z Hz. lia.
  - constructor; [done|]. rewrite insert_by_key_Permutation.
    constructor; [lia|done].
Qed.

Lemma sorted_StronglySorted l : StronglySorted (λ a b, key a ≤ key b) (sorted key l).
Proof.
  unfold sorted. generalize (SSorted_nil (λ a b, key a ≤ key b)).
  generalize (@nil A). induction l as [|x l IH]; intros acc Hacc; simpl; [done|].
  by apply IH, insert_by_key_StronglySorted.
Qed.

End SortedFacts.

Section OrderPermutation.

Import NQueens NQueensSpec.

Lemma StronglySorted_fst (count : Z → Z) (l : list (Z * Z)) :
  Forall (λ p, p.2 = count p.1) l →
  StronglySorted (λ a b, a.2 ≤ b.2) l →
  StronglySorted (λ v1 v2, count v1 ≤ count v2) (l.*1).
Proof.
  intros Hall Hs. induction Hs as [|p l Hl IH Hp]; csimpl; [constructor|].
  apply Forall_cons in Hall as [Hp' Hall].
  constructor; [by apply IH|]. apply Forall_fmap, Forall_forall. intros q Hq. simpl.
  rewrite Forall_forall in Hp, Hall. rewrite <- Hp', <- (Hall q Hq). by apply Hp.
Qed.

Lemma order_domain_values_perm self var values (assignment : gmap Z Z) :
  order_domain_values self var values assignment ≡ₚ values.
Proof.
  unfold order_domain_values. rewrite sorted_Permutation.
  rewrite <- list_fmap_compose. by rewrite list_fmap_id.
Qed.

(** X22: [order_domain_values] returns the values it is given, each as
    often as it was given, in ascending order of the number of choices
    that the source counts as ruled out, over the neighbours that its
    [if]/[elif] leaves in the list. *)
Theorem order_domain_values_sorted self var values (assignment : gmap Z Z) :
  order_domain_values self var values assignment ≡ₚ values ∧
  StronglySorted
    (λ v1 v2,
       py_sum ((λ neighbor, n_choices_ruled_out self var v1 neighbor assignment)
               <$> neighbors var assignment)
       ≤ py_sum ((λ neighbor, n_choices_ruled_out self var v2 neighbor assignment)
                 <$> neighbors var assignment))
    (order_domain_values self var values assignment).
Proof.
  split; [apply order_domain_values_perm|].
  unfold order_domain_values. apply StronglySorted_fst.
  - rewrite sorted_Permutation. apply Forall_fmap, Forall_forall. by intros v _.
  - apply (sorted_StronglySorted snd).
Qed.

End OrderPermutation.

Lemma min_conflicts_solver_spec_witness :
  0 ≤ 4 ∧ (∀ i : Z, 0 ≤ i < 4 → 0 ≤ 0 < 4) ∧
  ∃ r self',
    NQueens.min_conflicts_solver column0_board (λ _, 0%nat) 50 = Some (r, self') ∧
    NQueens.N self' = 4 ∧ NQueensSpec.complete self' ∧
    (50%nat = 0%nat → r = NQueens.Failed) ∧
    match r with
    | NQueens.Solution current => current = NQueens.assignment self' ∧ peaceful current
    | NQueens.Failed => True
    end.
Proof.
  assert (0 ≤ 4) as HN by lia.
  assert (∀ i : Z, 0 ≤ i < 4 → 0 ≤ 0 < 4) as Hrand by (intros; lia).
  split; [exact HN|]. split; [exact Hrand|].
  exact (min_conflicts_solver_spec 4 (λ _, 0) (λ _, 0%nat) 50 HN Hrand).
Defined.

Lemma min_conflicts_step_moves_witness :
  0 ≤ 4 ∧ (∀ i : Z, 0 ≤ i < 4 → 0 ≤ 0 < 4) ∧
  NQueensSpec.iterates column0_board column0_board ∧
  NQueens.is_solution column0_board (NQueens.assignment column0_board) = false ∧
  NQueens.min_conflicts_step column0_board 0
  = Some (default column0_board (NQueens.min_conflicts_step column0_board 0)) ∧
  ∃ var old new,
    var ∈ NQueens.conflicted_vars (NQueens.assignment column0_board) ∧
    NQueens.assignment column0_board !! var = Some old ∧
    NQueens.assignment (default column0_board (NQueens.min_conflicts_step column0_board 0))
    = <[var := new]> (NQueens.assignment column0_board) ∧
    (∀ k v,
       NQueens.assignment (default column0_board (NQueens.min_conflicts_step column0_board 0))
         !! k = Some v →
       ∃ l, NQueens.cache (default column0_board (NQueens.min_conflicts_step column0_board 0))
              !! k = Some l ∧ last l = Some v) ∧
    (Z.of_nat (length (default [] (NQueens.cache column0_board !! var))) ≠ 4 → new ≠ old).
Proof.
  assert (0 ≤ 4) as HN by lia.
  assert (∀ i : Z, 0 ≤ i < 4 → 0 ≤ 0 < 4) as Hrand by (intros; lia).
  assert (NQueens.is_solution column0_board (NQueens.assignment column0_board) = false)
    as Hsol by (vm_compute; reflexivity).
  assert (NQueens.min_conflicts_step column0_board 0
          = Some (default column0_board (NQueens.min_conflicts_step column0_board 0)))
    as Hstep.
  { destruct (NQueens.min_conflicts_step column0_board 0) as [s|] eqn:Hs; [reflexivity|].
    vm_compute in Hs. discriminate Hs. }
  split; [exact HN|]. split; [exact Hrand|].
  split; [exact (NQueensSpec.iterates_init column0_board)|].
  split; [exact Hsol|]. split; [exact Hstep|].
  exact (min_conflicts_step_moves 4 (λ _, 0) column0_board 0%nat _ HN Hrand
           (NQueensSpec.iterates_init column0_board) Hsol Hstep).
Defined.

(** ** N-Queens: backtracking *)

Section BacktrackFacts.

Import NQueens NQueensSpec.

Variable self : t.
Hypothesis HN : 0 ≤ N self.

Local Abbreviation good b := (on_board (N self) b ∧ peaceful b).
Local Abbreviation free b := (filter (λ var, b !! var = None) (range (N self))).

Lemma length_filter_le {A} (P Q : A → Prop) `{∀ x, Decision (P x), ∀ x, Decision (Q x)}
    (l : list A) :
  (∀ x, x ∈ l → P x → Q x) → (length (filter P l) ≤ length (filter Q l))%nat.
Proof.
  induction l as [|x l IH]; intros Himp; [done|]. rewrite !filter_cons.
  assert (length (filter P l) ≤ length (filter Q l))%nat as Hle.
  { apply IH. intros y Hy. apply Himp. by right. }
  destruct (decide (P x)) as [HP|HP].
  - rewrite decide_True by (apply Himp; [by left|done]). simpl. lia.
  - destruct (decide (Q x)); simpl; lia.
Qed.

Lemma length_filter_lt {A} (P Q : A → Prop) `{∀ x, Decision (P x), ∀ x, Decision (Q x)}
    (l : list A) x :
  (∀ y, y ∈ l → P y → Q y) → x ∈ l → Q x → ¬ P x →
  (length (filter P l) < length (filter Q l))%nat.
Proof.
  induction l as [|y l IH]; intros Himp Hx HQ HP; [by apply elem_of_nil in Hx|].
  rewrite !filter_cons.
  assert (length (filter P l) ≤ length (filter Q l))%nat as Hle.
  { apply length_filter_le. intros z Hz. apply Himp. by right. }
  apply elem_of_cons in Hx as [<-|Hx].
  - rewrite decide_False, decide_True by done. simpl. lia.
  - assert (length (filter P l) < length (filter Q l))%nat as Hlt.
    { apply IH; [|done..]. intros z Hz. apply Himp. by right. }
    destruct (decide (P y)) as [HPy|HPy].
    + rewrite decide_True by (apply Himp; [by left|done]). simpl. lia.
    + destruct (decide (Q y)); simpl; lia.
Qed.

Lemma free_subseteq (b c : gmap Z Z) : b ⊆ c → (length (free c) ≤ length (free b))%nat.
Proof.
  intros Hsub. apply length_filter_le. intros var _ Hnone.
  destruct (b !! var) as [v|] eqn:Hb; [|done].
  by rewrite (lookup_weaken _ _ _ _ Hb Hsub) in Hnone.
Qed.

Lemma free_insert (b : gmap Z Z) var val :
  0 ≤ var < N self → b !! var = None →
  (length (free (<[var:=val]> b)) < length (free b))%nat.
Proof.
  intros Hvar Hnone. apply (length_filter_lt _ _ _ var).
  - intros k _ Hk. destruct (decide (k = var)) as [->|Hne]; [done|].
    by rewrite lookup_insert_ne in Hk.
  - apply elem_of_seqZ. lia.
  - done.
  - by rewrite lookup_insert_eq.
Qed.

Lemma free_bound (b : gmap Z Z) : (length (free b) ≤ Z.to_nat (N self))%nat.
Proof.
  etrans; [apply length_filter|]. unfold range. by rewrite length_seqZ.
Qed.

Lemma good_insert (b : gmap Z Z) var val :
  good b → 0 ≤ var < N self → 0 ≤ val < N self →
  is_consistent var val b = true → good (<[var:=val]> b).
Proof.
  intros [Hboard Hpeace] Hvar Hval Hcons. rewrite is_consistent_spec in Hcons. split.
  - intros k v Hk. destruct (decide (k = var)) as [->|Hne].
    + rewrite lookup_insert_eq in Hk. by injection Hk as <-.
    + rewrite lookup_insert_ne in Hk by done. by apply Hboard.
  - intros k1 v1 k2 v2 H1 H2 Hne.
    destruct (decide (k1 = var)) as [->|Hne1].
    + rewrite lookup_insert_eq in H1. injection H1 as <-.
      rewrite lookup_insert_ne in H2 by done.
      specialize (Hcons k2 v2 H2 ltac:(done)). apply is_conflict_false in Hcons.
      destruct Hcons as (? & ? & ?). split; [congruence|lia].
    + rewrite lookup_insert_ne in H1 by done.
      destruct (decide (k2 = var)) as [->|Hne2].
      * rewrite lookup_insert_eq in H2. injection H2 as <-.
        specialize (Hcons k1 v1 H1 Hne1). apply is_conflict_false in Hcons.
        destruct Hcons as (? & ? & ?). split; [congruence|lia].
      * rewrite lookup_insert_ne in H2 by done. by apply (Hpeace k1 v1 k2 v2).
Qed.

Lemma good_subseteq (b c : gmap Z Z) : b ⊆ c → good c → good b.
Proof.
  intros Hsub [Hboard Hpeace]. split.
  - intros k v Hk. apply Hboard. by eapply lookup_weaken.
  - intros k1 v1 k2 v2 H1 H2. apply Hpeace; by eapply lookup_weaken.
Qed.

Lemma remaining_legal_values_elem_of var (b : gmap Z Z) val :
  val ∈ remaining_legal_values self var b ↔
  0 ≤ val < N self ∧ is_consistent var val b = true.
Proof.
  unfold remaining_legal_values, range. rewrite list_elem_of_filter, elem_of_seqZ.
  split; intros [? ?]; split; (done || lia).
Qed.

Lemma select_unassigned_variable_Some (b : gmap Z Z) var values :
  select_unassigned_variable self b = Some (var, values) →
  0 ≤ var < N self ∧ b !! var = None ∧ values = remaining_legal_values self var b.
Proof.
  intros Hsel. pose proof (mrv_pick_upto self b (Z.to_nat (N self))) as Hpick.
  rewrite Z2Nat.id in Hpick by lia.
  unfold select_unassigned_variable, range in Hsel. rewrite Hsel in Hpick.
  destruct Hpick as (Hvar & Hfree & -> & _). done.
Qed.

Lemma good_full_size (b : gmap Z Z) :
  good b → (∀ var, 0 ≤ var < N self → is_Some (b !! var)) →
  Z.of_nat (size b) = N self.
Proof.
  intros [Hboard _] Hall. apply (complete_size (mk (N self) b ∅)); [done|]. split; simpl.
  - intros i Hi. destruct (Hall i Hi) as [v Hv]. exists v. split; [done|].
    by apply (Hboard i v).
  - intros i [v Hv]. by apply (Hboard i v).
Qed.

(** What a call leaves behind: the dict given is good and holds what
    it held, no exception has escaped, and a dict that is returned is
    good, full and holds what the given one held. *)
Local Abbreviation settled a out :=
  (good (snd out) ∧ a ⊆ snd out ∧ fst out ≠ Raised ∧
   ∀ res, fst out = Found res →
          good res ∧ Z.of_nat (size res) = N self ∧ a ⊆ res).

Lemma backtrack_values_settled
    (rec : gmap Z Z → option (Backtracked * gmap Z Z)) (budget : nat)
    (a : gmap Z Z) var values current own given bound :
  (∀ b, good b → (length (free b) < budget)%nat →
        ∃ out, rec b = Some out ∧ settled b out) →
  0 ≤ var < N self → Forall (λ v, 0 ≤ v < N self) values →
  good current → current !! var = None → (length (free current) ≤ budget)%nat →
  good given → a ⊆ given → a ⊆ current →
  (own = false → given = current) →
  (bound = false → Forall (λ v, is_consistent var v current = true) values) →
  ∃ out, backtrack_values self rec var values current own given bound = Some out ∧
         settled a out.
Proof.
  intros Hrec Hvar. revert current own given bound.
  induction values as [|val values IH];
    intros current own given bound Hvalues Hcur Hnone Hfree Hgiven Hsub Hsub' Hown Hbound.
  { simpl. eexists. split; [done|]. simpl. split_and!; [apply Hgiven..|done|done|done]. }
  apply Forall_cons in Hvalues as [Hval Hvalues]. cbn [backtrack_values].
  destruct (is_consistent var val current) eqn:Hcons.
  - assert (good (<[var:=val]> current)) as Hnext by (by apply good_insert).
    assert (current ⊆ <[var:=val]> current) as Hgrow by (by apply insert_subseteq).
    destruct (Hrec (<[var:=val]> current) Hnext) as ([r copy] & -> & Hcopy & Hsub'' & Hr & Hfound).
    { pose proof (free_insert current var val Hvar Hnone). lia. }
    simpl in *. cbn [mbind option_bind].
    set (given' := if own then given else <[var:=val]> current).
    assert (good given' ∧ a ⊆ given') as [Hgiven' Hsubg].
    { unfold given'. destruct own; [done|]. split; [done|]. by etrans. }
    destruct r as [res| |]; [| |done].
    + eexists. split; [done|]. simpl. split_and!; [apply Hgiven'..|done|done|].
      intros res' [= <-]. destruct (Hfound res eq_refl) as (Hres & Hsize & Hsubr).
      split_and!; [apply Hres..|done|]. etrans; [exact Hsub'|]. by etrans.
    + assert (current ⊆ delete var copy) as Hkeep.
      { apply map_subseteq_spec. intros k v Hk.
        assert (k ≠ var) by congruence. rewrite lookup_delete_ne by done.
        eapply lookup_weaken; [|exact Hsub'']. by rewrite lookup_insert_ne. }
      apply IH; [done| | | |done|done| |done|done].
      * eapply good_subseteq; [apply delete_subseteq|done].
      * apply lookup_delete_eq.
      * etrans; [by apply free_subseteq|done].
      * etrans; [exact Hsub'|exact Hkeep].
  - destruct bound.
    + assert (delete var current = current) as Hsame by (by apply delete_id).
      rewrite Hsame.
      assert ((if own then given else current) = given) as ->.
      { destruct own; [done|]. symmetry. by apply Hown. }
      by apply IH.
    + specialize (Hbound eq_refl). apply Forall_cons in Hbound as [Hc _]. congruence.
Qed.

Lemma backtrack_settled fuel (a : gmap Z Z) :
  good a → (length (free a) < fuel)%nat →
  ∃ out, backtrack self fuel a = Some out ∧ settled a out.
Proof.
  revert a. induction fuel as [|fuel IH]; intros a Ha Hfuel; [lia|].
  cbn [backtrack]. destruct (is_complete self a) eqn:Hcomplete.
  { eexists. split; [done|]. simpl. split_and!; [apply Ha..|done|done|].
    intros res [= <-]. split_and!; [apply Ha..| |done].
    by apply bool_decide_eq_true in Hcomplete. }
  destruct (select_unassigned_variable self a) as [[var values]|] eqn:Hsel.
  - apply select_unassigned_variable_Some in Hsel as (Hvar & Hnone & ->).
    pose proof (order_domain_values_perm self var
                  (remaining_legal_values self var a) a) as Hperm.
    apply (backtrack_values_settled _ fuel); try done.
    + rewrite Hperm. apply Forall_forall.
      by intros v [Hv _]%remaining_legal_values_elem_of.
    + lia.
    + intros _. rewrite Hperm. apply Forall_forall.
      by intros v [_ Hv]%remaining_legal_values_elem_of.
  - exfalso. apply bool_decide_eq_false in Hcomplete. apply Hcomplete.
    apply good_full_size; [done|]. by apply select_unassigned_variable_None.
Qed.

(** A loop that works on a copy leaves the caller's dict alone. *)
Lemma backtrack_values_own rec var values current given bound r out :
  backtrack_values self rec var values current true given bound = Some (r, out) →
  out = given.
Proof.
  revert current bound. induction values as [|val values IH]; intros current bound Hrun;
    cbn [backtrack_values] in Hrun.
  { by injection Hrun as _ <-. }
  destruct (is_consistent var val current).
  - destruct (rec _) as [[r' copy]|]; [|done]. cbn [mbind option_bind] in Hrun.
    destruct r'; [by injection Hrun as _ <-|by eapply IH|by injection Hrun as _ <-].
  - destruct bound; [by eapply IH|by injection Hrun as _ <-].
Qed.

End BacktrackFacts.

Section BacktrackAnswers.

Import NQueens NQueensSpec.

(** X23: started on an assignment whose queens stand on the board and
    do not attack each other, [backtrack] raises nothing and needs no
    more than [N + 1] nested calls; a dict that it returns holds what
    the assignment held and is a solution, [N] queens on the board, no
    two attacking each other. *)
Theorem backtrack_spec self fuel (assignment : gmap Z Z) :
  0 ≤ N self → on_board (N self) assignment → peaceful assignment →
  (Z.to_nat (N self) < fuel)%nat →
  ∃ r given,
    backtrack self fuel assignment = Some (r, given) ∧ r ≠ Raised ∧
    ∀ res, r = Found res →
           assignment ⊆ res ∧ is_solution self res = true ∧ on_board (N self) res.
Proof.
  intros HN Hboard Hpeace Hfuel.
  destruct (backtrack_settled self HN fuel assignment) as ([r given] & Hrun & _ & _ & Hr & Hfound);
    [done|pose proof (free_bound self assignment); lia|].
  exists r, given. split_and!; [done|done|]. intros res ->.
  destruct (Hfound res eq_refl) as ([Hb Hp] & Hsize & Hsub).
  split_and!; [done| |done]. by apply is_solution_true.
Qed.

(** X24: [backtrack] changes the dict it is given.  It writes the first
    value it tries for the selected variable into that dict and then
    goes on with copies, so the entry is still there when the call
    returns, also when the answer is ['failure']; only a call on a
    complete assignment, or one that finds no value to try, leaves the
    dict as it was. *)
Theorem backtrack_changes_argument self fuel (assignment : gmap Z Z) r given :
  0 ≤ N self →
  backtrack self fuel assignment = Some (r, given) →
  (is_complete self assignment = true → given = assignment) ∧
  ∀ var values,
    is_complete self assignment = false →
    select_unassigned_variable self assignment = Some (var, values) →
    assignment !! var = None ∧
    match order_domain_values self var values assignment with
    | [] => r = NotFound ∧ given = assignment
    | val :: _ => given = <[var:=val]> assignment
    end.
Proof.
  intros HN Hrun. destruct fuel as [|fuel]; [done|]. cbn [backtrack] in Hrun.
  split.
  - intros Hc. rewrite Hc in Hrun. by injection Hrun as _ <-.
  - intros var values Hc Hsel. rewrite Hc, Hsel in Hrun.
    apply (select_unassigned_variable_Some self HN) in Hsel as (Hvar & Hnone & ->).
    split; [done|].
    pose proof (order_domain_values_perm self var
                  (remaining_legal_values self var assignment) assignment) as Hperm.
    destruct (order_domain_values _ _ _ _) as [|val rest]; cbn [backtrack_values] in Hrun.
    { by injection Hrun as <- <-. }
    assert (is_consistent var val assignment = true) as Hcons.
    { assert (val ∈ remaining_legal_values self var assignment) as Hin
        by (rewrite <- Hperm; left).
      by apply remaining_legal_values_elem_of in Hin as [_ Hin]. }
    rewrite Hcons in Hrun.
    destruct (backtrack self fuel _) as [[r' copy]|]; [|done].
    cbn [mbind option_bind] in Hrun.
    destruct r'; [by injection Hrun as _ <-| |by injection Hrun as _ <-].
    by apply backtrack_values_own in Hrun.
Qed.

End BacktrackAnswers.

Lemma backtrack_spec_witness :
  0 ≤ NQueens.N empty_board ∧ on_board (NQueens.N empty_board) ∅ ∧ peaceful ∅ ∧
  (Z.to_nat (NQueens.N empty_board) < 5)%nat ∧
  ∃ r given,
    NQueens.backtrack empty_board 5 ∅ = Some (r, given) ∧ r ≠ NQueens.Raised ∧
    ∀ res, r = NQueens.Found res →
           ∅ ⊆ res ∧ NQueens.is_solution empty_board res = true ∧
           on_board (NQueens.N empty_board) res.
Proof.
  assert (0 ≤ NQueens.N empty_board) as HN by (simpl; lia).
  assert (on_board (NQueens.N empty_board) ∅) as Hboard by (intros k v Hk; done).
  assert (peaceful ∅) as Hpeace by (intros k1 v1 k2 v2 Hk; done).
  assert (Z.to_nat (NQueens.N empty_board) < 5)%nat as Hfuel by (simpl; lia).
  split; [exact HN|]. split; [exact Hboard|]. split; [exact Hpeace|]. split; [exact Hfuel|].
  exact (backtrack_spec empty_board 5 ∅ HN Hboard Hpeace Hfuel).
Defined.

Lemma backtrack_changes_argument_witness :
  0 ≤ NQueens.N board2 ∧
  NQueens.backtrack board2 3 ∅ = Some (NQueens.NotFound, {[ 1 := 0 ]}) ∧
  (NQueens.is_complete board2 ∅ = true → ({[ 1 := 0 ]} : gmap Z Z) = ∅) ∧
  ∀ var values,
    NQueens.is_complete board2 ∅ = false →
    NQueens.select_unassigned_variable board2 ∅ = Some (var, values) →
    (∅ : gmap Z Z) !! var = None ∧
    match NQueens.order_domain_values board2 var values ∅ with
    | [] => NQueens.NotFound = NQueens.NotFound ∧ ({[ 1 := 0 ]} : gmap Z Z) = ∅
    | val :: _ => ({[ 1 := 0 ]} : gmap Z Z) = <[var:=val]> ∅
    end.
Proof.
  assert (0 ≤ NQueens.N board2) as HN by (simpl; lia).
  assert (NQueens.backtrack board2 3 ∅ = Some (NQueens.NotFound, {[ 1 := 0 ]})) as Hrun
    by (vm_compute; reflexivity).
  split; [exact HN|]. split; [exact Hrun|].
  exact (backtrack_changes_argument board2 3 ∅ _ _ HN Hrun).
Defined.

(** The entries left behind can make [backtrack] give up too early: with
    a queen in row 2, column 0 of the 4x4 board it answers ['failure'],
    the dict it was given holding a queen in row 3 besides, although the
    solution 1, 3, 0, 2 has that queen. *)
Example backtrack_gives_up :
  NQueens.backtrack empty_board 5 row2_column0
  = Some (NQueens.NotFound, <[ 3 := 3 ]> row2_column0) ∧
  row2_column0 ⊆ queens_1302 ∧
  NQueens.is_solution empty_board queens_1302 = true.
Proof.
  split_and!; [by vm_compute| |by vm_compute].
  apply map_subseteq_spec. intros k v Hk. unfold row2_column0 in Hk.
  apply lookup_singleton_Some in Hk as [<- <-]. by vm_compute.
Qed.
